(** * SubQuest (Devvit) round-advancement engine

    A shallow embedding of the TypeScript sources of SubQuest:

    - [types/index.ts]                the data model ([StoryNode], [Choice],
                                      [GameState], [AppConfig], [Story],
                                      [VoteData], [VoteResult]);
    - [utils/redisManager.ts]         [RedisManager];
    - [utils/storyEngine.ts]          [StoryEngine];
    - [handlers/voteCounter.ts]       [VoteCounter];
    - [handlers/postManager.ts]       [PostManager];
    - [handlers/schedulerHandler.ts]  [SchedulerHandler];
    - [handlers/settingsHandler.ts]   [SettingsHandler] (story validation).

    Conventions of the embedding.

    - JavaScript numbers that the program uses as counters, timestamps
      (milliseconds) and durations are integers here ([Z]).
    - An [async] method is a computation in the monad [M]: it threads the
      state of the world (the Redis store, the clock, the log of delays and
      warnings, the per-instance story caches) and either returns or throws
      an [Error] with a message.
    - The platform (Reddit API, scheduler, [Math.random]) is a script of
      answers, [Env], indexed by the number of external calls made so far;
      theorems quantify over every script.
    - Redis itself is a reliable store: [get], [set] and [del] do not throw.
    - A JavaScript object used as a record with string keys is an association
      list in the order in which [Object.keys] enumerates it.  *)

From Stdlib Require Import ZArith List Ascii String Bool Lia Permutation Sorted QArith Qround.
From stdpp Require Import base option list gmap strings pretty.

Local Open Scope Z_scope.

(* ================================================================== *)
(** * JavaScript values as [JSON.parse] produces them *)
(* ================================================================== *)

Module JS.

#[local] Unset Elimination Schemes.
Inductive JSON : Type :=
| JNull
| JBool (b : bool)
| JNum (z : Z)
| JStr (s : string)
| JArr (xs : list JSON)
| JObj (kvs : list (string * JSON)).
#[local] Set Elimination Schemes.

(** A JavaScript value read out of parsed JSON: [None] is [undefined]. *)
Definition value : Type := option JSON.

(** [!!v] *)
Definition truthy (v : value) : bool :=
  match v with
  | None | Some JNull => false
  | Some (JBool b) => b
  | Some (JNum z) => negb (z =? 0)
  | Some (JStr s) => negb (String.eqb s "")
  | Some (JArr _) | Some (JObj _) => true
  end.

(** [typeof v] *)
Definition typeof (v : value) : string :=
  match v with
  | None => "undefined"
  | Some JNull | Some (JArr _) | Some (JObj _) => "object"
  | Some (JBool _) => "boolean"
  | Some (JNum _) => "number"
  | Some (JStr _) => "string"
  end.

(** [Array.isArray(v)] *)
Definition isArray (v : value) : bool :=
  match v with Some (JArr _) => true | _ => false end.

(** [!v || typeof v !== 'string'], the check the validators apply to
    every mandatory text field. *)
Definition not_valid_string (v : value) : bool :=
  negb (truthy v) || negb (String.eqb (typeof v) "string").

Fixpoint assoc {A : Type} (k : string) (kvs : list (string * A)) : option A :=
  match kvs with
  | [] => None
  | (k', a) :: rest => if String.eqb k' k then Some a else assoc k rest
  end.

Definition indexed {A : Type} (xs : list A) : list (string * A) :=
  imap (fun i x => (pretty (Z.of_nat i), x)) xs.

Definition chars (s : string) : list JSON :=
  map (fun c => JStr (String c EmptyString)) (list_ascii_of_string s).

(** The own enumerable string-keyed properties, in [Object.keys] order.
    Arrays and strings enumerate their indices; [null] and [undefined]
    have none (and [Object.keys] throws on them, see [keys]). *)
Definition entries (v : value) : list (string * JSON) :=
  match v with
  | Some (JObj kvs) => kvs
  | Some (JArr xs) => indexed xs
  | Some (JStr s) => indexed (chars s)
  | _ => []
  end.

(** [v[k]] for a value that is neither [null] nor [undefined].  Members
    inherited from the prototypes ([toString], [constructor], ...) are not
    part of the model: keys are assumed not to name them. *)
Definition get (v : JSON) (k : string) : value :=
  match v with
  | JObj kvs => assoc k kvs
  | JArr xs =>
      if String.eqb k "length" then Some (JNum (Z.of_nat (length xs)))
      else assoc k (indexed xs)
  | JStr s =>
      if String.eqb k "length" then Some (JNum (Z.of_nat (String.length s)))
      else assoc k (indexed (chars s))
  | JNull | JBool _ | JNum _ => None
  end.

(** [a === b] where [b] is a string. *)
Definition strict_eq_string (a : value) (b : string) : bool :=
  match a with Some (JStr s) => String.eqb s b | _ => false end.

Definition strict_eq_bool (a : value) (b : bool) : bool :=
  match a with Some (JBool x) => Bool.eqb x b | _ => false end.

(** The double-quote character and a text between two of them. *)
Definition dquote : string := String (ascii_of_nat 34) EmptyString.

Definition quoted (s : string) : string := dquote +:+ s +:+ dquote.

(** [xs.join(sep)] on strings *)
Fixpoint join (sep : string) (xs : list string) : string :=
  match xs with
  | [] => ""
  | [x] => x
  | x :: rest => x +:+ sep +:+ join sep rest
  end.

(** [String(v)], as a template literal or a property key coerces [v]. *)
Fixpoint to_string (j : JSON) : string :=
  match j with
  | JNull => "null"
  | JBool true => "true"
  | JBool false => "false"
  | JNum z => pretty z
  | JStr s => s
  | JArr xs =>
      join "," (map (fun x => match x with JNull => "" | _ => to_string x end) xs)
  | JObj _ => "[object Object]"
  end.

Definition value_to_string (v : value) : string :=
  match v with
  | None => "undefined"
  | Some j => to_string j
  end.

(** ** Property order of ordinary objects

    [obj[k] = v] on a record: an existing key keeps its place; a new key
    that is an array index (a canonical decimal below [2^32 - 1]) goes
    among the index keys in ascending order, before every other key; any
    other new key goes last.  [Object.entries] and [JSON.stringify]
    enumerate in that order.  The key [__proto__] is the exception: the
    assignment goes to the setter that every object inherits, which
    ignores a value that is not an object (the records of this program
    hold strings), so no property is added. *)
Definition digit (c : ascii) : option Z :=
  let n := Z.of_nat (nat_of_ascii c) in
  if (48 <=? n) && (n <=? 57) then Some (n - 48) else None.

Fixpoint digits_value (acc : Z) (cs : list ascii) : option Z :=
  match cs with
  | [] => Some acc
  | c :: rest =>
      match digit c with
      | Some d => digits_value (acc * 10 + d) rest
      | None => None
      end
  end.

Definition array_index (k : string) : option Z :=
  match list_ascii_of_string k with
  | [] => None
  | c :: rest =>
      if (nat_of_ascii c =? 48)%nat && negb (bool_decide (rest = [])) then None
      else
        match digits_value 0 (c :: rest) with
        | Some n => if n <? 2 ^ 32 - 1 then Some n else None
        | None => None
        end
  end.

Fixpoint has_key {A : Type} (k : string) (kvs : list (string * A)) : bool :=
  match kvs with
  | [] => false
  | (k', _) :: rest => String.eqb k' k || has_key k rest
  end.

Fixpoint replace_value {A : Type} (k : string) (v : A) (kvs : list (string * A))
  : list (string * A) :=
  match kvs with
  | [] => []
  | (k', v') :: rest =>
      if String.eqb k' k then (k', v) :: rest else (k', v') :: replace_value k v rest
  end.

Fixpoint insert_index {A : Type} (n : Z) (k : string) (v : A) (kvs : list (string * A))
  : list (string * A) :=
  match kvs with
  | [] => [(k, v)]
  | (k', v') :: rest =>
      match array_index k' with
      | Some m => if m <? n then (k', v') :: insert_index n k v rest
                  else (k, v) :: kvs
      | None => (k, v) :: kvs
      end
  end.

Definition record_set {A : Type} (k : string) (v : A) (kvs : list (string * A))
  : list (string * A) :=
  if String.eqb k "__proto__" then kvs
  else if has_key k kvs then replace_value k v kvs
  else
    match array_index k with
    | Some n => insert_index n k v kvs
    | None => kvs ++ [(k, v)]
    end.

(** [s || fallback] on an optional string: the empty string is falsy. *)
Definition or_else (s : option string) (fallback : string) : string :=
  match s with
  | Some m => if String.eqb m "" then fallback else m
  | None => fallback
  end.

(** [`${s}`] on an optional string. *)
Definition interpolate (s : option string) : string :=
  match s with
  | Some m => m
  | None => "undefined"
  end.

(** [v > n] for a number [n]: [v] is converted to a number first.  The
    conversion of a string (and of an array, which goes through its
    string) is outside the embedding: [None]. *)
Definition gt_number (v : value) (n : Z) : option bool :=
  match v with
  | None => Some false
  | Some JNull => Some (n <? 0)
  | Some (JBool b) => Some (n <? (if b then 1 else 0))
  | Some (JNum z) => Some (n <? z)
  | Some (JStr _) | Some (JArr _) => None
  | Some (JObj _) => Some false
  end.

(** [v === 0] *)
Definition strict_eq_zero (v : value) : bool :=
  match v with Some (JNum z) => z =? 0 | _ => false end.

(** [v.length] for a truthy [v]. *)
Definition length_of (v : JSON) : value := get v "length".

End JS.

(* ================================================================== *)
(** * types/index.ts *)
(* ================================================================== *)

Module Choice.
Record t : Type := mk
  { id : string;
    text : string;
    nextNodeId : string }.
End Choice.

Module StoryNode.
Record t : Type := mk
  { id : string;
    title : string;
    content : string;
    imageUrl : option string;
    choices : option (list Choice.t);
    isEnd : option bool }.
End StoryNode.

Module GameState.
Record t : Type := mk
  { currentNodeId : string;
    roundNumber : Z;
    storyPath : list string;
    isActive : bool;
    roundStartTime : Z;
    roundDurationHours : Z;
    testMode : option bool }.
End GameState.

Module AppConfig.
Record t : Type := mk
  { roundDurationHours : Z;
    isGameActive : bool;
    subredditName : string }.
End AppConfig.

Module Story.
Record t : Type := mk
  { title : string;
    description : string;
    startNodeId : string;
    nodes : list (string * StoryNode.t) }.

(** [story.nodes[id]] for an id that [nodes] has as a key of its own, or
    that names nothing.  The members that every object inherits
    ([toString], [constructor], ...) are not part of the model: under such
    a name the lookup of the code finds a function, not [undefined], and
    the statements about a lookup under a name that the story or the
    game state chooses leave those names out ([inheritedName]). *)
Definition node (s : t) (id : string) : option StoryNode.t :=
  JS.assoc id (nodes s).

(** [Object.keys(story.nodes)] *)
Definition nodeIds (s : t) : list string := map fst (nodes s).
End Story.

Module VoteData.
Record t : Type := mk
  { choices : list (string * string);
    roundEndTime : Z }.
End VoteData.

Module VoteResult.
Record t : Type := mk
  { choiceId : string;
    commentId : string;
    upvotes : Z }.
End VoteResult.

(* ================================================================== *)
(** * The world the handlers run in *)
(* ================================================================== *)

(** What a call either returns or throws ([Error.message]). *)
Inductive result (A : Type) : Type :=
| Ok (a : A)
| Throw (message : string).
Arguments Ok {A} a.
Arguments Throw {A} message.

(** The Redis keys of [REDIS_KEYS]: the game state, the story, the
    configuration, and one vote record per round number.  The store keeps
    serialised JSON; the embedding keeps the values that [JSON.parse] gives
    back. *)
Module Redis.
Record t : Type := mk
  { GAME_STATE : option GameState.t;
    STORY_DATA : option Story.t;
    CONFIG : option AppConfig.t;
    VOTE_DATA : gmap Z VoteData.t }.

Definition empty : t := mk None None None ∅.
End Redis.

(** [context.reddit.getCommentById] *)
Inductive CommentFetch : Type :=
| FetchThrows (message : string)
| FetchNothing
| FetchComment (score : option Z).

(** The platform's answers, by the index of the external call. *)
Record Env : Type := mkEnv
  { reddit_getCommentById : nat -> string -> CommentFetch;
    reddit_submitPost : nat -> result string;
    reddit_submitComment : nat -> result string;
    scheduler_runJob : nat -> result string;
    math_random : nat -> Q;
    date_toISOString : Z -> string }.

(** Who waits in a [setTimeout]. *)
Inductive Origin : Type :=
| SchedulerRetry
| VoteBackoff
| CommentRateLimit.

Inductive Event : Type :=
| Sleep (who : Origin) (ms : Z)
| Attempt (attempt maxRetries : Z)
| Warn (message : string)
| RunJob (runAt roundNumber scheduledAt durationHours : Z).

(** A [StoryEngine] instance caches the story in [this.currentStory]; each
    handler owns its own instance. *)
Inductive EngineRef : Type :=
| OfScheduler
| OfPostManager
| OfVoteCounter
| OfSettings.

Record World : Type := mkWorld
  { redis : Redis.t;
    now : Z;
    calls : nat;
    log : list Event;
    env : Env;
    story_sched : option Story.t;
    story_post : option Story.t;
    story_vote : option Story.t;
    story_settings : option Story.t }.

Definition M (A : Type) : Type := World -> World * result A.

Definition ret {A : Type} (a : A) : M A := fun w => (w, Ok a).

Definition bind {A B : Type} (m : M A) (k : A -> M B) : M B :=
  fun w =>
    match m w with
    | (w', Ok a) => k a w'
    | (w', Throw e) => (w', Throw e)
    end.

Definition throw {A : Type} (message : string) : M A :=
  fun w => (w, Throw message).

(** [try { m } catch (error) { h(error.message) }] *)
Definition try_catch {A : Type} (m : M A) (h : string -> M A) : M A :=
  fun w =>
    match m w with
    | (w', Ok a) => (w', Ok a)
    | (w', Throw e) => h e w'
    end.

Declare Scope m_scope.
Delimit Scope m_scope with m.
Notation "x <- c1 ;; c2" := (bind c1 (fun x => c2))
  (at level 100, c1 at next level, right associativity) : m_scope.
Notation "c1 ;; c2" := (bind c1 (fun _ => c2))
  (at level 100, right associativity) : m_scope.
Local Open Scope m_scope.

Definition get_redis : M Redis.t := fun w => (w, Ok (redis w)).

Definition put_redis (r : Redis.t) : M unit :=
  fun w => (mkWorld r (now w) (calls w) (log w) (env w)
              (story_sched w) (story_post w) (story_vote w) (story_settings w),
            Ok tt).

(** [Date.now()] *)
Definition date_now : M Z := fun w => (w, Ok (now w)).

Definition emit (e : Event) : M unit :=
  fun w => (mkWorld (redis w) (now w) (calls w) (log w ++ [e]) (env w)
              (story_sched w) (story_post w) (story_vote w) (story_settings w),
            Ok tt).

(** [new Date(t).toISOString()] *)
Definition toISOString (t : Z) : M string :=
  fun w => (w, Ok (date_toISOString (env w) t)).

(** [await new Promise(resolve => setTimeout(resolve, ms))] *)
Definition sleep (who : Origin) (ms : Z) : M unit :=
  fun w => (mkWorld (redis w) (now w + ms) (calls w) (log w ++ [Sleep who ms]) (env w)
              (story_sched w) (story_post w) (story_vote w) (story_settings w),
            Ok tt).

(** One call to the platform: the script is read at the current index,
    which then moves on. *)
Definition external {A : Type} (ask : Env -> nat -> A) : M A :=
  fun w => (mkWorld (redis w) (now w) (S (calls w)) (log w) (env w)
              (story_sched w) (story_post w) (story_vote w) (story_settings w),
            Ok (ask (env w) (calls w))).

Definition of_result {A : Type} (r : result A) : M A :=
  match r with
  | Ok a => ret a
  | Throw e => throw e
  end.

Definition currentStory (e : EngineRef) (w : World) : option Story.t :=
  match e with
  | OfScheduler => story_sched w
  | OfPostManager => story_post w
  | OfVoteCounter => story_vote w
  | OfSettings => story_settings w
  end.

Definition get_currentStory (e : EngineRef) : M (option Story.t) :=
  fun w => (w, Ok (currentStory e w)).

Definition set_currentStory (e : EngineRef) (s : option Story.t) : M unit :=
  fun w =>
    (match e with
     | OfScheduler =>
         mkWorld (redis w) (now w) (calls w) (log w) (env w)
           s (story_post w) (story_vote w) (story_settings w)
     | OfPostManager =>
         mkWorld (redis w) (now w) (calls w) (log w) (env w)
           (story_sched w) s (story_vote w) (story_settings w)
     | OfVoteCounter =>
         mkWorld (redis w) (now w) (calls w) (log w) (env w)
           (story_sched w) (story_post w) s (story_settings w)
     | OfSettings =>
         mkWorld (redis w) (now w) (calls w) (log w) (env w)
           (story_sched w) (story_post w) (story_vote w) s
     end, Ok tt).

(* ================================================================== *)
(** * utils/redisManager.ts *)
(* ================================================================== *)

Module RedisManager.

Definition setGameState (gameState : GameState.t) : M unit :=
  r <- get_redis ;;
  put_redis (Redis.mk (Some gameState) (Redis.STORY_DATA r) (Redis.CONFIG r)
               (Redis.VOTE_DATA r)).

Definition getGameState : M (option GameState.t) :=
  r <- get_redis ;; ret (Redis.GAME_STATE r).

Definition setStoryData (story : Story.t) : M unit :=
  r <- get_redis ;;
  put_redis (Redis.mk (Redis.GAME_STATE r) (Some story) (Redis.CONFIG r)
               (Redis.VOTE_DATA r)).

Definition getStoryData : M (option Story.t) :=
  r <- get_redis ;; ret (Redis.STORY_DATA r).

Definition setConfiguration (config : AppConfig.t) : M unit :=
  r <- get_redis ;;
  put_redis (Redis.mk (Redis.GAME_STATE r) (Redis.STORY_DATA r) (Some config)
               (Redis.VOTE_DATA r)).

Definition getConfiguration : M (option AppConfig.t) :=
  r <- get_redis ;; ret (Redis.CONFIG r).

Definition setVoteData (roundNumber : Z) (voteData : VoteData.t) : M unit :=
  r <- get_redis ;;
  put_redis (Redis.mk (Redis.GAME_STATE r) (Redis.STORY_DATA r) (Redis.CONFIG r)
               (<[roundNumber := voteData]> (Redis.VOTE_DATA r))).

Definition getVoteData (roundNumber : Z) : M (option VoteData.t) :=
  r <- get_redis ;; ret (Redis.VOTE_DATA r !! roundNumber).

(** [for (let round = 1; round <= roundNumber; round++) del(VOTE_DATA(round))] *)
Definition delVoteRounds (roundNumber : Z) (votes : gmap Z VoteData.t)
  : gmap Z VoteData.t :=
  foldr (fun round m => delete round m) votes (seqZ 1 roundNumber).

Definition clearGameData : M unit :=
  gameState <- getGameState ;;
  r <- get_redis ;;
  put_redis (Redis.mk None (Redis.STORY_DATA r) (Redis.CONFIG r) (Redis.VOTE_DATA r)) ;;
  match gameState with
  | Some g =>
      r <- get_redis ;;
      put_redis (Redis.mk (Redis.GAME_STATE r) (Redis.STORY_DATA r) (Redis.CONFIG r)
                   (delVoteRounds (GameState.roundNumber g) (Redis.VOTE_DATA r)))
  | None => ret tt
  end.

(** [getStoryPath]: a copy of the path, or [[]] without a game state. *)
Definition getStoryPath : M (list string) :=
  gameState <- getGameState ;;
  match gameState with
  | None => ret []
  | Some g => ret (GameState.storyPath g)
  end.

Definition initializeNewGame (startNodeId subredditName : string)
    (roundDurationHours : Z) (testMode : bool) : M unit :=
  clearGameData ;;
  t <- date_now ;;
  let gameState :=
    GameState.mk startNodeId 1 [startNodeId] true t roundDurationHours (Some testMode) in
  let config := AppConfig.mk roundDurationHours true subredditName in
  setGameState gameState ;;
  setConfiguration config.

Definition completeGame : M unit :=
  gameState <- getGameState ;;
  match gameState with
  | None => ret tt
  | Some g =>
      setGameState
        (GameState.mk (GameState.currentNodeId g) (GameState.roundNumber g)
           (GameState.storyPath g) false (GameState.roundStartTime g)
           (GameState.roundDurationHours g) (GameState.testMode g)) ;;
      config <- getConfiguration ;;
      match config with
      | Some c =>
          setConfiguration
            (AppConfig.mk (AppConfig.roundDurationHours c) false
               (AppConfig.subredditName c))
      | None => ret tt
      end
  end.

(** [saveCurrentProgress]: the node and the round number are written
    into the stored game state; the path is not touched. *)
Definition saveCurrentProgress (nodeId : string) (roundNumber : Z) : M unit :=
  try_catch
    (gameState <- getGameState ;;
     match gameState with
     | None => throw "No game state found - cannot save progress"
     | Some g =>
         setGameState
           (GameState.mk nodeId roundNumber (GameState.storyPath g)
              (GameState.isActive g) (GameState.roundStartTime g)
              (GameState.roundDurationHours g) (GameState.testMode g))
     end)
    (fun message => throw ("Progress save failed: " +:+ message)).

(** [loadCurrentProgress]: [null] without an active game. *)
Definition loadCurrentProgress : M (option (string * Z)) :=
  gameState <- getGameState ;;
  match gameState with
  | Some g =>
      if negb (GameState.isActive g) then ret None
      else ret (Some (GameState.currentNodeId g, GameState.roundNumber g))
  | None => ret None
  end.

(** [addToStoryPath]: the node is pushed, and the state written, only
    when the path is empty or ends in another node. *)
Definition addToStoryPath (nodeId : string) : M unit :=
  try_catch
    (gameState <- getGameState ;;
     match gameState with
     | None => throw "No game state found - cannot update story path"
     | Some g =>
         let push :=
           setGameState
             (GameState.mk (GameState.currentNodeId g) (GameState.roundNumber g)
                (GameState.storyPath g ++ [nodeId])
                (GameState.isActive g) (GameState.roundStartTime g)
                (GameState.roundDurationHours g) (GameState.testMode g)) in
         match last (GameState.storyPath g) with
         | None => push
         | Some l => if negb (String.eqb l nodeId) then push else ret tt
         end
     end)
    (fun message => throw ("Story path update failed: " +:+ message)).

Definition updateRoundDuration (durationHours : Z) : M unit :=
  try_catch
    (if durationHours <=? 0 then throw "Round duration must be positive"
     else
       config <- getConfiguration ;;
       setConfiguration
         match config with
         | None => AppConfig.mk durationHours false "unknown"
         | Some c =>
             AppConfig.mk durationHours (AppConfig.isGameActive c)
               (AppConfig.subredditName c)
         end ;;
       gameState <- getGameState ;;
       match gameState with
       | Some g =>
           if GameState.isActive g
           then
             setGameState
               (GameState.mk (GameState.currentNodeId g) (GameState.roundNumber g)
                  (GameState.storyPath g) (GameState.isActive g)
                  (GameState.roundStartTime g) durationHours (GameState.testMode g))
           else ret tt
       | None => ret tt
       end)
    (fun message => throw ("Round duration update failed: " +:+ message)).

(** [config?.roundDurationHours ?? 24] *)
Definition getRoundDuration : M Z :=
  config <- getConfiguration ;;
  match config with
  | Some c => ret (AppConfig.roundDurationHours c)
  | None => ret 24
  end.

End RedisManager.

(* ================================================================== *)
(** * utils/storyEngine.ts *)
(* ================================================================== *)

(** An entry of [getStoryPathWithDetails]. *)
Module PathDetail.
Record t : Type := mk
  { nodeId : string;
    title : string;
    choiceMade : option string }.
End PathDetail.

Module StoryEngine.

(** The preamble shared by the methods that need the story:
    [if (!this.currentStory) this.currentStory = await getStoryData()]. *)
Definition loadCurrentStory (e : EngineRef) : M (option Story.t) :=
  cached <- get_currentStory e ;;
  match cached with
  | Some story => ret (Some story)
  | None =>
      story <- RedisManager.getStoryData ;;
      set_currentStory e story ;;
      ret story
  end.

Definition getCurrentNode (e : EngineRef) : M (option StoryNode.t) :=
  try_catch
    (story <- loadCurrentStory e ;;
     match story with
     | None => ret None
     | Some story =>
         gameState <- RedisManager.getGameState ;;
         match gameState with
         | None => ret None
         | Some g =>
             if negb (GameState.isActive g) then ret None
             else
               match Story.node story (GameState.currentNodeId g) with
               | None =>
                   throw ("Current node " +:+ GameState.currentNodeId g
                          +:+ " not found in story")
               | Some currentNode => ret (Some currentNode)
               end
         end
     end)
    (fun message => throw ("Current node retrieval failed: " +:+ message)).

(** The guarded [storyPath.push(nodeId)]: nothing is appended when the
    path already ends in [nodeId]. *)
Definition pushUnlessLast (storyPath : list string) (nodeId : string) : list string :=
  match last storyPath with
  | Some l => if String.eqb l nodeId then storyPath else storyPath ++ [nodeId]
  | None => storyPath ++ [nodeId]
  end.

Definition navigateToNode (e : EngineRef) (nodeId : string) : M unit :=
  try_catch
    (story <- loadCurrentStory e ;;
     match story with
     | None => throw "No story data found - cannot navigate"
     | Some story =>
         match Story.node story nodeId with
         | None => throw ("Target node " +:+ nodeId +:+ " not found in story")
         | Some _ =>
             gameState <- RedisManager.getGameState ;;
             match gameState with
             | None => throw "No game state found - cannot navigate"
             | Some g =>
                 RedisManager.setGameState
                   (GameState.mk nodeId (GameState.roundNumber g)
                      (pushUnlessLast (GameState.storyPath g) nodeId)
                      (GameState.isActive g) (GameState.roundStartTime g)
                      (GameState.roundDurationHours g) (GameState.testMode g))
             end
         end
     end)
    (fun message => throw ("Navigation failed: " +:+ message)).

Definition getNodeById (e : EngineRef) (nodeId : string) : M (option StoryNode.t) :=
  story <- loadCurrentStory e ;;
  match story with
  | None => ret None
  | Some story => ret (Story.node story nodeId)
  end.

(** [getStoryMetadata]: title, description and start node. *)
Definition getStoryMetadata (e : EngineRef) : M (option (string * string * string)) :=
  story <- loadCurrentStory e ;;
  match story with
  | None => ret None
  | Some story =>
      ret (Some (Story.title story, Story.description story, Story.startNodeId story))
  end.

Definition getGameState : M (option GameState.t) := RedisManager.getGameState.

Definition initializeGame (e : EngineRef) (subredditName : string)
    (roundDurationHours : Z) (testMode : bool) : M unit :=
  try_catch
    (story <- loadCurrentStory e ;;
     match story with
     | None => throw "No story data found - cannot initialize game"
     | Some story =>
         if roundDurationHours <=? 0 then throw "Round duration must be positive"
         else
           RedisManager.initializeNewGame (Story.startNodeId story) subredditName
             roundDurationHours testMode
     end)
    (fun message => throw ("Game initialization failed: " +:+ message)).

(** [resetGame] calls [initializeNewGame] with three arguments: the
    fourth, [testMode], takes its default [false]. *)
Definition resetGame (e : EngineRef) : M unit :=
  try_catch
    (story <- loadCurrentStory e ;;
     match story with
     | None => throw "No story data found - cannot reset game"
     | Some story =>
         config <- RedisManager.getConfiguration ;;
         match config with
         | None => throw "No configuration found - cannot reset game"
         | Some config =>
             RedisManager.clearGameData ;;
             RedisManager.initializeNewGame (Story.startNodeId story)
               (AppConfig.subredditName config)
               (AppConfig.roundDurationHours config) false
         end
     end)
    (fun message => throw ("Game reset failed: " +:+ message)).

Definition advanceStoryByChoice (e : EngineRef) (choiceId : string) : M unit :=
  try_catch
    (currentNode <- getCurrentNode e ;;
     match currentNode with
     | None => throw "No current node found - cannot advance story"
     | Some currentNode =>
         match StoryNode.choices currentNode with
         | None | Some [] =>
             throw ("Current node " +:+ StoryNode.id currentNode
                    +:+ " has no choices available")
         | Some choices =>
             match List.find (fun choice => String.eqb (Choice.id choice) choiceId)
                     choices with
             | None =>
                 throw ("Choice " +:+ choiceId +:+ " not found in current node "
                        +:+ StoryNode.id currentNode)
             | Some selectedChoice =>
                 gameState <- RedisManager.getGameState ;;
                 match gameState with
                 | None => throw "No game state found - cannot advance story"
                 | Some g =>
                     t <- date_now ;;
                     RedisManager.setGameState
                       (GameState.mk (Choice.nextNodeId selectedChoice)
                          (GameState.roundNumber g + 1)
                          (pushUnlessLast (GameState.storyPath g)
                             (Choice.nextNodeId selectedChoice))
                          (GameState.isActive g) t
                          (GameState.roundDurationHours g) (GameState.testMode g))
                 end
             end
         end
     end)
    (fun message => throw ("Story advancement failed: " +:+ message)).

Definition getStoryPath : M (list string) := RedisManager.getStoryPath.

Definition completeGame : M unit := RedisManager.completeGame.

(** [roundDurationMs] of [getTimeRemainingInRound]: minutes in test mode,
    hours otherwise. *)
Definition roundDurationMs (g : GameState.t) : Z :=
  match GameState.testMode g with
  | Some true => GameState.roundDurationHours g * 60 * 1000
  | _ => GameState.roundDurationHours g * 60 * 60 * 1000
  end.

Definition getTimeRemainingInRound : M Z :=
  gameState <- getGameState ;;
  match gameState with
  | None => ret 0
  | Some g =>
      if negb (GameState.isActive g) then ret 0
      else
        t <- date_now ;;
        let elapsedMs := t - GameState.roundStartTime g in
        ret (Z.max 0 (roundDurationMs g - elapsedMs))
  end.

Definition isRoundExpired : M bool :=
  timeRemaining <- getTimeRemainingInRound ;;
  ret (timeRemaining <=? 0).

(** ** Validation at load time

    [loadStory] parses the JSON text and runs [validateStoryStructure] on
    the parsed value, then [validateStoryReferences] on it as a [Story].
    Both throw at the first defect they meet. *)

Definition validateChoice (choice : JS.JSON) (nodeId : string) (choiceIndex : nat)
  : result unit :=
  let here := "Node " +:+ nodeId +:+ " choice " +:+ pretty (Z.of_nat choiceIndex) in
  if negb (JS.truthy (Some choice))
     || negb (String.eqb (JS.typeof (Some choice)) "object")
  then Throw (here +:+ " must be a valid object")
  else if JS.not_valid_string (JS.get choice "id")
  then Throw (here +:+ " must have a valid id string")
  else if JS.not_valid_string (JS.get choice "text")
  then Throw (here +:+ " must have a valid text string")
  else if JS.not_valid_string (JS.get choice "nextNodeId")
  then Throw (here +:+ " must have a valid nextNodeId string")
  else Ok tt.

(** [for (let i = 0; i < node.choices.length; i++) validateChoice(...)] *)
Fixpoint validateChoices (choices : list JS.JSON) (nodeId : string) (i : nat)
  : result unit :=
  match choices with
  | [] => Ok tt
  | choice :: rest =>
      match validateChoice choice nodeId i with
      | Throw message => Throw message
      | Ok _ => validateChoices rest nodeId (S i)
      end
  end.

(** The two closing checks of [validateStoryNode], on a node whose
    [choices] is an array or absent. *)
Definition validateEndFlag (node : JS.JSON) (nodeId : string) : result unit :=
  let isEnd := JS.strict_eq_bool (JS.get node "isEnd") true in
  let hasChoices :=
    match JS.get node "choices" with
    | Some (JS.JArr (_ :: _)) => true
    | _ => false
    end in
  if isEnd && hasChoices
  then Throw ("Node " +:+ nodeId +:+ " is marked as end but has choices")
  else if negb isEnd && negb hasChoices
  then Throw ("Node " +:+ nodeId +:+ " is not marked as end but has no choices")
  else Ok tt.

Definition validateStoryNode (node : JS.value) (nodeId : string) : result unit :=
  match node with
  | Some ((JS.JObj _ | JS.JArr _) as n) =>
      if negb (JS.strict_eq_string (JS.get n "id") nodeId)
      then Throw ("Node " +:+ nodeId +:+ " has mismatched ID: "
                  +:+ JS.value_to_string (JS.get n "id"))
      else if JS.not_valid_string (JS.get n "title")
      then Throw ("Node " +:+ nodeId +:+ " must have a valid title string")
      else if JS.not_valid_string (JS.get n "content")
      then Throw ("Node " +:+ nodeId +:+ " must have a valid content string")
      else if match JS.get n "imageUrl" with
              | None | Some (JS.JStr _) => false
              | Some _ => true
              end
      then Throw ("Node " +:+ nodeId +:+ " imageUrl must be a string if provided")
      else if match JS.get n "isEnd" with
              | None | Some (JS.JBool _) => false
              | Some _ => true
              end
      then Throw ("Node " +:+ nodeId +:+ " isEnd must be a boolean if provided")
      else
        match JS.get n "choices" with
        | None => validateEndFlag n nodeId
        | Some (JS.JArr choices) =>
            match validateChoices choices nodeId 0 with
            | Throw message => Throw message
            | Ok _ => validateEndFlag n nodeId
            end
        | Some _ =>
            Throw ("Node " +:+ nodeId +:+ " choices must be an array if provided")
        end
  | _ => Throw ("Node " +:+ nodeId +:+ " must be a valid object")
  end.

(** [for (const nodeId of nodeIds) validateStoryNode(story.nodes[nodeId], nodeId)] *)
Fixpoint validateNodes (nodes : JS.JSON) (nodeIds : list string) : result unit :=
  match nodeIds with
  | [] => Ok tt
  | nodeId :: rest =>
      match validateStoryNode (JS.get nodes nodeId) nodeId with
      | Throw message => Throw message
      | Ok _ => validateNodes nodes rest
      end
  end.

Definition validateStoryStructure (story : JS.JSON) : result unit :=
  match story with
  | JS.JObj _ | JS.JArr _ =>
      if JS.not_valid_string (JS.get story "title")
      then Throw "Story must have a valid title string"
      else if JS.not_valid_string (JS.get story "description")
      then Throw "Story must have a valid description string"
      else if JS.not_valid_string (JS.get story "startNodeId")
      then Throw "Story must have a valid startNodeId string"
      else
        match JS.get story "nodes" with
        | Some ((JS.JObj _ | JS.JArr _) as nodes) =>
            let nodeIds := map fst (JS.entries (Some nodes)) in
            match nodeIds with
            | [] => Throw "Story must contain at least one node"
            | _ => validateNodes nodes nodeIds
            end
        | _ => Throw "Story must have a nodes object"
        end
  | _ => Throw "Story must be a valid object"
  end.

(** The parsed value seen through the [Story] interface
    ([parsedStory as Story]). *)
Definition choice_of_json (c : JS.JSON) : option Choice.t :=
  match JS.get c "id", JS.get c "text", JS.get c "nextNodeId" with
  | Some (JS.JStr i), Some (JS.JStr t), Some (JS.JStr n) => Some (Choice.mk i t n)
  | _, _, _ => None
  end.

Definition node_of_json (n : JS.JSON) : option StoryNode.t :=
  match JS.get n "id", JS.get n "title", JS.get n "content" with
  | Some (JS.JStr i), Some (JS.JStr t), Some (JS.JStr c) =>
      match JS.get n "imageUrl", JS.get n "isEnd" with
      | (None | Some (JS.JStr _)) as img, (None | Some (JS.JBool _)) as fin =>
          let imageUrl := match img with Some (JS.JStr u) => Some u | _ => None end in
          let isEnd := match fin with Some (JS.JBool b) => Some b | _ => None end in
          match JS.get n "choices" with
          | None => Some (StoryNode.mk i t c imageUrl None isEnd)
          | Some (JS.JArr cs) =>
              match mapM choice_of_json cs with
              | Some choices => Some (StoryNode.mk i t c imageUrl (Some choices) isEnd)
              | None => None
              end
          | Some _ => None
          end
      | _, _ => None
      end
  | _, _, _ => None
  end.

Definition story_of_json (j : JS.JSON) : option Story.t :=
  match JS.get j "title", JS.get j "description", JS.get j "startNodeId" with
  | Some (JS.JStr t), Some (JS.JStr d), Some (JS.JStr s) =>
      match mapM (fun kv => match node_of_json (snd kv) with
                            | Some n => Some (fst kv, n)
                            | None => None
                            end) (JS.entries (JS.get j "nodes")) with
      | Some nodes => Some (Story.mk t d s nodes)
      | None => None
      end
  | _, _, _ => None
  end.

(** The choice edges out of a node id: [story.nodes[id].choices]. *)
Definition targets (story : Story.t) (nodeId : string) : option (list string) :=
  match Story.node story nodeId with
  | None => None
  | Some node =>
      Some (match StoryNode.choices node with
            | None => []
            | Some choices => map Choice.nextNodeId choices
            end)
  end.

(** The first choice of [choices] that points outside the story. *)
Definition danglingChoice (story : Story.t) (choices : list Choice.t) : option Choice.t :=
  List.find (fun choice =>
               match Story.node story (Choice.nextNodeId choice) with
               | None => true
               | Some _ => false
               end) choices.

(** The referential-integrity loop of [validateStoryReferences]. *)
Fixpoint checkReferences (story : Story.t) (nodeIds : list string) : result unit :=
  match nodeIds with
  | [] => Ok tt
  | nodeId :: rest =>
      match Story.node story nodeId with
      | None => Throw "TypeError: Cannot read properties of undefined (reading 'choices')"
      | Some node =>
          match danglingChoice story (default [] (StoryNode.choices node)) with
          | Some choice =>
              Throw ("Node " +:+ nodeId +:+ " choice " +:+ JS.quoted (Choice.id choice)
                     +:+ " references non-existent node "
                     +:+ Choice.nextNodeId choice)
          | None => checkReferences story rest
          end
      end
  end.

(** The traversal of [validateStoryReferences].  [nodesToVisit] is the
    array used as a stack, its top first; [reachableNodes] is the [Set].
    A step pops one id; an id not seen before is added and the targets of
    its choices that are not yet in the set are pushed in choice order.
    [fuel] bounds the number of iterations; [None] means it ran out. *)
Fixpoint traverse (story : Story.t) (fuel : nat) (nodesToVisit : list string)
    (reachableNodes : gset string) : option (result (gset string)) :=
  match fuel with
  | O => None
  | S fuel =>
      match nodesToVisit with
      | [] => Some (Ok reachableNodes)
      | currentNodeId :: rest =>
          if decide (currentNodeId ∈ reachableNodes)
          then traverse story fuel rest reachableNodes
          else
            let reachableNodes := {[currentNodeId]} ∪ reachableNodes in
            match targets story currentNodeId with
            | None =>
                Some (Throw
                  "TypeError: Cannot read properties of undefined (reading 'choices')")
            | Some ts =>
                traverse story fuel
                  (rev (List.filter (fun t => bool_decide (t ∉ reachableNodes)) ts)
                     ++ rest)
                  reachableNodes
            end
      end
  end.

(** Every iteration either discards a popped id or visits a new node, and
    an id is pushed once per choice of a visited node: one more than the
    number of choices in the story is enough. *)
Definition choiceCount (story : Story.t) : nat :=
  list_sum (map (fun kv => length (default [] (StoryNode.choices (snd kv))))
              (Story.nodes story)).

Definition reachableNodes (story : Story.t) : option (result (gset string)) :=
  traverse story (S (S (choiceCount story))) [Story.startNodeId story] ∅.

(** The checks of [validateStoryReferences] up to its [console.warn]: the
    warnings it prints, or what it throws before it gets there. *)
Definition referenceWarnings (story : Story.t) : option (result (list string)) :=
  let nodeIds := Story.nodeIds story in
  match Story.node story (Story.startNodeId story) with
  | None =>
      Some (Throw ("Start node " +:+ Story.startNodeId story
                   +:+ " not found in story nodes"))
  | Some _ =>
      match checkReferences story nodeIds with
      | Throw message => Some (Throw message)
      | Ok _ =>
          match reachableNodes story with
          | None => None
          | Some (Throw message) => Some (Throw message)
          | Some (Ok reachable) =>
              let unreachableNodes :=
                List.filter (fun id => bool_decide (id ∉ reachable)) nodeIds in
              Some (Ok match unreachableNodes with
                       | [] => []
                       | _ =>
                           ["Warning: Found "
                            +:+ pretty (Z.of_nat (length unreachableNodes))
                            +:+ " unreachable nodes: " +:+ JS.join ", " unreachableNodes]
                       end)
          end
      end
  end.

(** [nodeIds.filter(id => story.nodes[id].isEnd === true)] *)
Definition endNodes (story : Story.t) : list string :=
  List.filter (fun id =>
                 match Story.node story id with
                 | Some node =>
                     match StoryNode.isEnd node with
                     | Some true => true
                     | _ => false
                     end
                 | None => false
                 end) (Story.nodeIds story).

(** What [validateStoryReferences] comes to: the warnings it prints with
    [console.warn] when it returns, or what it throws. *)
Definition validateStoryReferences (story : Story.t) : option (result (list string)) :=
  match referenceWarnings story with
  | None => None
  | Some (Throw message) => Some (Throw message)
  | Some (Ok warnings) =>
      match endNodes story with
      | [] => Some (Throw "Story must contain at least one end node (isEnd: true)")
      | _ => Some (Ok warnings)
      end
  end.

(** [validateStoryReferences] as it runs: the warning is on the console
    before the check for an end node, and stays there when that check
    throws. *)
Definition runStoryReferences (story : Story.t) : M unit :=
  match referenceWarnings story with
  | None => throw "RangeError: the traversal did not finish"
  | Some (Throw message) => throw message
  | Some (Ok warnings) =>
      foldr (fun w k => emit (Warn w) ;; k) (ret tt) warnings ;;
      match endNodes story with
      | [] => throw "Story must contain at least one end node (isEnd: true)"
      | _ => ret tt
      end
  end.

(** [loadStory] on the value [JSON.parse] returned for the text. *)
Definition loadStory (e : EngineRef) (parsedStory : JS.JSON) : M unit :=
  try_catch
    (of_result (validateStoryStructure parsedStory) ;;
     match story_of_json parsedStory with
     | None => throw "TypeError: the parsed value does not have the shape of a Story"
     | Some story =>
         runStoryReferences story ;;
         RedisManager.setStoryData story ;;
         set_currentStory e (Some story)
     end)
    (fun message => throw ("Story loading failed: " +:+ message)).

(** ** Queries on the running game *)

Definition getAvailableChoices (e : EngineRef) : M (list Choice.t) :=
  try_catch
    (currentNode <- getCurrentNode e ;;
     match currentNode with
     | None => ret []
     | Some currentNode => ret (default [] (StoryNode.choices currentNode))
     end)
    (fun message => throw ("Choice retrieval failed: " +:+ message)).

(** [isCurrentNodeEnd]: [false] also when [getCurrentNode] throws. *)
Definition isCurrentNodeEnd (e : EngineRef) : M bool :=
  try_catch
    (currentNode <- getCurrentNode e ;;
     match currentNode with
     | None => ret false
     | Some currentNode =>
         ret match StoryNode.isEnd currentNode with
             | Some true => true
             | _ => false
             end
     end)
    (fun _ => ret false).

(** The loop of [getStoryPathWithDetails] from index [i] on: a node that
    the story does not have is skipped; [choiceMade] is the text of the
    first choice of the node that leads to the next entry of the path. *)
Fixpoint pathDetails (story : Story.t) (storyPath : list string) : list PathDetail.t :=
  match storyPath with
  | [] => []
  | nodeId :: rest =>
      match Story.node story nodeId with
      | None => pathDetails story rest
      | Some node =>
          let choiceMade :=
            match rest with
            | nextNodeId :: _ =>
                match List.find (fun choice =>
                                   String.eqb (Choice.nextNodeId choice) nextNodeId)
                        (default [] (StoryNode.choices node)) with
                | Some choice => Some (Choice.text choice)
                | None => None
                end
            | [] => None
            end in
          PathDetail.mk nodeId (StoryNode.title node) choiceMade
          :: pathDetails story rest
      end
  end.

Definition getStoryPathWithDetails (e : EngineRef) : M (list PathDetail.t) :=
  try_catch
    (story <- loadCurrentStory e ;;
     match story with
     | None => throw "No story data found"
     | Some story =>
         storyPath <- getStoryPath ;;
         ret (pathDetails story storyPath)
     end)
    (fun message => throw ("Story path details retrieval failed: " +:+ message)).

(** [isEnd && gameState?.isActive === true] *)
Definition isGameComplete (e : EngineRef) : M bool :=
  isEnd <- isCurrentNodeEnd e ;;
  gameState <- getGameState ;;
  ret (isEnd && match gameState with
                | Some g => GameState.isActive g
                | None => false
                end).

(** [gameState?.roundNumber || 0] *)
Definition getCurrentRound : M Z :=
  gameState <- getGameState ;;
  match gameState with
  | Some g => ret (GameState.roundNumber g)
  | None => ret 0
  end.

Definition isGameActive : M bool :=
  gameState <- getGameState ;;
  match gameState with
  | Some g => ret (GameState.isActive g)
  | None => ret false
  end.

End StoryEngine.

(** [try { m } catch (error) { ... }] with the outcome handed on as data. *)
Definition attempt_of {A : Type} (m : M A) : M (result A) :=
  fun w => match m w with (w', r) => (w', Ok r) end.

(* ================================================================== *)
(** * handlers/voteCounter.ts *)
(* ================================================================== *)

Module VoteCounterConfig.
Record t : Type := mk
  { minimumVotes : option Z;
    randomTieBreaking : option bool;
    maxRetries : option Z }.

Definition none : t := mk None None None.
End VoteCounterConfig.

(** What [resolveWinningChoice] returns. *)
Module ChoiceResolution.
Record t : Type := mk
  { choiceId : string;
    nextNodeId : string;
    choiceText : string;
    voteCount : Z;
    isValid : bool }.
End ChoiceResolution.

(** An entry of [getChoicesWithVotes]. *)
Module ChoiceWithVotes.
Record t : Type := mk
  { choiceId : string;
    choiceText : string;
    nextNodeId : string;
    voteCount : Z;
    commentId : string }.
End ChoiceWithVotes.

Module VoteCounter.

(** [this.config], a [Required<VoteCounterConfig>]. *)
Record config : Type := mkConfig
  { minimumVotes : Z;
    randomTieBreaking : bool;
    maxRetries : Z }.

(** The constructor's defaults: [?? 0], [?? true], [?? 3]. *)
Definition constructor (c : VoteCounterConfig.t) : config :=
  mkConfig (default 0 (VoteCounterConfig.minimumVotes c))
           (default true (VoteCounterConfig.randomTieBreaking c))
           (default 3 (VoteCounterConfig.maxRetries c)).

(** [Math.pow(2, attempt - 1) * 1000] *)
Definition backoffDelay (attempt : Z) : Z := 2 ^ (attempt - 1) * 1000.

(** The loop of [getCommentUpvotes]: [remaining] iterations are left, the
    next one is number [attempt]. *)
Fixpoint fetchLoop (cfg : config) (commentId : string) (remaining : nat)
    (attempt : Z) (lastError : option string) : M Z :=
  match remaining with
  | O => throw ("Failed to get comment upvotes: " +:+ JS.or_else lastError "Unknown error")
  | S remaining =>
      r <- external (fun env i => reddit_getCommentById env i commentId) ;;
      match r with
      | FetchComment score => ret (default 0 score)
      | (FetchNothing | FetchThrows _) as failure =>
          let message :=
            match failure with
            | FetchThrows m => m
            | _ => "Comment " +:+ commentId +:+ " not found"
            end in
          (if attempt <? maxRetries cfg
           then sleep VoteBackoff (backoffDelay attempt)
           else ret tt) ;;
          fetchLoop cfg commentId remaining (attempt + 1) (Some message)
      end
  end.

Definition getCommentUpvotes (cfg : config) (commentId : string) : M Z :=
  fetchLoop cfg commentId (Z.to_nat (maxRetries cfg)) 1 None.

(** The loop of [countVotes] over [Object.entries(voteData.choices)]. *)
Fixpoint countLoop (cfg : config) (entries : list (string * string))
  : M (list VoteResult.t) :=
  match entries with
  | [] => ret []
  | (choiceId, commentId) :: rest =>
      r <- try_catch
             (upvotes <- getCommentUpvotes cfg commentId ;;
              ret (VoteResult.mk choiceId commentId upvotes))
             (fun _ => ret (VoteResult.mk choiceId commentId 0)) ;;
      results <- countLoop cfg rest ;;
      ret (r :: results)
  end.

(** [results.sort((a, b) => b.upvotes - a.upvotes)]: descending and, as
    [Array.prototype.sort] is, stable. *)
Fixpoint insertByUpvotes (x : VoteResult.t) (sorted : list VoteResult.t)
  : list VoteResult.t :=
  match sorted with
  | [] => [x]
  | y :: rest =>
      if VoteResult.upvotes x <? VoteResult.upvotes y
      then y :: insertByUpvotes x rest
      else x :: y :: rest
  end.

Definition sortByUpvotes (results : list VoteResult.t) : list VoteResult.t :=
  foldr insertByUpvotes [] results.

Definition countVotes (cfg : config) (roundNumber : Z) : M (list VoteResult.t) :=
  try_catch
    (voteData <- RedisManager.getVoteData roundNumber ;;
     match voteData with
     | None => ret []
     | Some voteData =>
         results <- countLoop cfg (VoteData.choices voteData) ;;
         ret (sortByUpvotes results)
     end)
    (fun message => throw ("Vote counting failed: " +:+ message)).

(** [tiedChoices[i].choiceId]; reading [choiceId] of [undefined] throws. *)
Definition choiceIdAt (tiedChoices : list VoteResult.t) (i : Z) : M string :=
  match (if i <? 0 then None else tiedChoices !! Z.to_nat i) with
  | Some winner => ret (VoteResult.choiceId winner)
  | None => throw "Cannot read properties of undefined (reading 'choiceId')"
  end.

Definition resolveTie (cfg : config) (tiedChoices : list VoteResult.t) : M string :=
  if randomTieBreaking cfg
  then
    r <- external math_random ;;
    let randomIndex := Qfloor (r * inject_Z (Z.of_nat (length tiedChoices))) in
    choiceIdAt tiedChoices randomIndex
  else choiceIdAt tiedChoices 0.

(** The part of [getWinningChoice] that follows [countVotes]. *)
Definition pickWinner (cfg : config) (voteResults : list VoteResult.t)
  : M (option string) :=
  match voteResults with
  | [] => ret None
  | _ =>
      let validResults :=
        List.filter (fun r => minimumVotes cfg <=? VoteResult.upvotes r) voteResults in
      match validResults with
      | [] => ret None
      | first :: _ =>
          let highestVoteCount := VoteResult.upvotes first in
          let topChoices :=
            List.filter (fun r => VoteResult.upvotes r =? highestVoteCount)
              validResults in
          winningChoice <-
            match topChoices with
            | [only] => ret (VoteResult.choiceId only)
            | _ => resolveTie cfg topChoices
            end ;;
          ret (Some winningChoice)
      end
  end.

Definition getWinningChoice (cfg : config) (roundNumber : Z) : M (option string) :=
  try_catch
    (voteResults <- countVotes cfg roundNumber ;;
     pickWinner cfg voteResults)
    (fun message => throw ("Winning choice determination failed: " +:+ message)).

Definition trackChoiceComment (choiceId commentId : string) (roundNumber : Z) : M unit :=
  try_catch
    (existing <- RedisManager.getVoteData roundNumber ;;
     voteData <-
       match existing with
       | Some voteData => ret voteData
       | None =>
           gameState <- RedisManager.getGameState ;;
           match gameState with
           | None => throw "No active game state found"
           | Some g =>
               ret (VoteData.mk []
                      (GameState.roundStartTime g
                       + GameState.roundDurationHours g * 60 * 60 * 1000))
           end
       end ;;
     RedisManager.setVoteData roundNumber
       (VoteData.mk (JS.record_set choiceId commentId (VoteData.choices voteData))
          (VoteData.roundEndTime voteData)))
    (fun message => throw ("Choice tracking failed: " +:+ message)).

(** ** Queries and choice execution *)

(** [getVoteResults]: the tally, or [[]] when counting throws. *)
Definition getVoteResults (cfg : config) (roundNumber : Z) : M (list VoteResult.t) :=
  try_catch (countVotes cfg roundNumber) (fun _ => ret []).

(** [voteData !== null && Object.keys(voteData.choices).length > 0] *)
Definition hasTrackedChoices (roundNumber : Z) : M bool :=
  voteData <- RedisManager.getVoteData roundNumber ;;
  match voteData with
  | Some voteData => ret (0 <? Z.of_nat (length (VoteData.choices voteData)))
  | None => ret false
  end.

Definition getTrackedChoiceCount (roundNumber : Z) : M Z :=
  voteData <- RedisManager.getVoteData roundNumber ;;
  match voteData with
  | Some voteData => ret (Z.of_nat (length (VoteData.choices voteData)))
  | None => ret 0
  end.

(** [clearRoundVoteData] does not delete the key: it stores an empty
    record. *)
Definition clearRoundVoteData (roundNumber : Z) : M unit :=
  RedisManager.setVoteData roundNumber (VoteData.mk [] 0).

Definition getRoundExpiration (roundNumber : Z) : M (option Z) :=
  voteData <- RedisManager.getVoteData roundNumber ;;
  match voteData with
  | Some voteData => ret (Some (VoteData.roundEndTime voteData))
  | None => ret None
  end.

(** [isVotingExpired]: [!expiration] holds for [null] and for [0]. *)
Definition isVotingExpired (roundNumber : Z) : M bool :=
  expiration <- getRoundExpiration roundNumber ;;
  match expiration with
  | None => ret false
  | Some expiration =>
      if expiration =? 0 then ret false
      else
        t <- date_now ;;
        ret (expiration <=? t)
  end.

Definition resolveWinningChoice (cfg : config) (roundNumber : Z)
  : M (option ChoiceResolution.t) :=
  try_catch
    (winningChoiceId <- getWinningChoice cfg roundNumber ;;
     match winningChoiceId with
     | None | Some "" => ret None
     | Some winningChoiceId =>
         voteResults <- getVoteResults cfg roundNumber ;;
         match List.find (fun result =>
                            String.eqb (VoteResult.choiceId result) winningChoiceId)
                 voteResults with
         | None => ret None
         | Some winningResult =>
             currentNode <- StoryEngine.getCurrentNode OfVoteCounter ;;
             match currentNode with
             | None => ret None
             | Some currentNode =>
                 match List.find (fun c => String.eqb (Choice.id c) winningChoiceId)
                         (default [] (StoryNode.choices currentNode)) with
                 | None => ret None
                 | Some choice =>
                     nextNode <-
                       StoryEngine.getNodeById OfVoteCounter (Choice.nextNodeId choice) ;;
                     let isValid := match nextNode with
                                    | Some _ => true
                                    | None => false
                                    end in
                     ret (Some (ChoiceResolution.mk winningChoiceId
                                  (Choice.nextNodeId choice) (Choice.text choice)
                                  (VoteResult.upvotes winningResult) isValid))
                 end
             end
         end
     end)
    (fun _ => ret None).

Definition executeWinningChoice (cfg : config) (roundNumber : Z) : M bool :=
  try_catch
    (choiceResolution <- resolveWinningChoice cfg roundNumber ;;
     match choiceResolution with
     | None => ret false
     | Some choiceResolution =>
         if negb (ChoiceResolution.isValid choiceResolution) then ret false
         else
           try_catch
             (StoryEngine.advanceStoryByChoice OfVoteCounter
                (ChoiceResolution.choiceId choiceResolution) ;;
              ret true)
             (fun _ => ret false)
     end)
    (fun _ => ret false).

(** [choicesWithVotes.sort((a, b) => b.voteCount - a.voteCount)] *)
Fixpoint insertByVoteCount (x : ChoiceWithVotes.t) (sorted : list ChoiceWithVotes.t)
  : list ChoiceWithVotes.t :=
  match sorted with
  | [] => [x]
  | y :: rest =>
      if ChoiceWithVotes.voteCount x <? ChoiceWithVotes.voteCount y
      then y :: insertByVoteCount x rest
      else x :: y :: rest
  end.

Definition sortByVoteCount (choices : list ChoiceWithVotes.t) : list ChoiceWithVotes.t :=
  foldr insertByVoteCount [] choices.

(** The [map] callback of [getChoicesWithVotes]:
    [voteResult?.upvotes || 0] and [voteResult?.commentId || 'unknown']. *)
Definition withVotes (voteResults : list VoteResult.t) (choice : Choice.t)
  : ChoiceWithVotes.t :=
  let voteResult :=
    List.find (fun result => String.eqb (VoteResult.choiceId result) (Choice.id choice))
      voteResults in
  ChoiceWithVotes.mk (Choice.id choice) (Choice.text choice) (Choice.nextNodeId choice)
    match voteResult with
    | Some result => VoteResult.upvotes result
    | None => 0
    end
    (JS.or_else (VoteResult.commentId <$> voteResult) "unknown").

Definition getChoicesWithVotes (cfg : config) (roundNumber : Z)
  : M (list ChoiceWithVotes.t) :=
  try_catch
    (currentNode <- StoryEngine.getCurrentNode OfVoteCounter ;;
     match currentNode with
     | None => ret []
     | Some currentNode =>
         match StoryNode.choices currentNode with
         | None => ret []
         | Some choices =>
             voteResults <- getVoteResults cfg roundNumber ;;
             ret (sortByVoteCount (map (withVotes voteResults) choices))
         end
     end)
    (fun _ => ret []).

(** [validateChoice]: the choice is one of the current node and leads to
    a node of the story. *)
Definition validateChoice (choiceId : string) : M bool :=
  try_catch
    (currentNode <- StoryEngine.getCurrentNode OfVoteCounter ;;
     match currentNode with
     | None => ret false
     | Some currentNode =>
         match StoryNode.choices currentNode with
         | None => ret false
         | Some choices =>
             match List.find (fun c => String.eqb (Choice.id c) choiceId) choices with
             | None => ret false
             | Some choice =>
                 nextNode <-
                   StoryEngine.getNodeById OfVoteCounter (Choice.nextNodeId choice) ;;
                 ret match nextNode with
                     | Some _ => true
                     | None => false
                     end
             end
         end
     end)
    (fun _ => ret false).

End VoteCounter.

(* ================================================================== *)
(** * handlers/postManager.ts *)
(* ================================================================== *)

Module PostCreationResult.
Record t : Type := mk
  { success : bool;
    postId : option string;
    choiceCommentIds : option (list string);
    error : option string }.

Definition failure (message : string) : t := mk false None None (Some message).
End PostCreationResult.

(** The titles and bodies of posts and the image pipeline ([MediaHandler],
    which catches its own errors) decide how a post looks, not whether it
    is created; the embedding keeps the calls that create posts and
    comments and the writes to the store.  [MediaHandler] runs only for a
    node with an [imageUrl], and waits between its attempts when the
    upload fails: those waits are not in the embedding, so what is stated
    about the clock or the log of a post is stated for a node without an
    image. *)
Module PostManager.

Definition createRedditPost : M string :=
  try_catch
    (r <- external reddit_submitPost ;; of_result r)
    (fun message => throw ("Reddit post creation failed: " +:+ message)).

(** The loop of [createChoiceComments]: one comment per choice, six
    seconds apart. *)
Fixpoint commentLoop (choices : list Choice.t) : M (list string) :=
  match choices with
  | [] => ret []
  | _ :: rest =>
      r <- external reddit_submitComment ;;
      comment <- of_result r ;;
      (match rest with
       | [] => ret tt
       | _ => sleep CommentRateLimit 6000
       end) ;;
      commentIds <- commentLoop rest ;;
      ret (comment :: commentIds)
  end.

Definition createChoiceComments (choices : list Choice.t) : M (list string) :=
  try_catch (commentLoop choices)
    (fun message => throw ("Choice comment creation failed: " +:+ message)).

(** [choiceMapping[choices[i].id] = commentIds[i]] for every [i]. *)
Fixpoint choiceMapping (acc : list (string * string)) (choices : list Choice.t)
    (commentIds : list string) : list (string * string) :=
  match choices, commentIds with
  | choice :: choices, commentId :: commentIds =>
      choiceMapping (JS.record_set (Choice.id choice) commentId acc) choices commentIds
  | _, _ => acc
  end.

Definition storeChoiceCommentMapping (roundNumber : Z) (choices : list Choice.t)
    (commentIds : list string) : M unit :=
  try_catch
    (if negb (length choices =? length commentIds)%nat
     then throw "Mismatch between choices and comment IDs"
     else
       gameState <- StoryEngine.getGameState ;;
       match gameState with
       | None => throw "No game state found"
       | Some g =>
           let roundEndTime :=
             GameState.roundStartTime g
             + GameState.roundDurationHours g * 60 * 60 * 1000 in
           RedisManager.setVoteData roundNumber
             (VoteData.mk (choiceMapping [] choices commentIds) roundEndTime)
       end)
    (fun message => throw ("Choice mapping storage failed: " +:+ message)).

Definition createStoryRoundPost (subredditName : string) : M PostCreationResult.t :=
  try_catch
    (currentNode <- StoryEngine.getCurrentNode OfPostManager ;;
     match currentNode with
     | None => ret (PostCreationResult.failure "No current story node found")
     | Some currentNode =>
         gameState <- StoryEngine.getGameState ;;
         match gameState with
         | None => ret (PostCreationResult.failure "No active game state found")
         | Some g =>
             storyMetadata <- StoryEngine.getStoryMetadata OfPostManager ;;
             match storyMetadata with
             | None => ret (PostCreationResult.failure "No story metadata found")
             | Some _ =>
                 post <- createRedditPost ;;
                 choiceCommentIds <-
                   match StoryNode.isEnd currentNode, StoryNode.choices currentNode with
                   | Some true, _ => ret []
                   | _, (None | Some []) => ret []
                   | _, Some choices =>
                       ids <- createChoiceComments choices ;;
                       storeChoiceCommentMapping (GameState.roundNumber g) choices ids ;;
                       ret ids
                   end ;;
                 ret (PostCreationResult.mk true (Some post) (Some choiceCommentIds) None)
             end
         end
     end)
    (fun message =>
       ret (PostCreationResult.failure ("Post creation failed: " +:+ message))).

Definition createEndGameRecapPost (subredditName : string) : M PostCreationResult.t :=
  try_catch
    (storyMetadata <- StoryEngine.getStoryMetadata OfPostManager ;;
     match storyMetadata with
     | None =>
         ret (PostCreationResult.failure "No story metadata found - cannot create recap")
     | Some _ =>
         gameState <- StoryEngine.getGameState ;;
         match gameState with
         | None =>
             ret (PostCreationResult.failure "No game state found - cannot create recap")
         | Some _ =>
             currentNode <- StoryEngine.getCurrentNode OfPostManager ;;
             match currentNode with
             | Some (StoryNode.mk _ _ _ _ _ (Some true)) =>
                 post <- createRedditPost ;;
                 StoryEngine.completeGame ;;
                 ret (PostCreationResult.mk true (Some post) (Some []) None)
             | _ =>
                 ret (PostCreationResult.failure
                        "Current node is not an end node - cannot create recap")
             end
         end
     end)
    (fun message =>
       ret (PostCreationResult.failure ("Recap post creation failed: " +:+ message))).

End PostManager.

(* ================================================================== *)
(** * handlers/schedulerHandler.ts *)
(* ================================================================== *)

Module SchedulerConfig.
Record t : Type := mk
  { jobNamePrefix : option string;
    maxRetries : option Z;
    retryDelayMs : option Z }.

Definition none : t := mk None None None.
End SchedulerConfig.

Module SchedulerResult.
Record t : Type := mk
  { success : bool;
    jobId : option string;
    error : option string;
    details : option string }.

Definition failure (message : string) : t := mk false None (Some message) None.
End SchedulerResult.

(** [event.data] of the scheduled job; a manual trigger carries none of
    the three numbers. *)
Module JobEvent.
Record t : Type := mk
  { name : string;
    roundNumber : option Z;
    scheduledAt : option Z;
    durationHours : option Z }.
End JobEvent.

Module SchedulerHandler.

Record config : Type := mkConfig
  { jobNamePrefix : string;
    maxRetries : Z;
    retryDelayMs : Z }.

(** The constructor's defaults. *)
Definition constructor (c : SchedulerConfig.t) : config :=
  mkConfig (default "subquest_round_advance" (SchedulerConfig.jobNamePrefix c))
           (default 3 (SchedulerConfig.maxRetries c))
           (default 5000 (SchedulerConfig.retryDelayMs c)).

(** The handler builds its [VoteCounter] with [new VoteCounter(context)]. *)
Definition voteCounter : VoteCounter.config :=
  VoteCounter.constructor VoteCounterConfig.none.

(** A placeholder in the source: nothing is cancelled. *)
Definition cancelScheduledRound (cfg : config) (roundNumber : Z) : M SchedulerResult.t :=
  ret (SchedulerResult.mk true None None
         (Some ("Cancellation attempted for job: " +:+ jobNamePrefix cfg))).

Definition scheduleNextRound (cfg : config) (durationHours roundNumber : Z)
  : M SchedulerResult.t :=
  try_catch
    (if durationHours <=? 0
     then ret (SchedulerResult.failure "Duration must be positive")
     else if roundNumber <=? 0
     then ret (SchedulerResult.failure "Round number must be positive")
     else
       cancelScheduledRound cfg roundNumber ;;
       gameState <- RedisManager.getGameState ;;
       let actualDurationMs :=
         match gameState with
         | Some (GameState.mk _ _ _ _ _ _ (Some true)) => durationHours * 60 * 1000
         | _ => durationHours * 60 * 60 * 1000
         end in
       t <- date_now ;;
       let runAt := t + actualDurationMs in
       r <- external scheduler_runJob ;;
       jobId <- of_result r ;;
       scheduledAt <- date_now ;;
       emit (RunJob runAt roundNumber scheduledAt durationHours) ;;
       iso <- toISOString runAt ;;
       ret (SchedulerResult.mk true (Some jobId) None (Some ("Scheduled for " +:+ iso))))
    (fun message =>
       ret (SchedulerResult.failure ("Scheduling failed: " +:+ message))).

Definition executeRoundAdvancement (cfg : config) (roundNumber : Z)
  : M SchedulerResult.t :=
  winningChoiceId <- VoteCounter.getWinningChoice voteCounter roundNumber ;;
  match winningChoiceId with
  | None | Some "" =>
      ret (SchedulerResult.failure "No winning choice could be determined")
  | Some winningChoiceId =>
      StoryEngine.advanceStoryByChoice OfScheduler winningChoiceId ;;
      newCurrentNode <- StoryEngine.getCurrentNode OfScheduler ;;
      match newCurrentNode with
      | None => throw "Failed to get new current node after advancement"
      | Some newCurrentNode =>
          match StoryNode.isEnd newCurrentNode with
          | Some true =>
              gameState <- StoryEngine.getGameState ;;
              match gameState with
              | None => throw "No game state found for recap creation"
              | Some _ =>
                  config <- RedisManager.getConfiguration ;;
                  match config with
                  | None => throw "No configuration found for recap creation"
                  | Some config =>
                      recapResult <-
                        PostManager.createEndGameRecapPost
                          (AppConfig.subredditName config) ;;
                      if negb (PostCreationResult.success recapResult)
                      then throw ("Failed to create recap post: "
                                  +:+ JS.interpolate
                                        (PostCreationResult.error recapResult))
                      else
                        ret (SchedulerResult.mk true None None
                               (Some ("Game completed. Recap post created: "
                                      +:+ JS.interpolate
                                            (PostCreationResult.postId recapResult))))
                  end
              end
          | _ =>
              gameState <- StoryEngine.getGameState ;;
              match gameState with
              | None => throw "No game state found for next round creation"
              | Some gameState =>
                  config <- RedisManager.getConfiguration ;;
                  match config with
                  | None => throw "No configuration found for next round creation"
                  | Some config =>
                      (* Store current game state before attempting post
                         creation (for rollback) *)
                      let gameStateBeforePost := gameState in
                      postResult <-
                        PostManager.createStoryRoundPost
                          (AppConfig.subredditName config) ;;
                      if negb (PostCreationResult.success postResult)
                      then
                        (* Rollback: Restore previous game state *)
                        RedisManager.setGameState gameStateBeforePost ;;
                        (* Also rollback story engine state *)
                        StoryEngine.navigateToNode OfScheduler
                          (GameState.currentNodeId gameStateBeforePost) ;;
                        throw ("Failed to create next round post: "
                               +:+ JS.interpolate
                                     (PostCreationResult.error postResult))
                      else
                        let nextRoundNumber := GameState.roundNumber gameState in
                        scheduleResult <-
                          scheduleNextRound cfg
                            (GameState.roundDurationHours gameState) nextRoundNumber ;;
                        ret (SchedulerResult.mk true None None
                               (Some ("Round " +:+ pretty roundNumber
                                      +:+ " completed. Next round post: "
                                      +:+ JS.interpolate
                                            (PostCreationResult.postId postResult)
                                      +:+ ". Next advancement: "
                                      +:+ JS.or_else
                                            (SchedulerResult.jobId scheduleResult)
                                            "manual")))
                  end
              end
          end
      end
  end.

(** The retry loop of [handleRoundAdvancement]: [remaining] iterations
    are left and the next one is number [attempt].  A result that is not a
    success is thrown inside the [try], so it is caught and retried like
    any other exception. *)
Fixpoint retryLoop (cfg : config) (currentRoundNumber : Z) (remaining : nat)
    (attempt : Z) (lastError : option string) : M SchedulerResult.t :=
  match remaining with
  | O =>
      ret (SchedulerResult.failure
             ("All " +:+ pretty (maxRetries cfg) +:+ " attempts failed. Last error: "
              +:+ JS.or_else lastError "Unknown error"))
  | S remaining =>
      emit (Attempt attempt (maxRetries cfg)) ;;
      outcome <- attempt_of (executeRoundAdvancement cfg currentRoundNumber) ;;
      let retry (message : string) :=
        (if attempt <? maxRetries cfg
         then sleep SchedulerRetry (retryDelayMs cfg)
         else ret tt) ;;
        retryLoop cfg currentRoundNumber remaining (attempt + 1) (Some message) in
      match outcome with
      | Ok advancementResult =>
          if SchedulerResult.success advancementResult
          then ret advancementResult
          else retry (JS.or_else (SchedulerResult.error advancementResult)
                        "Round advancement failed")
      | Throw message => retry message
      end
  end.

(** [handleRoundAdvancement] from "Check if game is still active" on:
    the two checks, then the retry loop. *)
Definition advanceCurrentRound (cfg : config) (currentRoundNumber : Z)
  : M SchedulerResult.t :=
  gameState <- StoryEngine.getGameState ;;
  match gameState with
  | Some g =>
      if negb (GameState.isActive g)
      then ret (SchedulerResult.failure "Game is no longer active")
      else if negb (GameState.roundNumber g =? currentRoundNumber)
      then ret (SchedulerResult.failure
                  ("Round mismatch: job for round " +:+ pretty currentRoundNumber
                   +:+ ", current round is " +:+ pretty (GameState.roundNumber g)))
      else retryLoop cfg currentRoundNumber (Z.to_nat (maxRetries cfg)) 1 None
  | None => ret (SchedulerResult.failure "Game is no longer active")
  end.

(** The branch for an event without a usable round number (a manual
    trigger): the round of the stored game state is taken. *)
Definition advanceStoredRound (cfg : config) : M SchedulerResult.t :=
  gameState <- RedisManager.getGameState ;;
  match gameState with
  | Some g =>
      if GameState.isActive g then advanceCurrentRound cfg (GameState.roundNumber g)
      else ret (SchedulerResult.failure
                  "No active game found and no round number provided")
  | None =>
      ret (SchedulerResult.failure "No active game found and no round number provided")
  end.

Definition handleRoundAdvancement (cfg : config) (event : JobEvent.t)
  : M SchedulerResult.t :=
  try_catch
    (match JobEvent.roundNumber event with
     | Some roundNumber =>
         if roundNumber <=? 0 then advanceStoredRound cfg
         else advanceCurrentRound cfg roundNumber
     | None => advanceStoredRound cfg
     end)
    (fun message =>
       ret (SchedulerResult.failure ("Critical handler error: " +:+ message))).

(** [getNextScheduledRound]: round number, end of the round and time
    left, or [null] without an active game. *)
Definition getNextScheduledRound : M (option (Z * Z * Z)) :=
  gameState <- StoryEngine.getGameState ;;
  match gameState with
  | None => ret None
  | Some g =>
      if negb (GameState.isActive g) then ret None
      else
        let roundEndTime :=
          GameState.roundStartTime g
          + GameState.roundDurationHours g * 60 * 60 * 1000 in
        t <- date_now ;;
        let timeRemaining := roundEndTime - t in
        ret (Some (GameState.roundNumber g, roundEndTime, Z.max 0 timeRemaining))
  end.

Definition isRoundAdvancementDue : M bool :=
  scheduleInfo <- getNextScheduledRound ;;
  match scheduleInfo with
  | None => ret false
  | Some (_, _, timeRemaining) => ret (timeRemaining <=? 0)
  end.

Definition manualRoundAdvancement (cfg : config) (roundNumber : Z)
  : M SchedulerResult.t :=
  try_catch
    (gameState <- StoryEngine.getGameState ;;
     match gameState with
     | Some g =>
         if negb (GameState.isActive g)
         then ret (SchedulerResult.failure "No active game found")
         else if negb (GameState.roundNumber g =? roundNumber)
         then ret (SchedulerResult.failure
                     ("Round mismatch: requested " +:+ pretty roundNumber
                      +:+ ", current is " +:+ pretty (GameState.roundNumber g)))
         else
           result <- executeRoundAdvancement cfg roundNumber ;;
           ret (SchedulerResult.mk (SchedulerResult.success result)
                  (SchedulerResult.jobId result) (SchedulerResult.error result)
                  (Some ("Manual advancement: "
                         +:+ JS.or_else (SchedulerResult.details result) "")))
     | None => ret (SchedulerResult.failure "No active game found")
     end)
    (fun message =>
       ret (SchedulerResult.failure ("Manual advancement failed: " +:+ message))).

(** ** Setting up and tearing down the scheduler *)

(** [Promise.all] over the cancellations of the rounds in [rounds]. *)
Fixpoint cancelRounds (cfg : config) (rounds : list Z) : M (list SchedulerResult.t) :=
  match rounds with
  | [] => ret []
  | round :: rest =>
      result <- cancelScheduledRound cfg round ;;
      results <- cancelRounds cfg rest ;;
      ret (result :: results)
  end.

(** [cancelAllScheduledRounds]: the current round and the five after
    it. *)
Definition cancelAllScheduledRounds (cfg : config) : M SchedulerResult.t :=
  gameState <- StoryEngine.getGameState ;;
  match gameState with
  | None =>
      ret (SchedulerResult.mk true None None
             (Some "No active game found - nothing to cancel"))
  | Some g =>
      results <- cancelRounds cfg (seqZ (GameState.roundNumber g) 6) ;;
      let failedCancellations :=
        List.filter (fun result => negb (SchedulerResult.success result)) results in
      ret (SchedulerResult.mk true None None
             (Some ("Cancelled "
                    +:+ pretty (Z.of_nat (length results)
                                - Z.of_nat (length failedCancellations))
                    +:+ "/" +:+ pretty (Z.of_nat (length results))
                    +:+ " scheduled jobs")))
  end.

Definition initializeGameScheduler (cfg : config) (subredditName : string)
    (roundDurationHours : Z) : M SchedulerResult.t :=
  try_catch
    (cancelAllScheduledRounds cfg ;;
     gameState <- StoryEngine.getGameState ;;
     match gameState with
     | Some g =>
         if negb (GameState.isActive g)
         then ret (SchedulerResult.failure
                     "No active game state found for scheduler initialization")
         else
           scheduleResult <-
             scheduleNextRound cfg roundDurationHours (GameState.roundNumber g) ;;
           if negb (SchedulerResult.success scheduleResult)
           then ret (SchedulerResult.failure
                       ("Failed to schedule first round: "
                        +:+ JS.interpolate (SchedulerResult.error scheduleResult)))
           else
             ret (SchedulerResult.mk true (SchedulerResult.jobId scheduleResult) None
                    (Some ("First round scheduled for " +:+ pretty roundDurationHours
                           +:+ " hours from now")))
     | None =>
         ret (SchedulerResult.failure
                "No active game state found for scheduler initialization")
     end)
    (fun message =>
       ret (SchedulerResult.failure ("Scheduler initialization failed: " +:+ message))).

Definition cleanupGameScheduler (cfg : config) : M SchedulerResult.t :=
  cancellationResult <- cancelAllScheduledRounds cfg ;;
  ret (SchedulerResult.mk true None None
         (Some ("Scheduler cleanup: "
                +:+ JS.or_else (SchedulerResult.details cancellationResult)
                      "completed"))).

End SchedulerHandler.

(* ================================================================== *)
(** * handlers/settingsHandler.ts: validation of an uploaded story *)
(* ================================================================== *)

Module StoryValidationResult.
Record t : Type := mk
  { isValid : bool;
    errors : list string;
    warnings : list string;
    story : option JS.JSON }.
End StoryValidationResult.

(** The validator works on the untyped value that [JSON.parse] returns.
    Its functions give [None] where the source would have to convert a
    string to a number (see [JS.gt_number]) or where the traversal is cut
    short; otherwise they return, or throw a [TypeError]. *)
(** [{ success, message }], the answer of the actions of the settings
    form. *)
Module ActionResult.
Record t : Type := mk
  { success : bool;
    message : string }.
End ActionResult.

(** What [getGameStatus] returns. *)
Module GameStatus.
Record t : Type := mk
  { hasStory : bool;
    storyTitle : option string;
    isGameActive : bool;
    currentRound : option Z;
    roundDuration : Z }.
End GameStatus.

Module SettingsHandler.

(** The body of [node.choices.forEach((choice, index) => ...)]. *)
Definition validateChoice (choice : JS.JSON) (nodeId : string) (index : nat)
    (allNodeIds : list string) : result (list string) :=
  match choice with
  | JS.JNull => Throw "Cannot read properties of null (reading 'id')"
  | _ =>
      let here := "Node " +:+ JS.quoted nodeId +:+ " choice " +:+ pretty (Z.of_nat index) in
      Ok ((if JS.not_valid_string (JS.get choice "id")
           then [here +:+ " must have a valid id"] else [])
          ++ (if JS.not_valid_string (JS.get choice "text")
              then [here +:+ " must have valid text"] else [])
          ++ (if JS.not_valid_string (JS.get choice "nextNodeId")
              then [here +:+ " must have a valid nextNodeId"]
              else
                match JS.get choice "nextNodeId" with
                | Some (JS.JStr next) =>
                    if existsb (String.eqb next) allNodeIds then []
                    else [here +:+ " references non-existent node " +:+ JS.quoted next]
                | _ => []
                end))
  end.

Fixpoint validateChoices (choices : list JS.JSON) (nodeId : string) (index : nat)
    (allNodeIds : list string) : result (list string) :=
  match choices with
  | [] => Ok []
  | choice :: rest =>
      match validateChoice choice nodeId index allNodeIds with
      | Throw message => Throw message
      | Ok errors =>
          match validateChoices rest nodeId (S index) allNodeIds with
          | Throw message => Throw message
          | Ok more => Ok (errors ++ more)
          end
      end
  end.

Definition validateStoryNode (node : JS.JSON) (nodeId : string)
    (allNodeIds : list string) : option (result (list string)) :=
  match node with
  | JS.JNull => Some (Throw "Cannot read properties of null (reading 'id')")
  | _ =>
      let id := JS.get node "id" in
      let choices := JS.get node "choices" in
      let isEnd := JS.truthy (JS.get node "isEnd") in
      let fields :=
        (if negb (JS.truthy id) || negb (JS.strict_eq_string id nodeId)
         then ["Node " +:+ JS.quoted nodeId +:+ " must have matching id field"] else [])
        ++ (if JS.not_valid_string (JS.get node "title")
            then ["Node " +:+ JS.quoted nodeId +:+ " must have a valid title"] else [])
        ++ (if JS.not_valid_string (JS.get node "content")
            then ["Node " +:+ JS.quoted nodeId +:+ " must have valid content"] else [])
        ++ (if JS.truthy (JS.get node "imageUrl")
               && negb (String.eqb (JS.typeof (JS.get node "imageUrl")) "string")
            then ["Node " +:+ JS.quoted nodeId +:+ " imageUrl must be a string"] else []) in
      let ofChoices :=
        match choices with
        | Some (JS.JArr cs) => validateChoices cs nodeId 0 allNodeIds
        | Some _ =>
            if JS.truthy choices
            then Ok ["Node " +:+ JS.quoted nodeId +:+ " choices must be an array"]
            else Ok []
        | None => Ok []
        end in
      match ofChoices with
      | Throw message => Some (Throw message)
      | Ok choiceErrors =>
          let lengthOf := match choices with
                          | Some c => JS.length_of c
                          | None => None
                          end in
          match (if isEnd && JS.truthy choices then JS.gt_number lengthOf 0
                 else Some false) with
          | None => None
          | Some endWithChoices =>
              let nonEndWithout :=
                negb isEnd && (negb (JS.truthy choices) || JS.strict_eq_zero lengthOf) in
              Some (Ok (fields ++ choiceErrors
                        ++ (if endWithChoices
                            then ["End node " +:+ JS.quoted nodeId
                                  +:+ " should not have choices"]
                            else [])
                        ++ (if nonEndWithout
                            then ["Non-end node " +:+ JS.quoted nodeId
                                  +:+ " must have at least one choice"]
                            else [])))
          end
      end
  end.

(** [for (const nodeId of nodeIds) errors.push(...validateStoryNode(...))] *)
Fixpoint validateNodes (nodes : JS.JSON) (todo allNodeIds : list string)
  : option (result (list string)) :=
  match todo with
  | [] => Some (Ok [])
  | nodeId :: rest =>
      match JS.get nodes nodeId with
      | None => Some (Throw "Cannot read properties of undefined (reading 'id')")
      | Some node =>
          match validateStoryNode node nodeId allNodeIds with
          | None => None
          | Some (Throw message) => Some (Throw message)
          | Some (Ok nodeErrors) =>
              match validateNodes nodes rest allNodeIds with
              | None => None
              | Some (Throw message) => Some (Throw message)
              | Some (Ok more) => Some (Ok (nodeErrors ++ more))
              end
          end
      end
  end.

(** What [findReachableNodes] keeps in its [Set] and on its stack: the
    values of [startNodeId] and of the [nextNodeId] fields as they are.
    Primitive values are the same when they are equal; an array or an
    object is the same only as itself, that is, at the same place of the
    parsed tree (the place is the node key and the choice index under
    which it was read, or no place for [startNodeId]). *)
Inductive Item : Type :=
| Prim (v : JS.value)
| Ref (place : option (string * nat)) (v : JS.JSON).

Definition item_of (place : option (string * nat)) (v : JS.value) : Item :=
  match v with
  | Some ((JS.JArr _ | JS.JObj _) as j) => Ref place j
  | _ => Prim v
  end.

Definition same_value (a b : Item) : bool :=
  match a, b with
  | Prim None, Prim None => true
  | Prim (Some JS.JNull), Prim (Some JS.JNull) => true
  | Prim (Some (JS.JBool x)), Prim (Some (JS.JBool y)) => Bool.eqb x y
  | Prim (Some (JS.JNum x)), Prim (Some (JS.JNum y)) => x =? y
  | Prim (Some (JS.JStr x)), Prim (Some (JS.JStr y)) => String.eqb x y
  | Ref p _, Ref q _ => bool_decide (p = q)
  | _, _ => false
  end.

(** [reachable.has(x)] *)
Definition has (reachable : list Item) (x : Item) : bool :=
  existsb (same_value x) reachable.

(** The property key [story.nodes[currentId]] looks up. *)
Definition item_key (x : Item) : string :=
  match x with
  | Prim v => JS.value_to_string v
  | Ref _ j => JS.to_string j
  end.

(** [for (const choice of node.choices) if (!reachable.has(choice.nextNodeId))
    toVisit.push(choice.nextNodeId)], the stack's top first. *)
Fixpoint pushTargets (key : string) (index : nat) (choices : list JS.JSON)
    (reachable toVisit : list Item) : result (list Item) :=
  match choices with
  | [] => Ok toVisit
  | JS.JNull :: _ => Throw "Cannot read properties of null (reading 'nextNodeId')"
  | choice :: rest =>
      let next := item_of (Some (key, index)) (JS.get choice "nextNodeId") in
      pushTargets key (S index) rest reachable
        (if has reachable next then toVisit else next :: toVisit)
  end.

Fixpoint traverse (nodes : JS.JSON) (fuel : nat) (toVisit reachable : list Item)
  : option (result (list Item)) :=
  match fuel with
  | O => None
  | S fuel =>
      match toVisit with
      | [] => Some (Ok reachable)
      | currentId :: rest =>
          if has reachable currentId then traverse nodes fuel rest reachable
          else
            let reachable := reachable ++ [currentId] in
            let key := item_key currentId in
            let node := JS.get nodes key in
            let choices := match node with
                           | Some n => JS.get n "choices"
                           | None => None
                           end in
            if JS.truthy node && JS.truthy choices
            then
              match choices with
              | Some ((JS.JArr _ | JS.JStr _) as iterable) =>
                  match pushTargets key 0 (map snd (JS.entries (Some iterable)))
                          reachable rest with
                  | Throw message => Some (Throw message)
                  | Ok toVisit => traverse nodes fuel toVisit reachable
                  end
              | _ => Some (Throw "node.choices is not iterable")
              end
            else traverse nodes fuel rest reachable
      end
  end.

(** The number of choices in the tree.  Every item on the stack is
    [startNodeId] or the [nextNodeId] of a choice, an item is visited once,
    and a visit pushes at most the choices of one node: the bound on the
    number of iterations below follows. *)
Definition choiceCount (nodes : JS.JSON) : nat :=
  list_sum (map (fun kv =>
                   match JS.get (snd kv) "choices" with
                   | Some c => length (JS.entries (Some c))
                   | None => O
                   end) (JS.entries (Some nodes))).

Definition findReachableNodes (story : JS.JSON) (nodes : JS.JSON)
  : option (result (list Item)) :=
  let n := choiceCount nodes in
  traverse nodes (2 + (1 + n) * n)%nat [item_of None (JS.get story "startNodeId")] [].

(** The three messages of the outer [catch]. *)
Definition critical (message : string) : StoryValidationResult.t :=
  StoryValidationResult.mk false
    ["Critical validation error occurred.";
     "Error: " +:+ message;
     "Please check your story format and try again."]
    [] None.

(** The checks on the top-level fields, in source order. *)
Definition topLevelErrors (parsedStory : JS.JSON) : list string :=
  (if JS.not_valid_string (JS.get parsedStory "title")
   then ["Story must have a valid " +:+ JS.quoted "title" +:+ " field"] else [])
  ++ (if JS.not_valid_string (JS.get parsedStory "description")
      then ["Story must have a valid " +:+ JS.quoted "description" +:+ " field"] else [])
  ++ (if JS.not_valid_string (JS.get parsedStory "startNodeId")
      then ["Story must have a valid " +:+ JS.quoted "startNodeId" +:+ " field"] else []).

(** The [else] branch that validates [parsedStory.nodes], an object. *)
Definition nodesErrors (parsedStory nodes : JS.JSON) : option (result (list string)) :=
  let nodeIds := map fst (JS.entries (Some nodes)) in
  let startNodeId := JS.get parsedStory "startNodeId" in
  let noNode := match nodeIds with
                | [] => ["Story must have at least one node"]
                | _ => []
                end in
  let noStart :=
    if JS.truthy startNodeId
       && negb (JS.truthy (JS.get nodes (JS.value_to_string startNodeId)))
    then ["Start node " +:+ JS.quoted (JS.value_to_string startNodeId) +:+ " not found in nodes"]
    else [] in
  match validateNodes nodes nodeIds nodeIds with
  | None => None
  | Some (Throw message) => Some (Throw message)
  | Some (Ok nodeErrors) =>
      match findReachableNodes parsedStory nodes with
      | None => None
      | Some (Throw message) => Some (Throw message)
      | Some (Ok reachableNodes) =>
          let unreachableNodes :=
            List.filter (fun id => negb (JS.strict_eq_string startNodeId id)
                                   && negb (has reachableNodes (Prim (Some (JS.JStr id)))))
              nodeIds in
          Some (Ok (noNode ++ noStart ++ nodeErrors
                    ++ match unreachableNodes with
                       | [] => []
                       | _ => ["Unreachable nodes found: "
                               +:+ JS.join ", " unreachableNodes]
                       end))
      end
  end.

(** [v && v.length > n] *)
Definition longerThan (v : JS.value) (n : Z) : option bool :=
  match v with
  | Some j => if JS.truthy v then JS.gt_number (JS.length_of j) n else Some false
  | None => Some false
  end.

(** [validateStoryJson] on the value [JSON.parse] returned for the text
    (an empty text and a text that does not parse are answered before). *)
Definition validateStoryJson (parsedStory : JS.JSON) : option StoryValidationResult.t :=
  match parsedStory with
  | JS.JObj _ =>
      let nodes := JS.get parsedStory "nodes" in
      let ofNodes :=
        match nodes with
        | Some ((JS.JObj _ | JS.JArr _) as n) => nodesErrors parsedStory n
        | _ => Some (Ok ["Story must have a " +:+ JS.quoted "nodes" +:+ " object"])
        end in
      match ofNodes with
      | None => None
      | Some (Throw message) => Some (critical message)
      | Some (Ok more) =>
          let errors := topLevelErrors parsedStory ++ more in
          match nodes with
          | None | Some JS.JNull =>
              Some (critical "Cannot convert undefined or null to object")
          | Some _ =>
              let nodeCount := Z.of_nat (length (JS.entries nodes)) in
              match longerThan (JS.get parsedStory "title") 100,
                    longerThan (JS.get parsedStory "description") 500 with
              | Some longTitle, Some longDescription =>
                  let warnings :=
                    (if 50 <? nodeCount
                     then ["Large story detected (" +:+ pretty nodeCount
                           +:+ " nodes). Consider breaking into smaller stories for better performance."]
                     else [])
                    ++ (if longTitle
                        then ["Story title is very long. Consider shortening for better display."]
                        else [])
                    ++ (if longDescription
                        then ["Story description is very long. Consider shortening for better readability."]
                        else []) in
                  match errors with
                  | [] =>
                      Some (StoryValidationResult.mk true [] warnings
                              (Some (JS.JObj
                                 [("title", default JS.JNull (JS.get parsedStory "title"));
                                  ("description",
                                    default JS.JNull (JS.get parsedStory "description"));
                                  ("startNodeId",
                                    default JS.JNull (JS.get parsedStory "startNodeId"));
                                  ("nodes", default JS.JNull nodes)])))
                  | _ => Some (StoryValidationResult.mk false errors warnings None)
                  end
              | _, _ => None
              end
          end
      end
  | _ =>
      Some (StoryValidationResult.mk false
              ["Story JSON must be a valid object, not an array or primitive value."]
              [] None)
  end.

(** ** Game control from the settings form *)

(** [handleResetGame]: the scheduler clean-up, [clearGameData], and the
    configuration marked inactive.  The handler builds its scheduler with
    [new SchedulerHandler(this.context)]. *)
Definition handleResetGame : M ActionResult.t :=
  currentGameState <- RedisManager.getGameState ;;
  SchedulerHandler.cleanupGameScheduler
    (SchedulerHandler.constructor SchedulerConfig.none) ;;
  RedisManager.clearGameData ;;
  config <- RedisManager.getConfiguration ;;
  match config with
  | Some c =>
      RedisManager.setConfiguration
        (AppConfig.mk (AppConfig.roundDurationHours c) false (AppConfig.subredditName c))
  | None => ret tt
  end ;;
  let roundInfo :=
    match currentGameState with
    | Some g => " (was at round " +:+ pretty (GameState.roundNumber g) +:+ ")"
    | None => ""
    end in
  ret (ActionResult.mk true
         ("Game reset successfully" +:+ roundInfo
          +:+ ". You can now start a new game.")).

(** [cleanupGameState]: [currentState?.roundNumber || 0] rounds are
    reported as cleared. *)
Definition cleanupGameState : M ActionResult.t :=
  currentState <- RedisManager.getGameState ;;
  let roundsCleared :=
    match currentState with
    | Some g => GameState.roundNumber g
    | None => 0
    end in
  RedisManager.clearGameData ;;
  config <- RedisManager.getConfiguration ;;
  match config with
  | Some c =>
      RedisManager.setConfiguration
        (AppConfig.mk (AppConfig.roundDurationHours c) false (AppConfig.subredditName c))
  | None => ret tt
  end ;;
  ret (ActionResult.mk true
         ("Cleared " +:+ pretty roundsCleared
          +:+ " rounds of game data and set game to inactive")).

(** Durations are whole numbers of hours in the embedding; the two
    comparisons are the code's. *)
Definition handleUpdateRoundDuration (durationHours : Z) : M ActionResult.t :=
  try_catch
    (if durationHours <=? 0
     then ret (ActionResult.mk false "Round duration must be greater than 0 hours.")
     else if 168 <? durationHours
     then ret (ActionResult.mk false
                 "Round duration cannot exceed 168 hours (1 week).")
     else
       RedisManager.updateRoundDuration durationHours ;;
       ret (ActionResult.mk true
              ("Round duration updated to " +:+ pretty durationHours +:+ " hours.")))
    (fun message =>
       ret (ActionResult.mk false ("Failed to update round duration: " +:+ message))).

Definition getGameStatus : M GameStatus.t :=
  story <- RedisManager.getStoryData ;;
  gameState <- RedisManager.getGameState ;;
  roundDuration <- RedisManager.getRoundDuration ;;
  ret (GameStatus.mk
         match story with Some _ => true | None => false end
         (Story.title <$> story)
         match gameState with Some g => GameState.isActive g | None => false end
         (GameState.roundNumber <$> gameState)
         roundDuration).

End SettingsHandler.

(* ================================================================== *)
(** * Vocabulary of the statements *)
(* ================================================================== *)

(** A world that has made no external call and logged nothing yet, with
    fresh handler instances (no story cached). *)
Definition worldOf (r : Redis.t) (t : Z) (script : Env) : World :=
  mkWorld r t 0 [] script None None None None.

(** The story an engine instance works with: its cache, or else the
    stored story that the next call would load into the cache. *)
Definition storyOf (e : EngineRef) (w : World) : option Story.t :=
  match currentStory e w with
  | Some story => Some story
  | None => Redis.STORY_DATA (redis w)
  end.

(** ** Example data *)

Definition choiceTo (id next : string) : Choice.t := Choice.mk id ("Go " +:+ id) next.

(** start -A-> cave -A-> exit, start -B-> exit; [exit] ends the story. *)
Definition demoStory : Story.t :=
  Story.mk "Demo" "A small story" "start"
    [("start", StoryNode.mk "start" "Start" "You wake up." None
                 (Some [choiceTo "A" "cave"; choiceTo "B" "exit"]) None);
     ("cave", StoryNode.mk "cave" "Cave" "It is dark." None
                (Some [choiceTo "A" "exit"]) None);
     ("exit", StoryNode.mk "exit" "Exit" "Daylight." None None (Some true))].

Definition demoGame : GameState.t :=
  GameState.mk "start" 1 ["start"] true 1000 24 (Some false).

Definition demoConfig : AppConfig.t := AppConfig.mk 24 true "adventures".

(** A platform on which comment [c1] has five upvotes and every other
    comment three, posting answers [post], comments and jobs succeed. *)
Definition demoEnv (post : result string) : Env :=
  mkEnv (fun _ commentId =>
           if String.eqb commentId "c1" then FetchComment (Some 5)
           else FetchComment (Some 3))
        (fun _ => post)
        (fun i => Ok ("comment" +:+ pretty (Z.of_nat i)))
        (fun _ => Ok "job")
        (fun _ => 0%Q)
        (fun _ => "later").

Definition demoVotes : gmap Z VoteData.t :=
  {[ 1 := VoteData.mk [("A", "c1"); ("B", "c2")] 86401000 ]}.

(** A running game in round 1 with both choices of [start] tracked. *)
Definition demoWorld (post : result string) : World :=
  worldOf (Redis.mk (Some demoGame) (Some demoStory) (Some demoConfig) demoVotes)
    5000 (demoEnv post).

(** A game in test mode: rounds of two minutes, started at time 0. *)
Definition testModeGame : GameState.t :=
  GameState.mk "start" 1 ["start"] true 0 2 (Some true).

Definition testModeWorld (t : Z) : World :=
  worldOf (Redis.mk (Some testModeGame) (Some demoStory)
             (Some (AppConfig.mk 2 true "adventures")) ∅)
    t (demoEnv (Ok "post")).

(** ** Successive advances *)

(** [advanceStoryByChoice] called once per choice id, in order. *)
Fixpoint advanceAll (e : EngineRef) (choiceIds : list string) : M unit :=
  match choiceIds with
  | [] => ret tt
  | choiceId :: rest =>
      bind (StoryEngine.advanceStoryByChoice e choiceId) (fun _ => advanceAll e rest)
  end.

(** No two neighbours of the path are the same node id. *)
Fixpoint noConsecutiveDuplicates (path : list string) : Prop :=
  match path with
  | a :: ((b :: _) as rest) => a <> b /\ noConsecutiveDuplicates rest
  | _ => True
  end.

(** [Walk story from choiceIds visited]: starting at node [from], taking
    the choices [choiceIds] one after the other follows edges of the story
    and arrives, in order, at the nodes [visited]. *)
Inductive Walk (story : Story.t) : string -> list string -> list string -> Prop :=
| walk_done (from : string) : Walk story from [] []
| walk_step (from choiceId : string) (node : StoryNode.t) (choices : list Choice.t)
    (choice : Choice.t) (choiceIds visited : list string) :
    Story.node story from = Some node ->
    StoryNode.choices node = Some choices ->
    List.find (fun c => String.eqb (Choice.id c) choiceId) choices = Some choice ->
    Walk story (Choice.nextNodeId choice) choiceIds visited ->
    Walk story from (choiceId :: choiceIds) (Choice.nextNodeId choice :: visited).

(** ** The tally *)

(** The pair a tally entry stands for. *)
Definition tallyKey (r : VoteResult.t) : string * string :=
  (VoteResult.choiceId r, VoteResult.commentId r).

(** The highest score of a list of entries. *)
Fixpoint maxUpvotes (results : list VoteResult.t) : option Z :=
  match results with
  | [] => None
  | r :: rest =>
      Some (match maxUpvotes rest with
            | None => VoteResult.upvotes r
            | Some m => Z.max (VoteResult.upvotes r) m
            end)
  end.

(** The first entry, in the order of the tally, among the entries that
    reach [minimumVotes] and have the highest score of those. *)
Definition firstInTallyOrder (minimumVotes : Z) (tally : list VoteResult.t)
  : option string :=
  let valid := List.filter (fun r => minimumVotes <=? VoteResult.upvotes r) tally in
  match maxUpvotes valid with
  | None => None
  | Some top =>
      VoteResult.choiceId <$> List.find (fun r => VoteResult.upvotes r =? top) valid
  end.

(** Modelled from the spec: the tie-break of section 4.2 under
    [tieBreakMode = first], "the entry that appears first in the current
    node's choice order" among the tied choices.  No function of the
    source computes it. *)
Definition firstInNodeOrder (nodeChoiceIds tied : list string) : option string :=
  List.find (fun id => existsb (String.eqb id) tied) nodeChoiceIds.

Definition descending (a b : VoteResult.t) : Prop :=
  VoteResult.upvotes b <= VoteResult.upvotes a.

(** The score [countVotes] records for a fetch: the fetched score, or 0
    when the fetch threw. *)
Definition scoreOf (r : result Z) : Z :=
  match r with
  | Ok upvotes => upvotes
  | Throw _ => 0
  end.

Definition fetchFails (f : CommentFetch) : Prop :=
  match f with
  | FetchComment _ => False
  | _ => True
  end.

(** Every attempt the budget allows for [commentId], made from world [w]
    on, fails. *)
Definition allAttemptsFail (cfg : VoteCounter.config) (commentId : string) (w : World)
  : Prop :=
  forall a : nat,
    (a < Z.to_nat (VoteCounter.maxRetries cfg))%nat ->
    fetchFails (reddit_getCommentById (env w) (calls w + a) commentId).

(** The waits of an exhausted fetch: [2^(attempt-1)] seconds after each
    attempt but the last. *)
Definition backoffs (cfg : VoteCounter.config) : list Event :=
  map (fun attempt => Sleep VoteBackoff (VoteCounter.backoffDelay attempt))
    (seqZ 1 (VoteCounter.maxRetries cfg - 1)).

(** [new VoteCounter(context)] *)
Definition voteCounterDefaults : VoteCounter.config :=
  VoteCounter.constructor VoteCounterConfig.none.

(** [tieBreakMode = first]: [randomTieBreaking: false]. *)
Definition firstWins : VoteCounter.config :=
  VoteCounter.constructor (VoteCounterConfig.mk None (Some false) None).

(** The tally {A:10, B:10, C:5} at a node whose choices are, in order,
    B, A and C. *)
Definition tieStory : Story.t :=
  Story.mk "Tie" "Three ways" "start"
    [("start", StoryNode.mk "start" "Start" "Choose." None
                 (Some [choiceTo "B" "b"; choiceTo "A" "a"; choiceTo "C" "c"]) None);
     ("a", StoryNode.mk "a" "A" "End." None None (Some true));
     ("b", StoryNode.mk "b" "B" "End." None None (Some true));
     ("c", StoryNode.mk "c" "C" "End." None None (Some true))].

Definition tieEnv : Env :=
  mkEnv (fun _ commentId =>
           if String.eqb commentId "cc" then FetchComment (Some 5)
           else FetchComment (Some 10))
        (fun _ => Ok "post")
        (fun i => Ok ("comment" +:+ pretty (Z.of_nat i)))
        (fun _ => Ok "job")
        (fun _ => 0%Q)
        (fun _ => "later").

Definition tieWorld : World :=
  worldOf (Redis.mk (Some demoGame) (Some tieStory) (Some demoConfig)
             {[ 1 := VoteData.mk [("A", "ca"); ("B", "cb"); ("C", "cc")] 86401000 ]})
    5000 tieEnv.

(** A platform on which comment [c2] cannot be read. *)
Definition flakyEnv : Env :=
  mkEnv (fun _ commentId =>
           if String.eqb commentId "c2" then FetchThrows "timeout"
           else FetchComment (Some 5))
        (fun _ => Ok "post")
        (fun i => Ok ("comment" +:+ pretty (Z.of_nat i)))
        (fun _ => Ok "job")
        (fun _ => 0%Q)
        (fun _ => "later").

Definition flakyVotes : VoteData.t :=
  VoteData.mk [("A", "c1"); ("B", "c2"); ("C", "c3")] 86401000.

Definition flakyWorld : World :=
  worldOf (Redis.mk (Some demoGame) (Some demoStory) (Some demoConfig)
             {[ 1 := flakyVotes ]})
    5000 flakyEnv.

(** ** Frames and traces *)

(** Every run of [m] relates the world before to the world after by [P]. *)
Definition preserves (P : World -> World -> Prop) {A : Type} (m : M A) : Prop :=
  forall w w' r, m w = (w', r) -> P w w'.

(** The events of the retry loop of [handleRoundAdvancement]: the start of
    an attempt and the wait between two attempts. *)
Definition schedulerEvent (e : Event) : bool :=
  match e with
  | Attempt _ _ | Sleep SchedulerRetry _ => true
  | _ => false
  end.

Definition schedulerTrace (l : list Event) : list Event := List.filter schedulerEvent l.

(** The log grew, and by no event of the retry loop. *)
Definition logsInnerOnly (w w' : World) : Prop :=
  exists l, log w' = log w ++ l /\ schedulerTrace l = [].

(** The stored game state is the same. *)
Definition keepsGameState (w w' : World) : Prop :=
  Redis.GAME_STATE (redis w') = Redis.GAME_STATE (redis w).

(** [k] attempts numbered from [attempt] on, a wait of [retryDelayMs]
    between each two. *)
Fixpoint attemptsTrace (cfg : SchedulerHandler.config) (attempt : Z) (k : nat)
  : list Event :=
  match k with
  | O => []
  | S k' =>
      Attempt attempt (SchedulerHandler.maxRetries cfg)
      :: match k' with
         | O => []
         | S _ =>
             Sleep SchedulerRetry (SchedulerHandler.retryDelayMs cfg)
             :: attemptsTrace cfg (attempt + 1) k'
         end
  end.

(** [new SchedulerHandler(context)] *)
Definition schedulerDefaults : SchedulerHandler.config :=
  SchedulerHandler.constructor SchedulerConfig.none.

(** The running demo game with no vote record for round 1. *)
Definition noVotesWorld : World :=
  worldOf (Redis.mk (Some demoGame) (Some demoStory) (Some demoConfig) ∅)
    5000 (demoEnv (Ok "post")).

(** The timer of round 1 fires. *)
Definition round1Fires : JobEvent.t :=
  JobEvent.mk "subquest_round_advance" (Some 1) (Some 1000) (Some 24).

(** The world right after [emit e]. *)
Definition afterEmit (e : Event) (w : World) : World :=
  mkWorld (redis w) (now w) (calls w) (log w ++ [e]) (env w)
    (story_sched w) (story_post w) (story_vote w) (story_settings w).

(** No game is stored, or the stored game is not active. *)
Definition gameInactive (w : World) : Prop :=
  match Redis.GAME_STATE (redis w) with
  | Some g => GameState.isActive g = false
  | None => True
  end.

(** The event is for the round the game is in (or names no round, as a
    manual trigger does). *)
Definition firesFor (event : JobEvent.t) (g : GameState.t) : Prop :=
  match JobEvent.roundNumber event with
  | Some n => n <= 0 \/ n = GameState.roundNumber g
  | None => True
  end.

(** ** The story as a graph *)

(** A choice of node [a] leads to [b]. *)
Definition Edge (story : Story.t) (a b : string) : Prop :=
  exists ts, StoryEngine.targets story a = Some ts /\ In b ts.

(** [id] can be reached from the start node along choices. *)
Inductive Reachable (story : Story.t) : string -> Prop :=
| Reachable_start : Reachable story (Story.startNodeId story)
| Reachable_step a b : Reachable story a -> Edge story a b -> Reachable story b.

(** The three fatal checks of [validateStoryReferences]: the start node
    exists, every choice leads to a node of the story, some node is an end
    node. *)
Definition fatalChecksPass (story : Story.t) : Prop :=
  is_Some (Story.node story (Story.startNodeId story))
  /\ StoryEngine.checkReferences story (Story.nodeIds story) = Ok tt
  /\ exists id node,
       In id (Story.nodeIds story)
       /\ Story.node story id = Some node
       /\ StoryNode.isEnd node = Some true.

(** The choices of the nodes not yet visited: what the traversal may
    still push. *)
Definition weight (story : Story.t) (visited : gset string) : nat :=
  list_sum (map (fun kv =>
                   if decide (fst kv ∈ visited) then O
                   else length (default [] (StoryNode.choices (snd kv))))
              (Story.nodes story)).

(** A sound story but for [orphan], which no choice leads to. *)
Definition orphanStory : Story.t :=
  Story.mk "Demo" "A small story" "start"
    [("start", StoryNode.mk "start" "start" "..." None
                 (Some [choiceTo "A" "cave"; choiceTo "B" "exit"]) None);
     ("cave", StoryNode.mk "cave" "cave" "..." None (Some [choiceTo "A" "exit"]) None);
     ("exit", StoryNode.mk "exit" "exit" "..." None None (Some true));
     ("orphan", StoryNode.mk "orphan" "orphan" "..." None None (Some true))].

(** ** Uploaded stories, as parsed JSON *)

Definition choiceJson (id next : string) : JS.JSON :=
  JS.JObj [("id", JS.JStr id); ("text", JS.JStr ("Go " +:+ id));
           ("nextNodeId", JS.JStr next)].

(** A node with choices. *)
Definition nodeJson (id : string) (choices : list JS.JSON) : JS.JSON :=
  JS.JObj [("id", JS.JStr id); ("title", JS.JStr id); ("content", JS.JStr "...");
           ("choices", JS.JArr choices)].

(** An end node. *)
Definition endJson (id : string) : JS.JSON :=
  JS.JObj [("id", JS.JStr id); ("title", JS.JStr id); ("content", JS.JStr "...");
           ("isEnd", JS.JBool true)].

Definition storyJson (nodes : list (string * JS.JSON)) : JS.JSON :=
  JS.JObj [("title", JS.JStr "Demo"); ("description", JS.JStr "A small story");
           ("startNodeId", JS.JStr "start"); ("nodes", JS.JObj nodes)].

(** [orphanStory] as uploaded. *)
Definition orphanNodes : list (string * JS.JSON) :=
  [("start", nodeJson "start" [choiceJson "A" "cave"; choiceJson "B" "exit"]);
   ("cave", nodeJson "cave" [choiceJson "A" "exit"]);
   ("exit", endJson "exit");
   ("orphan", endJson "orphan")].

Definition orphanStoryJson : JS.JSON := storyJson orphanNodes.

(** Two independent defects: [start] has no title, and the choice of
    [cave] leads to a node that does not exist. *)
Definition twoDefectsNodes : list (string * JS.JSON) :=
  [("start", JS.JObj [("id", JS.JStr "start"); ("content", JS.JStr "...");
                      ("choices", JS.JArr [choiceJson "A" "cave"; choiceJson "B" "exit"])]);
   ("cave", nodeJson "cave" [choiceJson "A" "nowhere"]);
   ("exit", endJson "exit")].

Definition twoDefectsJson : JS.JSON := storyJson twoDefectsNodes.

(** The answer of [validateStoryJson] came from its outer [catch]. *)
Definition isCritical (r : StoryValidationResult.t) : Prop :=
  exists message, r = SettingsHandler.critical message.

(** ** More vocabulary: what a call leaves alone *)

(** The Redis store is the same. *)
Definition keepsStore (w w' : World) : Prop := redis w' = redis w.

(** [g] with another duration. *)
Definition withDuration (g : GameState.t) (durationHours : Z) : GameState.t :=
  GameState.mk (GameState.currentNodeId g) (GameState.roundNumber g)
    (GameState.storyPath g) (GameState.isActive g) (GameState.roundStartTime g)
    durationHours (GameState.testMode g).

(** [g] with another path. *)
Definition withPath (g : GameState.t) (storyPath : list string) : GameState.t :=
  GameState.mk (GameState.currentNodeId g) (GameState.roundNumber g)
    storyPath (GameState.isActive g) (GameState.roundStartTime g)
    (GameState.roundDurationHours g) (GameState.testMode g).

(** A game is stored and active. *)
Definition gameActive (w : World) : Prop :=
  exists g, Redis.GAME_STATE (redis w) = Some g /\ GameState.isActive g = true.

(** A platform on which the first two fetches of a comment throw and the
    later ones return a score of 7. *)
Definition recoveringEnv : Env :=
  mkEnv (fun i _ => if (i <? 2)%nat then FetchThrows "busy" else FetchComment (Some 7))
        (fun _ => Ok "post")
        (fun i => Ok ("comment" +:+ pretty (Z.of_nat i)))
        (fun _ => Ok "job")
        (fun _ => 0%Q)
        (fun _ => "later").

Definition recoveringWorld : World :=
  worldOf (Redis.mk (Some demoGame) (Some demoStory) (Some demoConfig) demoVotes)
    5000 recoveringEnv.

(** The store is the same, and so is the story every engine instance
    works with. *)
Definition keepsStories (w w' : World) : Prop :=
  redis w' = redis w /\ forall e, storyOf e w' = storyOf e w.

Definition descendingVotes (a b : ChoiceWithVotes.t) : Prop :=
  ChoiceWithVotes.voteCount b <= ChoiceWithVotes.voteCount a.

(** ** More vocabulary: posts *)

(** The choices that get a comment: those of a node that does not end
    the story. *)
Definition commentedChoices (node : StoryNode.t) : list Choice.t :=
  match StoryNode.isEnd node, StoryNode.choices node with
  | Some true, _ => []
  | _, None => []
  | _, Some choices => choices
  end.

(** The stored game state and configuration after [completeGame]. *)
Definition completedStore (r : Redis.t) : Redis.t :=
  match Redis.GAME_STATE r with
  | None => r
  | Some g =>
      Redis.mk
        (Some (GameState.mk (GameState.currentNodeId g) (GameState.roundNumber g)
                 (GameState.storyPath g) false (GameState.roundStartTime g)
                 (GameState.roundDurationHours g) (GameState.testMode g)))
        (Redis.STORY_DATA r)
        (match Redis.CONFIG r with
         | Some c =>
             Some (AppConfig.mk (AppConfig.roundDurationHours c) false
                     (AppConfig.subredditName c))
         | None => None
         end)
        (Redis.VOTE_DATA r)
  end.


(** The length in milliseconds of the unit in which the duration of a
    round is counted: a minute when the stored game is in test mode, an
    hour otherwise. *)
Definition msPerUnit (w : World) : Z :=
  match Redis.GAME_STATE (redis w) with
  | Some g =>
      match GameState.testMode g with
      | Some true => 60000
      | _ => 3600000
      end
  | None => 3600000
  end.

(** A game state is stored. *)
Definition gameStored (w : World) : Prop :=
  exists g, Redis.GAME_STATE (redis w) = Some g.

(** [config] with [isGameActive] set to false. *)
Definition inactiveConfig (config : AppConfig.t) : AppConfig.t :=
  AppConfig.mk (AppConfig.roundDurationHours config) false
    (AppConfig.subredditName config).

(** [action] succeeds on [w] and ends the game without starting another:
    no game state is stored afterwards, the configuration, if any, is
    marked inactive, the vote records of rounds 1 to the round the game
    was in are deleted and the others kept, the stored story stays, and
    the platform is not called. *)
Definition endsGame (action : M ActionResult.t) (w : World) : Prop :=
  exists w' res,
    action w = (w', Ok res)
    /\ ActionResult.success res = true
    /\ Redis.GAME_STATE (redis w') = None
    /\ Redis.STORY_DATA (redis w') = Redis.STORY_DATA (redis w)
    /\ Redis.CONFIG (redis w') = inactiveConfig <$> Redis.CONFIG (redis w)
    /\ (forall round,
          Redis.VOTE_DATA (redis w') !! round
          = match Redis.GAME_STATE (redis w) with
            | Some g =>
                if (1 <=? round) && (round <=? GameState.roundNumber g) then None
                else Redis.VOTE_DATA (redis w) !! round
            | None => Redis.VOTE_DATA (redis w) !! round
            end)
    /\ calls w' = calls w
    /\ log w' = log w.

(** [demoStory] as uploaded. *)
Definition demoStoryJson : JS.JSON :=
  storyJson [("start", nodeJson "start" [choiceJson "A" "cave"; choiceJson "B" "exit"]);
             ("cave", nodeJson "cave" [choiceJson "A" "exit"]);
             ("exit", endJson "exit")].

(** ** More vocabulary: the attempts of a firing *)

(** An execution of the sequence did not succeed: it threw, or it
    returned a result that is not a success. *)
Definition failedAttempt (outcome : result SchedulerResult.t) : Prop :=
  match outcome with
  | Ok res => SchedulerResult.success res = false
  | Throw _ => True
  end.

(** The world right after a wait of [ms]. *)
Definition afterSleep (who : Origin) (ms : Z) (w : World) : World :=
  mkWorld (redis w) (now w + ms) (calls w) (log w ++ [Sleep who ms]) (env w)
    (story_sched w) (story_post w) (story_vote w) (story_settings w).

(** [Attempts cfg roundNumber attempt w outcomes w']: from the world [w]
    on, the sequence was executed for round [roundNumber] once for every
    entry of [outcomes], the executions numbered from [attempt] on.  Each
    execution was announced in the log under its number and returned, or
    threw, what [outcomes] lists for it; between two executions lies one
    wait of [retryDelayMs]; the last execution ended in the world [w'],
    and nothing else happened.  With no execution at all, [w'] is [w]. *)
Inductive Attempts (cfg : SchedulerHandler.config) (roundNumber : Z)
  : Z -> World -> list (result SchedulerResult.t) -> World -> Prop :=
| Attempts_none attempt w :
    Attempts cfg roundNumber attempt w [] w
| Attempts_last attempt w w1 outcome :
    SchedulerHandler.executeRoundAdvancement cfg roundNumber
      (afterEmit (Attempt attempt (SchedulerHandler.maxRetries cfg)) w) = (w1, outcome) ->
    Attempts cfg roundNumber attempt w [outcome] w1
| Attempts_retry attempt w w1 outcome next outcomes w' :
    SchedulerHandler.executeRoundAdvancement cfg roundNumber
      (afterEmit (Attempt attempt (SchedulerHandler.maxRetries cfg)) w) = (w1, outcome) ->
    Attempts cfg roundNumber (attempt + 1)
      (afterSleep SchedulerRetry (SchedulerHandler.retryDelayMs cfg) w1)
      (next :: outcomes) w' ->
    Attempts cfg roundNumber attempt w (outcome :: next :: outcomes) w'.

(** The demo platform, except that the third call to it, the first
    creation of a post, fails. *)
Definition postFailsOnceEnv : Env :=
  mkEnv (fun _ commentId =>
           if String.eqb commentId "c1" then FetchComment (Some 5)
           else FetchComment (Some 3))
        (fun i => if (i =? 2)%nat then Throw "service unavailable" else Ok "post")
        (fun i => Ok ("comment" +:+ pretty (Z.of_nat i)))
        (fun _ => Ok "job")
        (fun _ => 0%Q)
        (fun _ => "later").

Definition postFailsOnceWorld : World :=
  worldOf (Redis.mk (Some demoGame) (Some demoStory) (Some demoConfig) demoVotes)
    5000 postFailsOnceEnv.

(** ** More vocabulary: the defects of an uploaded story *)

(** The names every object inherits from [Object.prototype]; [obj[name]]
    is truthy for them on any object that does not define them itself.
    The lookups of the embedding see own properties only, so the
    statements that depend on a lookup under a name that the story
    chooses exclude these names. *)
Definition inheritedName (name : string) : bool :=
  bool_decide (In name ["constructor"; "toString"; "toLocaleString"; "valueOf";
                        "hasOwnProperty"; "isPrototypeOf"; "propertyIsEnumerable";
                        "__proto__"; "__defineGetter__"; "__defineSetter__";
                        "__lookupGetter__"; "__lookupSetter__"]).

(** A mandatory text field holds a non-empty string. *)
Definition validText (v : JS.value) : Prop :=
  exists s, v = Some (JS.JStr s) /\ s <> "".

(** [v.length > n] can be decided without converting a string or an
    array to a number, a conversion the embedding leaves out: [v] is not
    an object whose own [length] is a string or an array. *)
Definition numericLength (v : JS.value) : bool :=
  match v with
  | Some (JS.JObj kvs) =>
      match JS.assoc "length" kvs with
      | Some (JS.JStr _ | JS.JArr _) => false
      | _ => true
      end
  | _ => true
  end.

(** The title, the description and the [choices] of every node have a
    [numericLength]. *)
Definition numericLengths (parsedStory : JS.JSON) : bool :=
  numericLength (JS.get parsedStory "title")
  && numericLength (JS.get parsedStory "description")
  && forallb (fun kv => numericLength (JS.get (snd kv) "choices"))
       (JS.entries (JS.get parsedStory "nodes")).

(** The defects of the choice at [index] of node [nodeId], each with the
    error that reports it. *)
Inductive ChoiceDefect (nodeId : string) (index : nat) (allNodeIds : list string)
    (choice : JS.JSON) : string -> Prop :=
| Choice_without_id :
    ~ validText (JS.get choice "id") ->
    ChoiceDefect nodeId index allNodeIds choice
      (("Node " +:+ JS.quoted nodeId +:+ " choice " +:+ pretty (Z.of_nat index))
       +:+ " must have a valid id")
| Choice_without_text :
    ~ validText (JS.get choice "text") ->
    ChoiceDefect nodeId index allNodeIds choice
      (("Node " +:+ JS.quoted nodeId +:+ " choice " +:+ pretty (Z.of_nat index))
       +:+ " must have valid text")
| Choice_without_target :
    ~ validText (JS.get choice "nextNodeId") ->
    ChoiceDefect nodeId index allNodeIds choice
      (("Node " +:+ JS.quoted nodeId +:+ " choice " +:+ pretty (Z.of_nat index))
       +:+ " must have a valid nextNodeId")
| Choice_dangling next :
    JS.get choice "nextNodeId" = Some (JS.JStr next) ->
    next <> "" ->
    ~ In next allNodeIds ->
    ChoiceDefect nodeId index allNodeIds choice
      (("Node " +:+ JS.quoted nodeId +:+ " choice " +:+ pretty (Z.of_nat index))
       +:+ " references non-existent node " +:+ JS.quoted next).

(** The defects of the node stored under the key [nodeId]. *)
Inductive NodeDefect (nodeId : string) (allNodeIds : list string) (node : JS.JSON)
  : string -> Prop :=
| Node_other_id :
    ~ (JS.get node "id" = Some (JS.JStr nodeId) /\ nodeId <> "") ->
    NodeDefect nodeId allNodeIds node
      ("Node " +:+ JS.quoted nodeId +:+ " must have matching id field")
| Node_without_title :
    ~ validText (JS.get node "title") ->
    NodeDefect nodeId allNodeIds node
      ("Node " +:+ JS.quoted nodeId +:+ " must have a valid title")
| Node_without_content :
    ~ validText (JS.get node "content") ->
    NodeDefect nodeId allNodeIds node
      ("Node " +:+ JS.quoted nodeId +:+ " must have valid content")
| Node_image_not_text :
    JS.truthy (JS.get node "imageUrl") = true ->
    (forall s, JS.get node "imageUrl" <> Some (JS.JStr s)) ->
    NodeDefect nodeId allNodeIds node
      ("Node " +:+ JS.quoted nodeId +:+ " imageUrl must be a string")
| Node_choices_not_array :
    JS.truthy (JS.get node "choices") = true ->
    (forall choices, JS.get node "choices" <> Some (JS.JArr choices)) ->
    NodeDefect nodeId allNodeIds node
      ("Node " +:+ JS.quoted nodeId +:+ " choices must be an array")
| Node_choice choices index choice e :
    JS.get node "choices" = Some (JS.JArr choices) ->
    choices !! index = Some choice ->
    ChoiceDefect nodeId index allNodeIds choice e ->
    NodeDefect nodeId allNodeIds node e
| Node_end_with_choices choice choices :
    JS.truthy (JS.get node "isEnd") = true ->
    JS.get node "choices" = Some (JS.JArr (choice :: choices)) ->
    NodeDefect nodeId allNodeIds node
      ("End node " +:+ JS.quoted nodeId +:+ " should not have choices")
| Node_without_choices :
    JS.truthy (JS.get node "isEnd") = false ->
    JS.truthy (JS.get node "choices") = false
    \/ JS.get node "choices" = Some (JS.JArr []) ->
    NodeDefect nodeId allNodeIds node
      ("Non-end node " +:+ JS.quoted nodeId +:+ " must have at least one choice").

(** [nodes] is what [typeof nodes === 'object'] accepts besides [null]:
    an object or an array. *)
Definition isObject (nodes : JS.JSON) : Prop :=
  match nodes with
  | JS.JObj _ | JS.JArr _ => True
  | _ => False
  end.

(** The defects of an uploaded story, each with the error that reports
    it: those of the top-level fields and those of every node. *)
Inductive StoryDefect (parsedStory : JS.JSON) : string -> Prop :=
| Story_without_title :
    ~ validText (JS.get parsedStory "title") ->
    StoryDefect parsedStory
      ("Story must have a valid " +:+ JS.quoted "title" +:+ " field")
| Story_without_description :
    ~ validText (JS.get parsedStory "description") ->
    StoryDefect parsedStory
      ("Story must have a valid " +:+ JS.quoted "description" +:+ " field")
| Story_without_start :
    ~ validText (JS.get parsedStory "startNodeId") ->
    StoryDefect parsedStory
      ("Story must have a valid " +:+ JS.quoted "startNodeId" +:+ " field")
| Story_without_nodes nodes :
    JS.get parsedStory "nodes" = Some nodes ->
    ~ isObject nodes ->
    StoryDefect parsedStory ("Story must have a " +:+ JS.quoted "nodes" +:+ " object")
| Story_empty nodes :
    JS.get parsedStory "nodes" = Some nodes ->
    isObject nodes ->
    JS.entries (Some nodes) = [] ->
    StoryDefect parsedStory "Story must have at least one node"
| Story_start_missing nodes startNodeId :
    JS.get parsedStory "nodes" = Some (JS.JObj nodes) ->
    JS.get parsedStory "startNodeId" = Some (JS.JStr startNodeId) ->
    startNodeId <> "" ->
    JS.truthy (JS.assoc startNodeId nodes) = false ->
    inheritedName startNodeId = false ->
    StoryDefect parsedStory
      ("Start node " +:+ JS.quoted startNodeId +:+ " not found in nodes")
| Story_node nodes nodeId node e :
    JS.get parsedStory "nodes" = Some nodes ->
    isObject nodes ->
    In nodeId (map fst (JS.entries (Some nodes))) ->
    JS.get nodes nodeId = Some node ->
    NodeDefect nodeId (map fst (JS.entries (Some nodes))) node e ->
    StoryDefect parsedStory e.

(** ** The bound on the traversal of [findReachableNodes] *)

(** The items the choices of the node under [key] can put on the stack. *)
Definition choiceItems (key : string) (choices : JS.value) : list SettingsHandler.Item :=
  match choices with
  | Some ((JS.JArr _ | JS.JStr _) as iterable) =>
      imap (fun index choice =>
              SettingsHandler.item_of (Some (key, index)) (JS.get choice "nextNodeId"))
        (map snd (JS.entries (Some iterable)))
  | _ => []
  end.

(** Every item the traversal can meet: the start item and the items of
    all choices. *)
Definition universe (parsedStory nodes : JS.JSON) : list SettingsHandler.Item :=
  SettingsHandler.item_of None (JS.get parsedStory "startNodeId")
  :: flat_map (fun kv => choiceItems (fst kv) (JS.get (snd kv) "choices"))
       (JS.entries (Some nodes)).

(** The items of [items] that the traversal has not reached yet. *)
Definition unvisited (items reachable : list SettingsHandler.Item) : nat :=
  length (List.filter (fun x => negb (SettingsHandler.has reachable x)) items).

(** ** More vocabulary: the references of a story *)

(** The story looks up no inherited name: neither its start id nor the
    target of any of its choices is one. *)
Definition ownNames (story : Story.t) : bool :=
  negb (inheritedName (Story.startNodeId story))
  && forallb (fun kv =>
                forallb (fun choice => negb (inheritedName (Choice.nextNodeId choice)))
                  (default [] (StoryNode.choices (snd kv))))
       (Story.nodes story).

(** No story that an instance works with in [w] looks up an inherited
    name. *)
Definition ownNamesIn (w : World) : Prop :=
  forall e story, storyOf e w = Some story -> ownNames story = true.

(** The start node exists, every choice of every node leads to a node of
    the story, and some node is an end node. *)
Definition soundReferences (story : Story.t) : Prop :=
  is_Some (Story.node story (Story.startNodeId story))
  /\ (forall id node choice,
         In id (Story.nodeIds story) ->
         Story.node story id = Some node ->
         In choice (default [] (StoryNode.choices node)) ->
         is_Some (Story.node story (Choice.nextNodeId choice)))
  /\ exists id node,
       In id (Story.nodeIds story)
       /\ Story.node story id = Some node
       /\ StoryNode.isEnd node = Some true.

(* ================================================================== *)
(** * Properties *)
(* ================================================================== *)

(** ** The store: [completeGame] *)

(** C10.  For every stored game state, [completeGame] sets [isActive] to
    false and leaves every other field of the game state
    ([currentNodeId], [roundNumber], [storyPath], [roundStartTime],
    [roundDurationHours], [testMode]) as it was; when no game state is
    stored it returns without error and the world, the store included, is
    unchanged. *)
Theorem completeGame_clears_only_isActive :
  (forall w g,
      Redis.GAME_STATE (redis w) = Some g ->
      exists w',
        RedisManager.completeGame w = (w', Ok tt)
        /\ Redis.GAME_STATE (redis w')
           = Some (GameState.mk (GameState.currentNodeId g) (GameState.roundNumber g)
                     (GameState.storyPath g) false (GameState.roundStartTime g)
                     (GameState.roundDurationHours g) (GameState.testMode g)))
  /\ (forall w,
         Redis.GAME_STATE (redis w) = None ->
         RedisManager.completeGame w = (w, Ok tt)).
Proof.
  split.
  - intros w g Hg.
    unfold RedisManager.completeGame, RedisManager.getGameState, bind, get_redis, ret.
    rewrite Hg. cbn.
    destruct (Redis.CONFIG (redis w)); cbn; eexists; split; reflexivity.
  - intros w Hg.
    unfold RedisManager.completeGame, RedisManager.getGameState, bind, get_redis, ret.
    rewrite Hg. reflexivity.
Qed.

Lemma completeGame_clears_only_isActive_witness :
  (exists w',
      RedisManager.completeGame (demoWorld (Ok "post")) = (w', Ok tt)
      /\ Redis.GAME_STATE (redis w')
         = Some (GameState.mk "start" 1 ["start"] false 1000 24 (Some false)))
  /\ RedisManager.completeGame (worldOf Redis.empty 0 (demoEnv (Ok "post")))
     = (worldOf Redis.empty 0 (demoEnv (Ok "post")), Ok tt).
Proof.
  split.
  - apply (proj1 completeGame_clears_only_isActive (demoWorld (Ok "post")) demoGame).
    reflexivity.
  - apply (proj2 completeGame_clears_only_isActive).
    reflexivity.
Defined.

(** ** Time left in a round *)

(** The engine's [getTimeRemainingInRound] on an active game is
    [max(0, roundStartTime + roundDuration - now)], the duration being
    read in minutes in test mode and in hours otherwise. *)
Lemma getTimeRemainingInRound_active w g :
  Redis.GAME_STATE (redis w) = Some g ->
  GameState.isActive g = true ->
  StoryEngine.getTimeRemainingInRound w
  = (w, Ok (Z.max 0 (GameState.roundStartTime g + StoryEngine.roundDurationMs g - now w))).
Proof.
  intros Hg Ha.
  unfold StoryEngine.getTimeRemainingInRound, StoryEngine.getGameState,
    RedisManager.getGameState, bind, get_redis, ret, date_now.
  rewrite Hg, Ha. cbn. do 3 f_equal. lia.
Qed.

(** Outside test mode the scheduler's [getNextScheduledRound] computes the
    same time left as the engine. *)
Lemma timeRemaining_agree_outside_test_mode w g :
  Redis.GAME_STATE (redis w) = Some g ->
  GameState.isActive g = true ->
  GameState.testMode g <> Some true ->
  exists remaining,
    snd (StoryEngine.getTimeRemainingInRound w) = Ok remaining
    /\ snd (SchedulerHandler.getNextScheduledRound w)
       = Ok (Some (GameState.roundNumber g,
                   GameState.roundStartTime g
                   + GameState.roundDurationHours g * 60 * 60 * 1000,
                   remaining)).
Proof.
  intros Hg Ha Ht.
  rewrite (getTimeRemainingInRound_active w g Hg Ha).
  eexists; split; [reflexivity|].
  unfold SchedulerHandler.getNextScheduledRound, StoryEngine.getGameState,
    RedisManager.getGameState, bind, get_redis, ret, date_now.
  rewrite Hg, Ha. cbn. do 4 f_equal.
  unfold StoryEngine.roundDurationMs.
  destruct (GameState.testMode g) as [[|]|]; try congruence; lia.
Qed.

(** C9, where the code departs from the claim.  For every active game in
    test mode whose round, read in hours, is not over yet: the engine's
    [getTimeRemainingInRound] reads the duration in minutes, the
    scheduler's [getNextScheduledRound] reads the same number in hours,
    and the scheduler reports strictly more time left than the engine. *)
Theorem timeRemaining_scheduler_ignores_test_mode w g :
  Redis.GAME_STATE (redis w) = Some g ->
  GameState.isActive g = true ->
  GameState.testMode g = Some true ->
  0 < GameState.roundDurationHours g ->
  now w < GameState.roundStartTime g + GameState.roundDurationHours g * 60 * 60 * 1000 ->
  exists engine scheduler,
    snd (StoryEngine.getTimeRemainingInRound w) = Ok engine
    /\ snd (SchedulerHandler.getNextScheduledRound w)
       = Ok (Some (GameState.roundNumber g,
                   GameState.roundStartTime g
                   + GameState.roundDurationHours g * 60 * 60 * 1000,
                   scheduler))
    /\ engine = Z.max 0 (GameState.roundStartTime g
                         + GameState.roundDurationHours g * 60 * 1000 - now w)
    /\ scheduler = GameState.roundStartTime g
                   + GameState.roundDurationHours g * 60 * 60 * 1000 - now w
    /\ engine < scheduler.
Proof.
  intros Hg Ha Ht Hd Hnow.
  rewrite (getTimeRemainingInRound_active w g Hg Ha).
  unfold SchedulerHandler.getNextScheduledRound, StoryEngine.getGameState,
    RedisManager.getGameState, bind, get_redis, ret, date_now.
  rewrite Hg, Ha. cbn.
  unfold StoryEngine.roundDurationMs. rewrite Ht.
  exists (Z.max 0 (GameState.roundStartTime g
                   + GameState.roundDurationHours g * 60 * 1000 - now w)),
    (GameState.roundStartTime g + GameState.roundDurationHours g * 60 * 60 * 1000 - now w).
  split; [reflexivity|]. split; [do 4 f_equal; lia|].
  repeat split. lia.
Qed.

Lemma timeRemaining_scheduler_ignores_test_mode_witness :
  exists engine scheduler,
    snd (StoryEngine.getTimeRemainingInRound (testModeWorld 120000)) = Ok engine
    /\ snd (SchedulerHandler.getNextScheduledRound (testModeWorld 120000))
       = Ok (Some (1, 0 + 2 * 60 * 60 * 1000, scheduler))
    /\ engine = Z.max 0 (0 + 2 * 60 * 1000 - 120000)
    /\ scheduler = 0 + 2 * 60 * 60 * 1000 - 120000
    /\ engine < scheduler.
Proof.
  apply (timeRemaining_scheduler_ignores_test_mode (testModeWorld 120000) testModeGame);
    reflexivity.
Defined.

(** The same, evaluated: in a test-mode game with two-minute rounds started
    at time 0, two minutes later, the engine answers 0 (the round is over)
    and the scheduler answers 7 080 000 ms left. *)
Lemma timeRemaining_disagree_in_test_mode :
  snd (StoryEngine.getTimeRemainingInRound (testModeWorld 120000)) = Ok 0
  /\ snd (SchedulerHandler.getNextScheduledRound (testModeWorld 120000))
     = Ok (Some (1, 7200000, 7080000)).
Proof. split; reflexivity. Qed.

(** ** The state machine: loading the story, reset, advance *)

(** Loading the story changes nothing but the instance's cache, and the
    story the instance works with stays the same. *)
Lemma loadCurrentStory_storyOf e w :
  exists w',
    StoryEngine.loadCurrentStory e w = (w', Ok (storyOf e w))
    /\ redis w' = redis w /\ now w' = now w /\ log w' = log w /\ calls w' = calls w
    /\ env w' = env w
    /\ storyOf e w' = storyOf e w.
Proof.
  unfold StoryEngine.loadCurrentStory, storyOf, bind, get_currentStory, ret,
    RedisManager.getStoryData, get_redis, set_currentStory.
  destruct (currentStory e w) as [s|] eqn:Hc.
  - eexists; repeat split; try reflexivity. rewrite Hc. reflexivity.
  - destruct e; cbn; eexists; repeat split; try reflexivity; cbn;
      destruct (Redis.STORY_DATA (redis w)); reflexivity.
Qed.

(** C8 (as amended).  With a story and a configuration stored, [resetGame]
    succeeds and starts the game over: the stored game state is active,
    in round 1, at the start node, with the path [[startNodeId]] and the
    round duration of the stored configuration; the stored story is
    untouched and the configuration keeps its round duration and
    subreddit. *)
Theorem resetGame_reinitialises e w story config :
  storyOf e w = Some story ->
  Redis.CONFIG (redis w) = Some config ->
  exists w' g',
    StoryEngine.resetGame e w = (w', Ok tt)
    /\ Redis.GAME_STATE (redis w') = Some g'
    /\ GameState.isActive g' = true
    /\ GameState.roundNumber g' = 1
    /\ GameState.storyPath g' = [Story.startNodeId story]
    /\ GameState.currentNodeId g' = Story.startNodeId story
    /\ GameState.roundStartTime g' = now w
    /\ GameState.roundDurationHours g' = AppConfig.roundDurationHours config
    /\ Redis.STORY_DATA (redis w') = Redis.STORY_DATA (redis w)
    /\ Redis.CONFIG (redis w')
       = Some (AppConfig.mk (AppConfig.roundDurationHours config) true
                 (AppConfig.subredditName config)).
Proof.
  intros Hs Hc.
  destruct (loadCurrentStory_storyOf e w) as (w1 & Hl & Hr & Hn & _).
  unfold StoryEngine.resetGame, try_catch, bind.
  rewrite Hl, Hs.
  unfold RedisManager.getConfiguration, bind, get_redis, ret. rewrite Hr, Hc.
  unfold RedisManager.initializeNewGame, RedisManager.clearGameData,
    RedisManager.getGameState, RedisManager.setGameState, RedisManager.setConfiguration,
    bind, get_redis, put_redis, ret, date_now.
  cbn. rewrite Hr.
  destruct (Redis.GAME_STATE (redis w)); cbn; rewrite ?Hn, ?Hr;
    do 2 eexists; repeat split; reflexivity.
Qed.

Lemma resetGame_reinitialises_witness :
  exists w' g',
    StoryEngine.resetGame OfSettings (demoWorld (Ok "post")) = (w', Ok tt)
    /\ Redis.GAME_STATE (redis w') = Some g'
    /\ GameState.isActive g' = true
    /\ GameState.roundNumber g' = 1
    /\ GameState.storyPath g' = ["start"]
    /\ GameState.currentNodeId g' = "start"
    /\ GameState.roundStartTime g' = 5000
    /\ GameState.roundDurationHours g' = 24
    /\ Redis.STORY_DATA (redis w') = Some demoStory
    /\ Redis.CONFIG (redis w') = Some (AppConfig.mk 24 true "adventures").
Proof.
  apply (resetGame_reinitialises OfSettings (demoWorld (Ok "post")) demoStory demoConfig);
    reflexivity.
Defined.

(** C8, the claim as stated, fails: resetting the running demo game does
    not clear [isActive] (the claim says it does), and resetting the
    test-mode game turns its unit from minutes to hours. *)
Lemma resetGame_leaves_game_active :
  (GameState.isActive
     <$> Redis.GAME_STATE (redis (fst (StoryEngine.resetGame OfSettings
                                         (demoWorld (Ok "post"))))))
  = Some true
  /\ (GameState.testMode <$> Redis.GAME_STATE (redis (testModeWorld 0)))
     = Some (Some true)
  /\ (GameState.testMode
        <$> Redis.GAME_STATE (redis (fst (StoryEngine.resetGame OfSettings
                                            (testModeWorld 0)))))
     = Some (Some false).
Proof. repeat split. Qed.

Lemma getCurrentNode_ok e w w' node :
  StoryEngine.getCurrentNode e w = (w', Ok (Some node)) ->
  exists story g,
    storyOf e w = Some story
    /\ Redis.GAME_STATE (redis w) = Some g
    /\ GameState.isActive g = true
    /\ Story.node story (GameState.currentNodeId g) = Some node
    /\ redis w' = redis w /\ now w' = now w /\ log w' = log w /\ calls w' = calls w
    /\ env w' = env w
    /\ storyOf e w' = storyOf e w.
Proof.
  destruct (loadCurrentStory_storyOf e w)
    as (w1 & Hl & Hr & Hn & Hlog & Hcalls & Henv & Hs).
  unfold StoryEngine.getCurrentNode, try_catch, bind, throw. rewrite Hl.
  destruct (storyOf e w) as [story|] eqn:Hstory; [|cbn; congruence].
  unfold RedisManager.getGameState, bind, get_redis, ret. rewrite Hr.
  destruct (Redis.GAME_STATE (redis w)) as [g|] eqn:Hg; [|cbn; congruence].
  destruct (GameState.isActive g) eqn:Ha; cbn; [|congruence].
  destruct (Story.node story (GameState.currentNodeId g)) as [n|] eqn:Hnode;
    cbn; [|congruence].
  intros [= <- <-]. exists story, g. repeat split; auto.
Qed.

(** What one successful [advanceStoryByChoice] did. *)
Lemma advanceStoryByChoice_ok e choiceId w w' :
  StoryEngine.advanceStoryByChoice e choiceId w = (w', Ok tt) ->
  exists story g node choices choice,
    storyOf e w = Some story
    /\ Redis.GAME_STATE (redis w) = Some g
    /\ GameState.isActive g = true
    /\ Story.node story (GameState.currentNodeId g) = Some node
    /\ StoryNode.choices node = Some choices
    /\ List.find (fun c => String.eqb (Choice.id c) choiceId) choices = Some choice
    /\ Redis.GAME_STATE (redis w')
       = Some (GameState.mk (Choice.nextNodeId choice) (GameState.roundNumber g + 1)
                 (StoryEngine.pushUnlessLast (GameState.storyPath g)
                    (Choice.nextNodeId choice))
                 (GameState.isActive g) (now w)
                 (GameState.roundDurationHours g) (GameState.testMode g))
    /\ storyOf e w' = Some story.
Proof.
  unfold StoryEngine.advanceStoryByChoice, try_catch, bind, throw.
  destruct (StoryEngine.getCurrentNode e w) as [w1 [[node|]|m]] eqn:Hcur;
    [|cbn; congruence|cbn; congruence].
  apply getCurrentNode_ok in Hcur
    as (story & g & Hstory & Hg & Ha & Hnode & Hr & Hn & _ & _ & _ & Hs).
  destruct (StoryNode.choices node) as [[|c cs]|] eqn:Hch;
    [cbn; congruence| |cbn; congruence].
  destruct (List.find _ (c :: cs)) as [choice|] eqn:Hfind; [|cbn; congruence].
  unfold RedisManager.getGameState, RedisManager.setGameState, bind, get_redis,
    put_redis, ret, date_now.
  rewrite Hr, Hg. cbn. intros [= <-].
  exists story, g, node, (c :: cs), choice. cbn. rewrite Hn.
  repeat split; auto.
  rewrite <- Hstory, <- Hs. unfold storyOf. destruct e; cbn; rewrite ?Hr; reflexivity.
Qed.

Lemma noConsecutiveDuplicates_push path nodeId :
  noConsecutiveDuplicates path ->
  noConsecutiveDuplicates (StoryEngine.pushUnlessLast path nodeId).
Proof.
  unfold StoryEngine.pushUnlessLast.
  induction path as [|a [|b rest] IH]; intros H.
  - exact I.
  - cbn. destruct (String.eqb_spec a nodeId); cbn; auto.
  - destruct H as [Hab H]. specialize (IH H).
    change (last (a :: b :: rest)) with (last (b :: rest)).
    destruct (last (b :: rest)) as [l|].
    + destruct (String.eqb l nodeId).
      * split; assumption.
      * cbn in *. split; assumption.
    + cbn in *. split; assumption.
Qed.

(** C4.  After N successive successful [advanceStoryByChoice] calls, from
    a game state whose path has no two equal neighbours: the round number
    is the initial one plus N; the calls followed edges of the story, each
    one moving to the [nextNodeId] of the chosen choice, so that the
    current node is the last node arrived at; the path is the initial path
    extended, node by node, with the guarded push (nothing is appended when
    the path already ends in the node); and the path still has no two
    equal neighbours. *)
Theorem advance_sequence e choiceIds : forall w w' g story,
  Redis.GAME_STATE (redis w) = Some g ->
  storyOf e w = Some story ->
  noConsecutiveDuplicates (GameState.storyPath g) ->
  advanceAll e choiceIds w = (w', Ok tt) ->
  exists g' visited,
    Redis.GAME_STATE (redis w') = Some g'
    /\ Walk story (GameState.currentNodeId g) choiceIds visited
    /\ GameState.roundNumber g' = GameState.roundNumber g + Z.of_nat (length choiceIds)
    /\ last (GameState.currentNodeId g :: visited) = Some (GameState.currentNodeId g')
    /\ GameState.storyPath g'
       = fold_left StoryEngine.pushUnlessLast visited (GameState.storyPath g)
    /\ noConsecutiveDuplicates (GameState.storyPath g').
Proof.
  induction choiceIds as [|choiceId rest IH]; intros w w' g story Hg Hstory Hpath Hrun.
  - cbn in Hrun. injection Hrun as <-.
    exists g, []. repeat split; auto. constructor. cbn; lia.
  - cbn [advanceAll] in Hrun. unfold bind in Hrun.
    destruct (StoryEngine.advanceStoryByChoice e choiceId w) as [w1 [[]|m]] eqn:Hadv;
      [|congruence].
    apply advanceStoryByChoice_ok in Hadv
      as (story1 & g1 & node & choices & choice & Hs1 & Hg1 & Ha & Hnode & Hch & Hfind
          & Hg' & Hs').
    rewrite Hg in Hg1. injection Hg1 as <-.
    rewrite Hstory in Hs1. injection Hs1 as <-.
    pose proof (noConsecutiveDuplicates_push _ (Choice.nextNodeId choice) Hpath)
      as Hpush.
    destruct (IH _ _ _ _ Hg' Hs' Hpush Hrun)
      as (g' & visited & Hfinal & Hwalk & Hround & Hcur & Hp & Hnd).
    cbn in *.
    exists g', (Choice.nextNodeId choice :: visited). repeat split; auto.
    + econstructor; eauto.
    + lia.
Qed.

Lemma advance_sequence_witness :
  exists g' visited,
    Redis.GAME_STATE (redis (fst (advanceAll OfScheduler ["A"; "A"]
                                    (demoWorld (Ok "post"))))) = Some g'
    /\ Walk demoStory "start" ["A"; "A"] visited
    /\ GameState.roundNumber g' = 1 + 2
    /\ last ("start" :: visited) = Some (GameState.currentNodeId g')
    /\ GameState.storyPath g'
       = fold_left StoryEngine.pushUnlessLast visited ["start"]
    /\ noConsecutiveDuplicates (GameState.storyPath g').
Proof.
  apply (advance_sequence OfScheduler ["A"; "A"] (demoWorld (Ok "post")) _
           demoGame demoStory); reflexivity.
Defined.

(** ** The tally: sorting, tie-break, failed fetches *)

Section Tally.
Import VoteCounter.

Lemma insertByUpvotes_perm x l : Permutation (insertByUpvotes x l) (x :: l).
Proof.
  induction l as [|y l IH]; cbn; [reflexivity|].
  destruct (_ <? _); [|reflexivity].
  rewrite IH. apply perm_swap.
Qed.

Lemma sortByUpvotes_perm l : Permutation (sortByUpvotes l) l.
Proof.
  induction l as [|x l IH]; cbn; [reflexivity|].
  rewrite insertByUpvotes_perm. constructor. exact IH.
Qed.

Lemma insertByUpvotes_sorted x l :
  StronglySorted descending l -> StronglySorted descending (insertByUpvotes x l).
Proof.
  induction 1 as [|y l Hs IH Hall]; cbn.
  - repeat constructor.
  - destruct (VoteResult.upvotes x <? VoteResult.upvotes y) eqn:Hlt.
    + constructor; [exact IH|].
      rewrite insertByUpvotes_perm. constructor; [|exact Hall].
      unfold descending. lia.
    + constructor; [constructor; assumption|].
      constructor; [unfold descending; lia|].
      eapply Forall_impl; [exact Hall|]. unfold descending. intros; lia.
Qed.

Lemma sortByUpvotes_sorted l : StronglySorted descending (sortByUpvotes l).
Proof.
  induction l as [|x l IH]; cbn; [constructor|].
  apply insertByUpvotes_sorted, IH.
Qed.

(** Stability: the entries with one score keep their order. *)
Lemma insertByUpvotes_same_score k x l :
  List.filter (fun r => VoteResult.upvotes r =? k) (insertByUpvotes x l)
  = List.filter (fun r => VoteResult.upvotes r =? k) (x :: l).
Proof.
  induction l as [|y l IH]; [reflexivity|].
  cbn [insertByUpvotes].
  destruct (VoteResult.upvotes x <? VoteResult.upvotes y) eqn:Hlt; [|reflexivity].
  cbn [List.filter] in *. rewrite IH.
  destruct (VoteResult.upvotes x =? k) eqn:Hx, (VoteResult.upvotes y =? k) eqn:Hy;
    try reflexivity.
  lia.
Qed.

Lemma sortByUpvotes_same_score k l :
  List.filter (fun r => VoteResult.upvotes r =? k) (sortByUpvotes l)
  = List.filter (fun r => VoteResult.upvotes r =? k) l.
Proof.
  induction l as [|x l IH]; [reflexivity|].
  cbn [sortByUpvotes foldr]. fold (sortByUpvotes l).
  rewrite insertByUpvotes_same_score. cbn [List.filter]. rewrite IH. reflexivity.
Qed.

Lemma filter_sorted (p : VoteResult.t -> bool) l :
  StronglySorted descending l -> StronglySorted descending (List.filter p l).
Proof.
  induction 1 as [|y l Hs IH Hall]; cbn; [constructor|].
  destruct (p y); [|exact IH].
  constructor; [exact IH|].
  rewrite List.Forall_forall in *. intros r Hr. apply Hall.
  apply filter_In in Hr. tauto.
Qed.

Lemma maxUpvotes_bound l m :
  maxUpvotes l = Some m ->
  Forall (fun r => VoteResult.upvotes r <= m) l
  /\ Exists (fun r => VoteResult.upvotes r = m) l.
Proof.
  revert m. induction l as [|x l IH]; intros m; cbn; [congruence|].
  destruct (maxUpvotes l) as [m'|] eqn:Hm.
  - intros [= <-]. destruct (IH m' eq_refl) as [Hall Hex]. split.
    + constructor; [lia|]. eapply Forall_impl; [exact Hall|]. cbn. intros; lia.
    + destruct (Z.max_spec (VoteResult.upvotes x) m') as [[? ->]|[? ->]].
      * right. exact Hex.
      * left. reflexivity.
  - intros [= <-]. destruct l; [|cbn in Hm; congruence].
    split; repeat constructor. lia.
Qed.

Lemma maxUpvotes_perm l l' :
  Permutation l l' -> maxUpvotes l = maxUpvotes l'.
Proof.
  intros Hp.
  destruct (maxUpvotes l) as [m|] eqn:Hm, (maxUpvotes l') as [m'|] eqn:Hm'.
  - apply maxUpvotes_bound in Hm as [Ha He], Hm' as [Ha' He'].
    rewrite List.Forall_forall in Ha, Ha'. rewrite List.Exists_exists in He, He'.
    destruct He as (r & Hr & <-), He' as (r' & Hr' & <-).
    f_equal. apply Z.le_antisymm.
    + apply Ha'. eapply Permutation_in; [exact Hp|assumption].
    + apply Ha. eapply Permutation_in; [symmetry; exact Hp|assumption].
  - destruct l'; [|cbn in Hm'; congruence].
    apply Permutation_nil_r in Hp. subst. discriminate.
  - destruct l; [|cbn in Hm; congruence].
    apply Permutation_nil in Hp. subst. discriminate.
  - reflexivity.
Qed.

Lemma maxUpvotes_head x l :
  StronglySorted descending (x :: l) -> maxUpvotes (x :: l) = Some (VoteResult.upvotes x).
Proof.
  intros Hs. apply StronglySorted_inv in Hs as [_ Hall].
  cbn. destruct (maxUpvotes l) as [m|] eqn:Hm; [|reflexivity].
  apply maxUpvotes_bound in Hm as [_ He]. rewrite List.Exists_exists in He.
  destruct He as (r & Hr & <-). rewrite List.Forall_forall in Hall.
  specialize (Hall r Hr). unfold descending in Hall. f_equal. lia.
Qed.

Lemma filter_perm {A} (p : A -> bool) l l' :
  Permutation l l' -> Permutation (List.filter p l) (List.filter p l').
Proof.
  induction 1; cbn; try reflexivity.
  - destruct (p x); [constructor|]; assumption.
  - destruct (p x), (p y); try reflexivity. apply perm_swap.
  - etransitivity; eassumption.
Qed.

Lemma filter_comm {A} (p q : A -> bool) l :
  List.filter p (List.filter q l) = List.filter q (List.filter p l).
Proof.
  induction l as [|x l IH]; [reflexivity|]. cbn.
  destruct (p x) eqn:Hp, (q x) eqn:Hq; cbn; rewrite ?Hp, ?Hq, IH; reflexivity.
Qed.

Lemma head_filter_find {A} (p : A -> bool) l : head (List.filter p l) = List.find p l.
Proof.
  induction l as [|x l IH]; [reflexivity|]. cbn. destruct (p x); [reflexivity|exact IH].
Qed.

(** The pure core: without random tie-breaking the winner picked from the
    sorted tally is the first entry, in tally order, among the valid
    entries with the highest score. *)
Lemma pickWinner_first cfg tally w :
  randomTieBreaking cfg = false ->
  pickWinner cfg (sortByUpvotes tally) w
  = (w, Ok (firstInTallyOrder (minimumVotes cfg) tally)).
Proof.
  intros Hrandom. unfold pickWinner, firstInTallyOrder.
  set (valid := fun r => minimumVotes cfg <=? VoteResult.upvotes r).
  pose proof (sortByUpvotes_perm tally) as Hperm.
  pose proof (filter_perm valid _ _ Hperm) as Hvalid.
  pose proof (filter_sorted valid _ (sortByUpvotes_sorted tally)) as Hsorted.
  destruct (sortByUpvotes tally) as [|s0 srest] eqn:Hsort.
  { apply Permutation_nil in Hperm. subst. reflexivity. }
  rewrite <- Hsort in *. clear s0 srest Hsort.
  rewrite <- (maxUpvotes_perm _ _ Hvalid).
  destruct (List.filter valid (sortByUpvotes tally)) as [|first rest] eqn:Hv.
  { reflexivity. }
  rewrite (maxUpvotes_head _ _ Hsorted).
  rewrite <- Hv, filter_comm, sortByUpvotes_same_score, filter_comm.
  rewrite <- head_filter_find.
  assert (Hin : In first (List.filter valid (sortByUpvotes tally)))
    by (rewrite Hv; left; reflexivity).
  apply filter_In in Hin as [Hin Hfv].
  assert (Hne : In first (List.filter (fun r => VoteResult.upvotes r =? VoteResult.upvotes first)
                            (List.filter valid tally))).
  { apply filter_In. split; [|lia]. apply filter_In. split; [|exact Hfv].
    eapply Permutation_in; [exact Hperm|exact Hin]. }
  destruct (List.filter _ (List.filter valid tally)) as [|t0 [|t1 ts]]; [destruct Hne| |].
  - reflexivity.
  - unfold resolveTie, choiceIdAt, bind, ret. rewrite Hrandom. reflexivity.
Qed.

Lemma fetchLoop_frame cfg commentId : forall remaining attempt lastError w w' r,
  fetchLoop cfg commentId remaining attempt lastError w = (w', r) ->
  redis w' = redis w /\ env w' = env w.
Proof.
  induction remaining as [|remaining IH]; intros attempt lastError w w' r; cbn.
  - unfold throw. intros [= <- <-]. auto.
  - unfold bind, external, sleep, ret.
    destruct (reddit_getCommentById (env w) (calls w) commentId) eqn:Hf;
      try (destruct (attempt <? maxRetries cfg); intros H; apply IH in H; cbn in H;
           exact H).
    intros [= <- <-]. auto.
Qed.

Lemma fetchLoop_exhausted cfg commentId : forall remaining attempt lastError w,
  attempt + Z.of_nat remaining = maxRetries cfg + 1 ->
  (forall a : nat, (a < remaining)%nat ->
     fetchFails (reddit_getCommentById (env w) (calls w + a) commentId)) ->
  exists w' message,
    fetchLoop cfg commentId remaining attempt lastError w = (w', Throw message)
    /\ calls w' = (calls w + remaining)%nat
    /\ log w' = log w ++ map (fun a => Sleep VoteBackoff (backoffDelay a))
                          (seqZ attempt (Z.of_nat remaining - 1)).
Proof.
  induction remaining as [|remaining IH]; intros attempt lastError w Hbudget Hfail.
  - cbn. unfold throw. do 2 eexists. split; [reflexivity|].
    split; [lia|]. cbn. rewrite app_nil_r. reflexivity.
  - cbn [fetchLoop]. unfold bind, external.
    pose proof (Hfail O ltac:(lia)) as Hfirst. rewrite Nat.add_0_r in Hfirst.
    set (continue := fun message w1 =>
           fetchLoop cfg commentId remaining (attempt + 1) (Some message) w1).
    assert (Hstep : forall message,
      exists w' m,
        (let (w1, r) :=
           (if attempt <? maxRetries cfg then sleep VoteBackoff (backoffDelay attempt)
            else ret tt)
             (mkWorld (redis w) (now w) (S (calls w)) (log w) (env w)
                (story_sched w) (story_post w) (story_vote w) (story_settings w)) in
         match r with
         | Ok _ => continue message w1
         | Throw e => (w1, Throw e)
         end) = (w', Throw m)
        /\ calls w' = (calls w + S remaining)%nat
        /\ log w' = log w ++ map (fun a => Sleep VoteBackoff (backoffDelay a))
                              (seqZ attempt (Z.of_nat (S remaining) - 1))).
    { intros message. unfold continue.
      destruct (attempt <? maxRetries cfg) eqn:Hlt.
      - unfold sleep. cbn.
        edestruct (IH (attempt + 1) (Some message)) as (w' & m & Hrun & Hcalls & Hlog);
          [| |exists w', m; split; [exact Hrun|]].
        + lia.
        + cbn. intros a Ha. specialize (Hfail (S a) ltac:(lia)).
          replace (calls w + S a)%nat with (S (calls w + a)) in Hfail by lia.
          exact Hfail.
        + cbn in Hcalls, Hlog. split; [lia|]. rewrite Hlog, <- app_assoc. f_equal.
          apply Z.ltb_lt in Hlt.
          rewrite (seqZ_cons attempt) by lia. cbn. do 3 f_equal; lia.
      - unfold ret.
        edestruct (IH (attempt + 1) (Some message)) as (w' & m & Hrun & Hcalls & Hlog);
          [| |exists w', m; split; [exact Hrun|]].
        + lia.
        + cbn. intros a Ha. specialize (Hfail (S a) ltac:(lia)).
          replace (calls w + S a)%nat with (S (calls w + a)) in Hfail by lia.
          exact Hfail.
        + cbn in Hcalls, Hlog. split; [lia|]. rewrite Hlog.
          apply Z.ltb_ge in Hlt.
          assert (remaining = O) by lia. subst. reflexivity. }
    destruct (reddit_getCommentById (env w) (calls w) commentId); cbn in Hfirst;
      [apply Hstep|apply Hstep|destruct Hfirst].
Qed.

Lemma getCommentUpvotes_exhausted cfg commentId w :
  allAttemptsFail cfg commentId w ->
  exists w' message,
    getCommentUpvotes cfg commentId w = (w', Throw message)
    /\ calls w' = (calls w + Z.to_nat (maxRetries cfg))%nat
    /\ log w' = log w ++ backoffs cfg
    /\ redis w' = redis w /\ env w' = env w.
Proof.
  intros Hfail. unfold getCommentUpvotes, backoffs.
  destruct (Z.le_gt_cases 0 (maxRetries cfg)) as [Hpos|Hneg].
  - destruct (fetchLoop_exhausted cfg commentId (Z.to_nat (maxRetries cfg)) 1 None w)
      as (w' & m & Hrun & Hcalls & Hlog); [lia|exact Hfail|].
    exists w', m. rewrite Z2Nat.id in Hlog by lia.
    destruct (fetchLoop_frame _ _ _ _ _ _ _ _ Hrun). auto.
  - replace (Z.to_nat (maxRetries cfg)) with O by lia. cbn. unfold throw.
    do 2 eexists. split; [reflexivity|]. rewrite seqZ_nil by lia. cbn.
    rewrite app_nil_r. auto.
Qed.

Lemma countLoop_cons cfg choiceId commentId rest w :
  countLoop cfg ((choiceId, commentId) :: rest) w
  = (let (w1, r) := getCommentUpvotes cfg commentId w in
     let (w2, counted) := countLoop cfg rest w1 in
     match counted with
     | Ok results => (w2, Ok (VoteResult.mk choiceId commentId (scoreOf r) :: results))
     | Throw e => (w2, Throw e)
     end).
Proof.
  cbn [countLoop]. unfold bind, try_catch, ret.
  destruct (getCommentUpvotes cfg commentId w) as [w1 [upvotes|m]]; reflexivity.
Qed.

Lemma countLoop_total cfg entries : forall w,
  exists w' tally,
    countLoop cfg entries w = (w', Ok tally)
    /\ map tallyKey tally = entries
    /\ redis w' = redis w /\ env w' = env w.
Proof.
  induction entries as [|[choiceId commentId] rest IH]; intros w.
  - exists w, []. auto.
  - rewrite countLoop_cons.
    destruct (getCommentUpvotes cfg commentId w) as [w1 r] eqn:Hfetch.
    destruct (fetchLoop_frame _ _ _ _ _ _ _ _ Hfetch) as [Hr He].
    destruct (IH w1) as (w' & tally & Hrun & Hkeys & Hr' & He').
    rewrite Hrun. eexists _, (_ :: tally). split; [reflexivity|].
    cbn. rewrite Hkeys. repeat split; congruence.
Qed.

Lemma countLoop_app cfg before after : forall w w1 counted,
  countLoop cfg before w = (w1, Ok counted) ->
  exists w' rest,
    countLoop cfg after w1 = (w', Ok rest)
    /\ countLoop cfg (before ++ after) w = (w', Ok (counted ++ rest)).
Proof.
  induction before as [|[choiceId commentId] before IH]; intros w w1 counted.
  - cbn. intros [= <- <-].
    destruct (countLoop_total cfg after w) as (w' & rest & Hrun & _).
    exists w', rest. auto.
  - cbn [app]. rewrite !countLoop_cons.
    destruct (getCommentUpvotes cfg commentId w) as [w0 r].
    destruct (countLoop cfg before w0) as [w2 [tally|m]] eqn:Hbefore; [|congruence].
    intros [= <- <-].
    destruct (IH _ _ _ Hbefore) as (w' & rest & Hafter & Happ).
    exists w', rest. rewrite Happ. auto.
Qed.

(** C5.  A score fetch that fails for one tracked pair does not abort
    the tally.  When the turn of the pair [(choiceId, commentId)] comes and
    every attempt the budget allows fails, the fetch is tried [maxRetries]
    times (3 by default), waiting [2^(attempt-1)] seconds after each
    attempt but the last, and then gives up; [countVotes] still returns,
    with the score 0 recorded for that choice, the pairs before and after
    it tallied as they would be, and one entry for every tracked pair. *)
Theorem countVotes_isolates_fetch_failures cfg roundNumber w voteData
    before choiceId commentId after w1 counted :
  VoteCounter.maxRetries (VoteCounter.constructor VoteCounterConfig.none) = 3 /\
  (Redis.VOTE_DATA (redis w) !! roundNumber = Some voteData ->
   VoteData.choices voteData = before ++ (choiceId, commentId) :: after ->
   countLoop cfg before w = (w1, Ok counted) ->
   allAttemptsFail cfg commentId w1 ->
   exists w2 message w' rest results,
     getCommentUpvotes cfg commentId w1 = (w2, Throw message)
     /\ calls w2 = (calls w1 + Z.to_nat (maxRetries cfg))%nat
     /\ log w2 = log w1 ++ backoffs cfg
     /\ countLoop cfg after w2 = (w', Ok rest)
     /\ map tallyKey rest = after
     /\ countVotes cfg roundNumber w = (w', Ok results)
     /\ results = sortByUpvotes (counted ++ VoteResult.mk choiceId commentId 0 :: rest)
     /\ In (VoteResult.mk choiceId commentId 0) results
     /\ Permutation (map tallyKey results) (VoteData.choices voteData)).
Proof.
  split; [reflexivity|].
  intros Hvotes Hsplit Hbefore Hfail.
  destruct (getCommentUpvotes_exhausted cfg commentId w1 Hfail)
    as (w2 & message & Hfetch & Hcalls & Hlog & _).
  destruct (countLoop_total cfg after w2) as (w' & rest & Hafter & Hkeys & _).
  destruct (countLoop_app cfg before ((choiceId, commentId) :: after) _ _ _ Hbefore)
    as (w'' & rest' & Hrest & Happ).
  rewrite countLoop_cons, Hfetch, Hafter in Hrest. injection Hrest as <- <-.
  exists w2, message, w', rest,
    (sortByUpvotes (counted ++ VoteResult.mk choiceId commentId 0 :: rest)).
  do 5 (split; [assumption|]).
  assert (Hcount : countVotes cfg roundNumber w
                   = (w', Ok (sortByUpvotes
                                (counted ++ VoteResult.mk choiceId commentId 0 :: rest)))).
  { unfold countVotes, RedisManager.getVoteData, try_catch, bind, get_redis, ret.
    rewrite Hvotes, Hsplit, Happ. reflexivity. }
  split; [exact Hcount|]. split; [reflexivity|]. split.
  - eapply Permutation_in; [symmetry; apply sortByUpvotes_perm|].
    apply in_or_app. right. left. reflexivity.
  - rewrite sortByUpvotes_perm, Hsplit, map_app. cbn.
    destruct (countLoop_total cfg before w) as (w0 & tally0 & Hrun0 & Hkeys0 & _).
    rewrite Hbefore in Hrun0. injection Hrun0 as <- <-.
    rewrite Hkeys0, Hkeys. reflexivity.
Qed.

Lemma countVotes_isolates_fetch_failures_witness :
  exists w2 message w' rest results,
    getCommentUpvotes voteCounterDefaults "c2"
      (fst (countLoop voteCounterDefaults [("A", "c1")] flakyWorld))
    = (w2, Throw message)
    /\ calls w2 = (1 + 3)%nat
    /\ log w2 = [Sleep VoteBackoff 1000; Sleep VoteBackoff 2000]
    /\ countLoop voteCounterDefaults [("C", "c3")] w2 = (w', Ok rest)
    /\ map tallyKey rest = [("C", "c3")]
    /\ countVotes voteCounterDefaults 1 flakyWorld = (w', Ok results)
    /\ results = sortByUpvotes
                   ([VoteResult.mk "A" "c1" 5] ++ VoteResult.mk "B" "c2" 0 :: rest)
    /\ In (VoteResult.mk "B" "c2" 0) results
    /\ Permutation (map tallyKey results) [("A", "c1"); ("B", "c2"); ("C", "c3")].
Proof.
  apply (proj2 (countVotes_isolates_fetch_failures voteCounterDefaults 1 flakyWorld
                  flakyVotes [("A", "c1")] "B" "c2" [("C", "c3")]
                  (fst (countLoop voteCounterDefaults [("A", "c1")] flakyWorld))
                  [VoteResult.mk "A" "c1" 5])); try reflexivity.
  intros a _. exact I.
Defined.

(** C2 (as amended).  Without random tie-breaking the winner is the first
    entry, in the order of the tally (the order in which the vote record
    enumerates its choices), among the entries that reach [minimumVotes]
    and have the highest score of those; the current node's choice order
    plays no part. *)
Theorem getWinningChoice_first_in_tally_order cfg roundNumber w voteData :
  randomTieBreaking cfg = false ->
  Redis.VOTE_DATA (redis w) !! roundNumber = Some voteData ->
  exists w' tally,
    countLoop cfg (VoteData.choices voteData) w = (w', Ok tally)
    /\ map tallyKey tally = VoteData.choices voteData
    /\ getWinningChoice cfg roundNumber w
       = (w', Ok (firstInTallyOrder (minimumVotes cfg) tally)).
Proof.
  intros Hrandom Hvotes.
  destruct (countLoop_total cfg (VoteData.choices voteData) w)
    as (w' & tally & Hrun & Hkeys & _).
  exists w', tally. repeat split; [assumption..|].
  unfold getWinningChoice, countVotes, RedisManager.getVoteData, try_catch, bind,
    get_redis, ret.
  rewrite Hvotes, Hrun. rewrite pickWinner_first by assumption. reflexivity.
Qed.

Lemma getWinningChoice_first_in_tally_order_witness :
  exists w' tally,
    countLoop firstWins [("A", "ca"); ("B", "cb"); ("C", "cc")] tieWorld = (w', Ok tally)
    /\ map tallyKey tally = [("A", "ca"); ("B", "cb"); ("C", "cc")]
    /\ getWinningChoice firstWins 1 tieWorld
       = (w', Ok (firstInTallyOrder 0 tally)).
Proof.
  apply (getWinningChoice_first_in_tally_order firstWins 1 tieWorld
           (VoteData.mk [("A", "ca"); ("B", "cb"); ("C", "cc")] 86401000));
    reflexivity.
Defined.

(** C2, the claim as stated, fails on its own example: for the tally
    {A:10, B:10, C:5} at a node whose choices are ordered B, A, C, the
    first-wins tie-break returns A, the first of the tied choices in tally
    order, where the rule of the claim gives B. *)
Lemma getWinningChoice_ignores_node_order :
  (map Choice.id <$> (Story.node tieStory "start" ≫= StoryNode.choices))
  = Some ["B"; "A"; "C"]
  /\ snd (countVotes firstWins 1 tieWorld)
     = Ok [VoteResult.mk "A" "ca" 10; VoteResult.mk "B" "cb" 10;
           VoteResult.mk "C" "cc" 5]
  /\ snd (getWinningChoice firstWins 1 tieWorld) = Ok (Some "A")
  /\ firstInNodeOrder ["B"; "A"; "C"] ["A"; "B"] = Some "B".
Proof. repeat split. Qed.

End Tally.

(** ** Frames: what a computation leaves alone *)

Section Frame.
Variable P : World -> World -> Prop.
Hypothesis P_refl : forall w, P w w.
Hypothesis P_trans : forall a b c, P a b -> P b c -> P a c.

Lemma preserves_ret {A} (a : A) : preserves P (ret a).
Proof. intros w w' r [= <- <-]. apply P_refl. Qed.

Lemma preserves_throw {A} message : preserves P (@throw A message).
Proof. intros w w' r [= <- <-]. apply P_refl. Qed.

Lemma preserves_bind {A B} (m : M A) (k : A -> M B) :
  preserves P m -> (forall a, preserves P (k a)) -> preserves P (bind m k).
Proof.
  intros Hm Hk w w' r. unfold bind.
  destruct (m w) as [w1 [a|e]] eqn:Hrun.
  - intros Hrest. eapply P_trans; [eapply Hm; eassumption|eapply Hk; eassumption].
  - intros [= <- <-]. eapply Hm; eassumption.
Qed.

Lemma preserves_try_catch {A} (m : M A) (h : string -> M A) :
  preserves P m -> (forall e, preserves P (h e)) -> preserves P (try_catch m h).
Proof.
  intros Hm Hh w w' r. unfold try_catch.
  destruct (m w) as [w1 [a|e]] eqn:Hrun.
  - intros [= <- <-]. eapply Hm; eassumption.
  - intros Hrest. eapply P_trans; [eapply Hm; eassumption|eapply Hh; eassumption].
Qed.

Lemma preserves_attempt_of {A} (m : M A) : preserves P m -> preserves P (attempt_of m).
Proof.
  intros Hm w w' r. unfold attempt_of.
  destruct (m w) as [w1 r1] eqn:Hrun. intros [= <- <-]. eapply Hm; eassumption.
Qed.

Lemma preserves_of_result {A} (r : result A) : preserves P (of_result r).
Proof. destruct r; [apply preserves_ret|apply preserves_throw]. Qed.

Lemma preserves_get_redis : preserves P get_redis.
Proof. intros w w' r [= <- <-]. apply P_refl. Qed.

Lemma preserves_date_now : preserves P date_now.
Proof. intros w w' r [= <- <-]. apply P_refl. Qed.

Lemma preserves_toISOString t : preserves P (toISOString t).
Proof. intros w w' r [= <- <-]. apply P_refl. Qed.

Lemma preserves_get_currentStory e : preserves P (get_currentStory e).
Proof. intros w w' r [= <- <-]. apply P_refl. Qed.
End Frame.

Lemma logsInnerOnly_refl w : logsInnerOnly w w.
Proof. exists []. rewrite app_nil_r. auto. Qed.

Lemma logsInnerOnly_trans a b c : logsInnerOnly a b -> logsInnerOnly b c -> logsInnerOnly a c.
Proof.
  intros (l1 & H1 & F1) (l2 & H2 & F2). exists (l1 ++ l2).
  rewrite H2, H1, app_assoc. split; [reflexivity|].
  unfold schedulerTrace in *. rewrite List.filter_app, F1, F2. reflexivity.
Qed.

Lemma keepsGameState_refl w : keepsGameState w w.
Proof. reflexivity. Qed.

Lemma keepsGameState_trans a b c : keepsGameState a b -> keepsGameState b c -> keepsGameState a c.
Proof. unfold keepsGameState. congruence. Qed.


Lemma logs_put_redis r : preserves logsInnerOnly (put_redis r).
Proof. intros w w' x [= <- <-]. exists []. cbn. rewrite app_nil_r. auto. Qed.

Lemma logs_external {A} (ask : Env -> nat -> A) : preserves logsInnerOnly (external ask).
Proof. intros w w' x [= <- <-]. exists []. cbn. rewrite app_nil_r. auto. Qed.

Lemma logs_set_currentStory e s : preserves logsInnerOnly (set_currentStory e s).
Proof. intros w w' x [= <- <-]. exists []. destruct e; cbn; rewrite app_nil_r; auto. Qed.

Lemma logs_emit e : schedulerEvent e = false -> preserves logsInnerOnly (emit e).
Proof. intros He w w' x [= <- <-]. exists [e]. cbn. rewrite He. auto. Qed.

Lemma logs_sleep who ms : who <> SchedulerRetry -> preserves logsInnerOnly (sleep who ms).
Proof.
  intros Hw w w' x [= <- <-]. exists [Sleep who ms]. cbn.
  destruct who; [congruence|auto..].
Qed.

Create HintDb logs.
#[local] Hint Resolve logs_put_redis logs_external logs_set_currentStory : logs.
#[local] Hint Resolve logs_emit logs_sleep : logs.

(** One step of a frame proof: split the computation at its outermost
    combinator, or case on what it branches on, or close the goal with
    [close]. *)
Ltac frame_step refl trans close :=
  match goal with
  | |- preserves _ (bind _ _) => apply (preserves_bind _ trans)
  | |- preserves _ (try_catch _ _) => apply (preserves_try_catch _ trans)
  | |- preserves _ (attempt_of _) => apply (preserves_attempt_of _)
  | |- preserves _ (ret _) => apply (preserves_ret _ refl)
  | |- preserves _ (throw _) => apply (preserves_throw _ refl)
  | |- preserves _ (of_result _) => apply (preserves_of_result _ refl)
  | |- preserves _ get_redis => apply (preserves_get_redis _ refl)
  | |- preserves _ date_now => apply (preserves_date_now _ refl)
  | |- preserves _ (toISOString _) => apply (preserves_toISOString _ refl)
  | |- preserves _ (get_currentStory _) => apply (preserves_get_currentStory _ refl)
  | |- preserves _ (match ?x with _ => _ end) => destruct x
  | |- preserves _ (let _ := _ in _) => cbv zeta
  | |- forall _, _ => intros
  | |- _ => solve [close]
  end.

Ltac logs :=
  repeat (frame_step logsInnerOnly_refl logsInnerOnly_trans ltac:(auto with logs)).

Lemma logs_loadCurrentStory e : preserves logsInnerOnly (StoryEngine.loadCurrentStory e).
Proof. unfold StoryEngine.loadCurrentStory, RedisManager.getStoryData. logs. Qed.
#[local] Hint Resolve logs_loadCurrentStory : logs.

Lemma logs_getGameState : preserves logsInnerOnly RedisManager.getGameState.
Proof. unfold RedisManager.getGameState. logs. Qed.
#[local] Hint Resolve logs_getGameState : logs.

Lemma logs_setGameState g : preserves logsInnerOnly (RedisManager.setGameState g).
Proof. unfold RedisManager.setGameState. logs. Qed.
#[local] Hint Resolve logs_setGameState : logs.

Lemma logs_getConfiguration : preserves logsInnerOnly RedisManager.getConfiguration.
Proof. unfold RedisManager.getConfiguration. logs. Qed.
#[local] Hint Resolve logs_getConfiguration : logs.

Lemma logs_setConfiguration c : preserves logsInnerOnly (RedisManager.setConfiguration c).
Proof. unfold RedisManager.setConfiguration. logs. Qed.
#[local] Hint Resolve logs_setConfiguration : logs.

Lemma logs_getVoteData n : preserves logsInnerOnly (RedisManager.getVoteData n).
Proof. unfold RedisManager.getVoteData. logs. Qed.
#[local] Hint Resolve logs_getVoteData : logs.

Lemma logs_setVoteData n v : preserves logsInnerOnly (RedisManager.setVoteData n v).
Proof. unfold RedisManager.setVoteData. logs. Qed.
#[local] Hint Resolve logs_setVoteData : logs.

Lemma logs_completeGame : preserves logsInnerOnly RedisManager.completeGame.
Proof. unfold RedisManager.completeGame. logs. Qed.
#[local] Hint Resolve logs_completeGame : logs.

Lemma logs_getCurrentNode e : preserves logsInnerOnly (StoryEngine.getCurrentNode e).
Proof. unfold StoryEngine.getCurrentNode. logs. Qed.
#[local] Hint Resolve logs_getCurrentNode : logs.

Lemma logs_navigateToNode e n : preserves logsInnerOnly (StoryEngine.navigateToNode e n).
Proof. unfold StoryEngine.navigateToNode. logs. Qed.
#[local] Hint Resolve logs_navigateToNode : logs.

Lemma logs_getStoryMetadata e : preserves logsInnerOnly (StoryEngine.getStoryMetadata e).
Proof. unfold StoryEngine.getStoryMetadata. logs. Qed.
#[local] Hint Resolve logs_getStoryMetadata : logs.

Lemma logs_advanceStoryByChoice e c :
  preserves logsInnerOnly (StoryEngine.advanceStoryByChoice e c).
Proof. unfold StoryEngine.advanceStoryByChoice. logs. Qed.
#[local] Hint Resolve logs_advanceStoryByChoice : logs.

Lemma logs_fetchLoop cfg c : forall remaining attempt lastError,
  preserves logsInnerOnly (VoteCounter.fetchLoop cfg c remaining attempt lastError).
Proof.
  induction remaining as [|remaining IH]; intros; cbn [VoteCounter.fetchLoop]; logs.
Qed.
#[local] Hint Resolve logs_fetchLoop : logs.

Lemma logs_countLoop cfg : forall entries,
  preserves logsInnerOnly (VoteCounter.countLoop cfg entries).
Proof.
  induction entries as [|[a b] rest IH]; cbn [VoteCounter.countLoop];
    unfold VoteCounter.getCommentUpvotes; logs.
Qed.
#[local] Hint Resolve logs_countLoop : logs.

Lemma logs_getWinningChoice cfg n : preserves logsInnerOnly (VoteCounter.getWinningChoice cfg n).
Proof.
  unfold VoteCounter.getWinningChoice, VoteCounter.countVotes, VoteCounter.pickWinner,
    VoteCounter.resolveTie, VoteCounter.choiceIdAt.
  logs.
Qed.
#[local] Hint Resolve logs_getWinningChoice : logs.

Lemma logs_commentLoop : forall choices, preserves logsInnerOnly (PostManager.commentLoop choices).
Proof.
  induction choices as [|c rest IH]; cbn [PostManager.commentLoop]; logs.
Qed.
#[local] Hint Resolve logs_commentLoop : logs.

Lemma logs_createStoryRoundPost s : preserves logsInnerOnly (PostManager.createStoryRoundPost s).
Proof.
  unfold PostManager.createStoryRoundPost, PostManager.createRedditPost,
    PostManager.createChoiceComments, PostManager.storeChoiceCommentMapping,
    StoryEngine.getGameState.
  logs.
Qed.
#[local] Hint Resolve logs_createStoryRoundPost : logs.

Lemma logs_createEndGameRecapPost s :
  preserves logsInnerOnly (PostManager.createEndGameRecapPost s).
Proof.
  unfold PostManager.createEndGameRecapPost, PostManager.createRedditPost,
    StoryEngine.getGameState, StoryEngine.completeGame.
  logs.
Qed.
#[local] Hint Resolve logs_createEndGameRecapPost : logs.

Lemma logs_scheduleNextRound cfg d n :
  preserves logsInnerOnly (SchedulerHandler.scheduleNextRound cfg d n).
Proof.
  unfold SchedulerHandler.scheduleNextRound, SchedulerHandler.cancelScheduledRound.
  logs.
Qed.
#[local] Hint Resolve logs_scheduleNextRound : logs.

Lemma logs_executeRoundAdvancement cfg n :
  preserves logsInnerOnly (SchedulerHandler.executeRoundAdvancement cfg n).
Proof.
  unfold SchedulerHandler.executeRoundAdvancement, StoryEngine.getGameState.
  logs.
Qed.

Section Retry.
Import SchedulerHandler.

Lemma schedulerTrace_app l1 l2 :
  schedulerTrace (l1 ++ l2) = schedulerTrace l1 ++ schedulerTrace l2.
Proof. apply List.filter_app. Qed.

Lemma retryLoop_S cfg rn remaining attempt lastError w :
  retryLoop cfg rn (S remaining) attempt lastError w
  = (let (w2, outcome) :=
       executeRoundAdvancement cfg rn (afterEmit (Attempt attempt (maxRetries cfg)) w) in
     let retry (message : string) :=
       bind (if attempt <? maxRetries cfg
             then sleep SchedulerRetry (retryDelayMs cfg)
             else ret tt)
         (fun _ => retryLoop cfg rn remaining (attempt + 1) (Some message)) w2 in
     match outcome with
     | Ok advancementResult =>
         if SchedulerResult.success advancementResult
         then (w2, Ok advancementResult)
         else retry (JS.or_else (SchedulerResult.error advancementResult)
                       "Round advancement failed")
     | Throw message => retry message
     end).
Proof.
  cbn [retryLoop]. unfold bind at 1. unfold emit. unfold bind at 1. unfold attempt_of.
  unfold afterEmit.
  destruct (executeRoundAdvancement cfg rn _) as [w2 [res|m]]; [|reflexivity].
  destruct (SchedulerResult.success res); reflexivity.
Qed.

(** The loop of [handleRoundAdvancement]: its log, and the executions it
    made with their outcomes.  An execution that succeeds is the last
    one; one that does not is followed by another while the budget
    lasts. *)
Lemma retryLoop_trace cfg rn : forall remaining attempt lastError w w' r,
  retryLoop cfg rn remaining attempt lastError w = (w', r) ->
  attempt + Z.of_nat remaining = maxRetries cfg + 1 ->
  exists res k l outcomes,
    r = Ok res
    /\ log w' = log w ++ l
    /\ schedulerTrace l = attemptsTrace cfg attempt k
    /\ (k <= remaining)%nat
    /\ (SchedulerResult.success res = true -> (1 <= k)%nat)
    /\ (SchedulerResult.success res = false -> k = remaining)
    /\ length outcomes = k
    /\ Attempts cfg rn attempt w outcomes w'
    /\ (SchedulerResult.success res = true ->
        exists earlier,
          outcomes = earlier ++ [Ok res] /\ Forall failedAttempt earlier)
    /\ (SchedulerResult.success res = false -> Forall failedAttempt outcomes).
Proof.
  induction remaining as [|remaining IH]; intros attempt lastError w w' r Hrun Hbudget.
  - cbn in Hrun. injection Hrun as <- <-.
    eexists _, O, [], []. rewrite app_nil_r.
    repeat split; auto; try constructor. cbn. discriminate. cbn. discriminate.
  - rewrite retryLoop_S in Hrun.
    destruct (executeRoundAdvancement cfg rn _) as [w2 outcome] eqn:Hattempt.
    destruct (logs_executeRoundAdvancement cfg rn _ _ _ Hattempt) as (l2 & Hlog2 & Hinner).
    cbn [log afterEmit] in Hlog2. cbv zeta in Hrun.
    assert (Hretry : forall message,
      failedAttempt outcome ->
      bind (if attempt <? maxRetries cfg
            then sleep SchedulerRetry (retryDelayMs cfg)
            else ret tt)
        (fun _ => retryLoop cfg rn remaining (attempt + 1) (Some message)) w2 = (w', r) ->
      exists res k l outcomes,
        r = Ok res
        /\ log w' = log w ++ l
        /\ schedulerTrace l = attemptsTrace cfg attempt k
        /\ (k <= S remaining)%nat
        /\ (SchedulerResult.success res = true -> (1 <= k)%nat)
        /\ (SchedulerResult.success res = false -> k = S remaining)
        /\ length outcomes = k
        /\ Attempts cfg rn attempt w outcomes w'
        /\ (SchedulerResult.success res = true ->
            exists earlier,
              outcomes = earlier ++ [Ok res] /\ Forall failedAttempt earlier)
        /\ (SchedulerResult.success res = false -> Forall failedAttempt outcomes)).
    { intros message Hfailed. unfold bind.
      destruct (attempt <? maxRetries cfg) eqn:Hlt.
      - apply Z.ltb_lt in Hlt. unfold sleep. intros Hrest.
        apply IH in Hrest
          as (res & k & l & outcomes & -> & Hlog & Htrace & Hle & Hok & Hko & Hlen
              & Hattempts & Hsuccess & Hfailure);
          [|lia].
        cbn [log] in Hlog.
        assert (k <> O) as Hk.
        { destruct (SchedulerResult.success res); [specialize (Hok eq_refl)|
                                                   specialize (Hko eq_refl)]; lia. }
        destruct outcomes as [|next outcomes]; [cbn in Hlen; congruence|].
        exists res, (S k),
          ([Attempt attempt (maxRetries cfg)] ++ l2
           ++ [Sleep SchedulerRetry (retryDelayMs cfg)] ++ l),
          (outcome :: next :: outcomes).
        split; [reflexivity|]. split.
        { rewrite Hlog, Hlog2. rewrite <- !app_assoc. reflexivity. }
        split.
        { rewrite !schedulerTrace_app, Hinner, Htrace. cbn.
          destruct k as [|k]; [congruence|reflexivity]. }
        split; [lia|]. split; [lia|].
        split; [intros Hf; specialize (Hko Hf); lia|].
        split; [cbn in *; lia|].
        split; [eapply Attempts_retry; [exact Hattempt|exact Hattempts]|].
        split.
        + intros Hs. destruct (Hsuccess Hs) as (earlier & Heq & Hall).
          exists (outcome :: earlier). rewrite Heq. split; [reflexivity|].
          constructor; assumption.
        + intros Hf. constructor; [exact Hfailed|exact (Hfailure Hf)].
      - apply Z.ltb_ge in Hlt. unfold ret. intros Hrest.
        apply IH in Hrest
          as (res & k & l & outcomes & -> & Hlog & Htrace & Hle & Hok & Hko & Hlen
              & Hattempts & Hsuccess & Hfailure);
          [|lia].
        assert (remaining = O) by lia. subst remaining.
        assert (k = O) by lia. subst k.
        destruct outcomes as [|? ?]; [|discriminate].
        inversion Hattempts; subst.
        assert (SchedulerResult.success res = false) as Hres.
        { destruct (SchedulerResult.success res); [specialize (Hok eq_refl); lia|
                                                   reflexivity]. }
        exists res, 1%nat, ([Attempt attempt (maxRetries cfg)] ++ l2 ++ l), [outcome].
        split; [reflexivity|]. split.
        { rewrite Hlog, Hlog2. rewrite <- !app_assoc. reflexivity. }
        split.
        { rewrite !schedulerTrace_app, Hinner, Htrace. reflexivity. }
        split; [lia|]. split; [lia|]. split; [lia|]. split; [reflexivity|].
        split; [eapply Attempts_last; exact Hattempt|].
        split; [intros Hs; congruence|].
        intros _. constructor; [exact Hfailed|constructor]. }
    destruct outcome as [advancementResult|message];
      [|eapply Hretry; [exact I|exact Hrun]].
    destruct (SchedulerResult.success advancementResult) eqn:Hsuccess;
      [|eapply Hretry; [exact Hsuccess|exact Hrun]].
    injection Hrun as <- <-.
    exists advancementResult, 1%nat, ([Attempt attempt (maxRetries cfg)] ++ l2),
      [Ok advancementResult].
    split; [reflexivity|]. split; [rewrite Hlog2, <- app_assoc; reflexivity|].
    split; [rewrite schedulerTrace_app, Hinner; reflexivity|].
    split; [lia|]. split; [lia|]. split; [congruence|]. split; [reflexivity|].
    split; [eapply Attempts_last; exact Hattempt|].
    split; [intros _; exists []; split; [reflexivity|constructor]|congruence].
Qed.

(** The firing ended before the loop: no attempt, a failure result. *)
Ltac no_attempt :=
  intros [= <- <-]; eexists _, O, [], []; rewrite app_nil_r;
  repeat split;
  try first [reflexivity | lia | discriminate | intros; discriminate
            | intros; congruence | intros; cbn in *; lia
            | constructor].

Lemma advanceCurrentRound_trace cfg n w w' r :
  advanceCurrentRound cfg n w = (w', r) ->
  exists res k l outcomes,
    r = Ok res
    /\ log w' = log w ++ l
    /\ schedulerTrace l = attemptsTrace cfg 1 k
    /\ (k <= Z.to_nat (maxRetries cfg))%nat
    /\ (SchedulerResult.success res = true -> (1 <= k)%nat)
    /\ (gameInactive w -> k = O /\ SchedulerResult.success res = false)
    /\ (forall g,
           Redis.GAME_STATE (redis w) = Some g ->
           GameState.isActive g = true ->
           n = GameState.roundNumber g ->
           SchedulerResult.success res = false ->
           k = Z.to_nat (maxRetries cfg))
    /\ length outcomes = k
    /\ Attempts cfg n 1 w outcomes w'
    /\ (forall g,
           Redis.GAME_STATE (redis w) = Some g -> k <> O -> n = GameState.roundNumber g)
    /\ (SchedulerResult.success res = true ->
        exists earlier,
          outcomes = earlier ++ [Ok res] /\ Forall failedAttempt earlier)
    /\ (SchedulerResult.success res = false -> Forall failedAttempt outcomes).
Proof.
  unfold advanceCurrentRound, StoryEngine.getGameState, RedisManager.getGameState,
    bind, get_redis, ret, gameInactive.
  destruct (Redis.GAME_STATE (redis w)) as [g|] eqn:Hg; [|no_attempt].
  destruct (GameState.isActive g) eqn:Hactive; cbn [negb]; [|no_attempt].
  destruct (GameState.roundNumber g =? n) eqn:Hround; cbn [negb].
  2:{ no_attempt. apply Z.eqb_neq in Hround. congruence. }
  apply Z.eqb_eq in Hround.
  intros Hloop.
  destruct (Z.le_gt_cases 0 (maxRetries cfg)) as [Hpos|Hneg].
  - apply retryLoop_trace in Hloop
      as (res & k & l & outcomes & -> & Hlog & Htrace & Hle & Hok & Hko & Hlen
          & Hattempts & Hsuccess & Hfailure);
      [|lia].
    exists res, k, l, outcomes. repeat split; auto; try discriminate.
    intros g' [= <-] _. congruence.
  - replace (Z.to_nat (maxRetries cfg)) with O in * by lia.
    cbn in Hloop. revert Hloop. no_attempt.
Qed.

Lemma advanceStoredRound_trace cfg w w' r :
  advanceStoredRound cfg w = (w', r) ->
  exists res k l roundNumber outcomes,
    r = Ok res
    /\ log w' = log w ++ l
    /\ schedulerTrace l = attemptsTrace cfg 1 k
    /\ (k <= Z.to_nat (maxRetries cfg))%nat
    /\ (SchedulerResult.success res = true -> (1 <= k)%nat)
    /\ (gameInactive w -> k = O /\ SchedulerResult.success res = false)
    /\ (forall g,
           Redis.GAME_STATE (redis w) = Some g ->
           GameState.isActive g = true ->
           SchedulerResult.success res = false ->
           k = Z.to_nat (maxRetries cfg))
    /\ length outcomes = k
    /\ Attempts cfg roundNumber 1 w outcomes w'
    /\ (forall g,
           Redis.GAME_STATE (redis w) = Some g -> k <> O ->
           roundNumber = GameState.roundNumber g)
    /\ (SchedulerResult.success res = true ->
        exists earlier,
          outcomes = earlier ++ [Ok res] /\ Forall failedAttempt earlier)
    /\ (SchedulerResult.success res = false -> Forall failedAttempt outcomes).
Proof.
  unfold advanceStoredRound. unfold bind at 1.
  unfold RedisManager.getGameState, bind, get_redis, ret, gameInactive.
  destruct (Redis.GAME_STATE (redis w)) as [g|] eqn:Hg.
  2:{ intros [= <- <-]. eexists _, O, [], 0, []. rewrite app_nil_r.
      repeat split; try first [reflexivity | lia | discriminate | intros; discriminate
                              | intros; congruence | constructor]. }
  destruct (GameState.isActive g) eqn:Hactive.
  2:{ intros [= <- <-]. eexists _, O, [], 0, []. rewrite app_nil_r.
      repeat split; try first [reflexivity | lia | discriminate | intros; discriminate
                              | intros; congruence | constructor]. }
  intros Hrun. apply advanceCurrentRound_trace in Hrun
    as (res & k & l & outcomes & -> & Hlog & Htrace & Hle & Hok & Hin & Hko & Hlen
        & Hattempts & Hround & Hsuccess & Hfailure).
  exists res, k, l, (GameState.roundNumber g), outcomes.
  repeat split; auto; try (intros; discriminate).
  - intros g' Hg' _ Hf. injection Hg' as <-. eapply Hko; eauto.
  - intros g' [= <-] _. reflexivity.
Qed.

(** C3 (as amended).  A firing of [handleRoundAdvancement] never throws.
    Its attempts and waits are: attempt 1, a wait of [retryDelayMs],
    attempt 2, ..., attempt [k], with [k] at most [maxRetries] (3 and
    5000 ms by default) and the same delay before every retry.  The loop
    ends at the first attempt that succeeds: the executions the firing
    made are those of [outcomes], one after the other, every one before
    the last did not succeed, and a successful firing returns the result
    of its last execution.  An attempt that does not succeed is retried
    while attempts remain, whether it threw or returned a failure result
    such as "no winner": a firing for the current round of an active game
    that ends in failure has made all [maxRetries] attempts, none of
    which succeeded.  A firing that finds the game inactive makes no
    attempt. *)
Theorem handleRoundAdvancement_retries cfg event w w' r :
  maxRetries (constructor SchedulerConfig.none) = 3
  /\ retryDelayMs (constructor SchedulerConfig.none) = 5000
  /\ (handleRoundAdvancement cfg event w = (w', r) ->
      exists res k l,
        r = Ok res
        /\ log w' = log w ++ l
        /\ schedulerTrace l = attemptsTrace cfg 1 k
        /\ (k <= Z.to_nat (maxRetries cfg))%nat
        /\ (SchedulerResult.success res = true -> (1 <= k)%nat)
        /\ (gameInactive w -> k = O /\ SchedulerResult.success res = false)
        /\ (forall g,
               Redis.GAME_STATE (redis w) = Some g ->
               GameState.isActive g = true ->
               firesFor event g ->
               SchedulerResult.success res = false ->
               k = Z.to_nat (maxRetries cfg))
        /\ exists roundNumber outcomes,
             length outcomes = k
             /\ Attempts cfg roundNumber 1 w outcomes w'
             /\ (forall g,
                    Redis.GAME_STATE (redis w) = Some g -> k <> O ->
                    roundNumber = GameState.roundNumber g)
             /\ (SchedulerResult.success res = true ->
                 exists earlier,
                   outcomes = earlier ++ [Ok res] /\ Forall failedAttempt earlier)
             /\ (SchedulerResult.success res = false ->
                 Forall failedAttempt outcomes)).
Proof.
  split; [reflexivity|]. split; [reflexivity|].
  unfold handleRoundAdvancement, try_catch, firesFor.
  destruct (JobEvent.roundNumber event) as [n|].
  - destruct (n <=? 0) eqn:Hn.
    + destruct (advanceStoredRound cfg w) as [w1 r1] eqn:Hm.
      apply advanceStoredRound_trace in Hm
        as (res & k & l & rn & outcomes & -> & Hlog & Htrace & Hle & Hok & Hin & Hko
            & Hrest).
      intros [= <- <-]. exists res, k, l.
      repeat split; auto; try apply Hin; auto.
      * intros g Hg Ha _ Hf. eapply Hko; eauto.
      * exists rn, outcomes. exact Hrest.
    + destruct (advanceCurrentRound cfg n w) as [w1 r1] eqn:Hm.
      apply advanceCurrentRound_trace in Hm
        as (res & k & l & outcomes & -> & Hlog & Htrace & Hle & Hok & Hin & Hko
            & Hrest).
      intros [= <- <-]. exists res, k, l.
      repeat split; auto; try apply Hin; auto.
      * intros g Hg Ha Hfire Hf. eapply Hko; eauto.
        destruct Hfire as [Hle0|Heq]; [|exact Heq].
        apply Z.leb_gt in Hn. lia.
      * exists n, outcomes. exact Hrest.
  - destruct (advanceStoredRound cfg w) as [w1 r1] eqn:Hm.
    apply advanceStoredRound_trace in Hm
      as (res & k & l & rn & outcomes & -> & Hlog & Htrace & Hle & Hok & Hin & Hko
          & Hrest).
    intros [= <- <-]. exists res, k, l.
    repeat split; auto; try apply Hin; auto.
    * intros g Hg Ha _ Hf. eapply Hko; eauto.
    * exists rn, outcomes. exact Hrest.
Qed.
End Retry.

(** The timer of round 1 fires in the demo game on a platform that fails
    the first creation of a post: the first attempt throws, the firing
    waits five seconds, the second attempt succeeds and is the last. *)
Lemma handleRoundAdvancement_retries_witness :
  exists res k l,
    snd (SchedulerHandler.handleRoundAdvancement schedulerDefaults round1Fires
           postFailsOnceWorld) = Ok res
    /\ log (fst (SchedulerHandler.handleRoundAdvancement schedulerDefaults round1Fires
                   postFailsOnceWorld)) = log postFailsOnceWorld ++ l
    /\ schedulerTrace l = attemptsTrace schedulerDefaults 1 k
    /\ (k <= 3)%nat
    /\ (SchedulerResult.success res = true -> (1 <= k)%nat)
    /\ (gameInactive postFailsOnceWorld -> k = O /\ SchedulerResult.success res = false)
    /\ (forall g,
           Redis.GAME_STATE (redis postFailsOnceWorld) = Some g ->
           GameState.isActive g = true ->
           firesFor round1Fires g ->
           SchedulerResult.success res = false ->
           k = 3%nat)
    /\ exists roundNumber outcomes,
         length outcomes = k
         /\ Attempts schedulerDefaults roundNumber 1 postFailsOnceWorld outcomes
              (fst (SchedulerHandler.handleRoundAdvancement schedulerDefaults round1Fires
                      postFailsOnceWorld))
         /\ (forall g,
                Redis.GAME_STATE (redis postFailsOnceWorld) = Some g -> k <> O ->
                roundNumber = GameState.roundNumber g)
         /\ (SchedulerResult.success res = true ->
             exists earlier,
               outcomes = earlier ++ [Ok res] /\ Forall failedAttempt earlier)
         /\ (SchedulerResult.success res = false -> Forall failedAttempt outcomes).
Proof.
  destruct (proj2 (proj2 (handleRoundAdvancement_retries schedulerDefaults round1Fires
                            postFailsOnceWorld
                            (fst (SchedulerHandler.handleRoundAdvancement
                                    schedulerDefaults round1Fires postFailsOnceWorld))
                            (snd (SchedulerHandler.handleRoundAdvancement
                                    schedulerDefaults round1Fires postFailsOnceWorld))))
              (surjective_pairing _))
    as (res & k & l & H).
  exists res, k, l. exact H.
Defined.

(** The same firing, evaluated: two attempts, the first of which threw,
    and the result of the second. *)
Lemma handleRoundAdvancement_stops_at_success :
  log (fst (SchedulerHandler.handleRoundAdvancement schedulerDefaults round1Fires
              postFailsOnceWorld))
  = [Attempt 1 3; Sleep SchedulerRetry 5000; Attempt 2 3]
  /\ snd (SchedulerHandler.executeRoundAdvancement schedulerDefaults 1
            (afterEmit (Attempt 1 3) postFailsOnceWorld))
     = Throw ("Failed to create next round post: Post creation failed: "
              +:+ "Reddit post creation failed: service unavailable")
  /\ snd (SchedulerHandler.handleRoundAdvancement schedulerDefaults round1Fires
            postFailsOnceWorld)
     = Ok (SchedulerResult.mk true None None
             (Some "Game completed. Recap post created: post")).
Proof. vm_compute. repeat split. Qed.

(** C3, the claim as stated, fails: with no vote record for the round,
    one execution of the sequence ends in the explicit "no winner" result
    without throwing, and the firing still runs it three times, waiting
    five seconds before each retry. *)
Lemma no_winner_is_retried :
  snd (SchedulerHandler.executeRoundAdvancement schedulerDefaults 1 noVotesWorld)
  = Ok (SchedulerResult.failure "No winning choice could be determined")
  /\ log (fst (SchedulerHandler.handleRoundAdvancement schedulerDefaults round1Fires
                 noVotesWorld))
     = [Attempt 1 3; Sleep SchedulerRetry 5000; Attempt 2 3;
        Sleep SchedulerRetry 5000; Attempt 3 3]
  /\ snd (SchedulerHandler.handleRoundAdvancement schedulerDefaults round1Fires
            noVotesWorld)
     = Ok (SchedulerResult.failure
             "All 3 attempts failed. Last error: No winning choice could be determined").
Proof. repeat split. Qed.

(** ** The stored game state across a failed publication *)

Lemma keeps_external {A} (ask : Env -> nat -> A) : preserves keepsGameState (external ask).
Proof. intros w w' x [= <- <-]. reflexivity. Qed.

Lemma keeps_set_currentStory e s : preserves keepsGameState (set_currentStory e s).
Proof. intros w w' x [= <- <-]. destruct e; reflexivity. Qed.

Lemma keeps_emit e : preserves keepsGameState (emit e).
Proof. intros w w' x [= <- <-]. reflexivity. Qed.

Lemma keeps_sleep who ms : preserves keepsGameState (sleep who ms).
Proof. intros w w' x [= <- <-]. reflexivity. Qed.

Lemma keeps_setVoteData n v : preserves keepsGameState (RedisManager.setVoteData n v).
Proof.
  unfold RedisManager.setVoteData, bind, get_redis, put_redis.
  intros w w' x [= <- <-]. reflexivity.
Qed.

Create HintDb keeps.
#[local] Hint Resolve keeps_external keeps_set_currentStory keeps_emit keeps_sleep
  keeps_setVoteData : keeps.

Ltac keeps :=
  repeat (frame_step keepsGameState_refl keepsGameState_trans ltac:(auto with keeps)).

Lemma keeps_loadCurrentStory e : preserves keepsGameState (StoryEngine.loadCurrentStory e).
Proof. unfold StoryEngine.loadCurrentStory, RedisManager.getStoryData. keeps. Qed.
#[local] Hint Resolve keeps_loadCurrentStory : keeps.

Lemma keeps_getGameState : preserves keepsGameState RedisManager.getGameState.
Proof. unfold RedisManager.getGameState. keeps. Qed.
#[local] Hint Resolve keeps_getGameState : keeps.

Lemma keeps_getVoteData n : preserves keepsGameState (RedisManager.getVoteData n).
Proof. unfold RedisManager.getVoteData. keeps. Qed.
#[local] Hint Resolve keeps_getVoteData : keeps.

Lemma keeps_getConfiguration : preserves keepsGameState RedisManager.getConfiguration.
Proof. unfold RedisManager.getConfiguration. keeps. Qed.
#[local] Hint Resolve keeps_getConfiguration : keeps.

Lemma keeps_getCurrentNode e : preserves keepsGameState (StoryEngine.getCurrentNode e).
Proof. unfold StoryEngine.getCurrentNode. keeps. Qed.
#[local] Hint Resolve keeps_getCurrentNode : keeps.

Lemma keeps_getStoryMetadata e : preserves keepsGameState (StoryEngine.getStoryMetadata e).
Proof. unfold StoryEngine.getStoryMetadata. keeps. Qed.
#[local] Hint Resolve keeps_getStoryMetadata : keeps.

Lemma keeps_fetchLoop cfg c : forall remaining attempt lastError,
  preserves keepsGameState (VoteCounter.fetchLoop cfg c remaining attempt lastError).
Proof.
  induction remaining as [|remaining IH]; intros; cbn [VoteCounter.fetchLoop]; keeps.
Qed.
#[local] Hint Resolve keeps_fetchLoop : keeps.

Lemma keeps_countLoop cfg : forall entries,
  preserves keepsGameState (VoteCounter.countLoop cfg entries).
Proof.
  induction entries as [|[a b] rest IH]; cbn [VoteCounter.countLoop];
    unfold VoteCounter.getCommentUpvotes; keeps.
Qed.
#[local] Hint Resolve keeps_countLoop : keeps.

Lemma keeps_getWinningChoice cfg n :
  preserves keepsGameState (VoteCounter.getWinningChoice cfg n).
Proof.
  unfold VoteCounter.getWinningChoice, VoteCounter.countVotes, VoteCounter.pickWinner,
    VoteCounter.resolveTie, VoteCounter.choiceIdAt.
  keeps.
Qed.

Lemma keeps_commentLoop : forall choices,
  preserves keepsGameState (PostManager.commentLoop choices).
Proof.
  induction choices as [|c rest IH]; cbn [PostManager.commentLoop]; keeps.
Qed.
#[local] Hint Resolve keeps_commentLoop : keeps.

Lemma keeps_createStoryRoundPost s :
  preserves keepsGameState (PostManager.createStoryRoundPost s).
Proof.
  unfold PostManager.createStoryRoundPost, PostManager.createRedditPost,
    PostManager.createChoiceComments, PostManager.storeChoiceCommentMapping,
    StoryEngine.getGameState.
  keeps.
Qed.

(** A [catch] that rethrows under a prefix throws only under that prefix. *)
Lemma try_catch_prefix {A} (m : M A) (prefix : string) w w' message :
  try_catch m (fun e => throw (prefix +:+ e)) w = (w', Throw message) ->
  exists e, message = prefix +:+ e.
Proof.
  unfold try_catch, throw. destruct (m w) as [w1 [x|e]]; [discriminate|].
  intros [= <- <-]. eauto.
Qed.

(** A [catch] that returns a value never throws. *)
Lemma try_catch_total {A} (m : M A) (handler : string -> A) w w' message :
  try_catch m (fun e => ret (handler e)) w = (w', Throw message) -> False.
Proof.
  unfold try_catch, ret. destruct (m w) as [w1 [x|e]]; discriminate.
Qed.

Lemma pushUnlessLast_last path nodeId :
  last (StoryEngine.pushUnlessLast path nodeId) = Some nodeId.
Proof.
  unfold StoryEngine.pushUnlessLast.
  destruct (last path) as [l|] eqn:Hl.
  - destruct (String.eqb_spec l nodeId); [congruence|apply last_snoc].
  - apply last_snoc.
Qed.

Lemma pushUnlessLast_idem path nodeId :
  StoryEngine.pushUnlessLast (StoryEngine.pushUnlessLast path nodeId) nodeId
  = StoryEngine.pushUnlessLast path nodeId.
Proof.
  unfold StoryEngine.pushUnlessLast at 1. rewrite pushUnlessLast_last.
  rewrite String.eqb_refl. reflexivity.
Qed.

(** What a [navigateToNode] that returns did to the stored game state. *)
Lemma navigateToNode_ok e nodeId w w' g :
  Redis.GAME_STATE (redis w) = Some g ->
  StoryEngine.navigateToNode e nodeId w = (w', Ok tt) ->
  Redis.GAME_STATE (redis w')
  = Some (GameState.mk nodeId (GameState.roundNumber g)
            (StoryEngine.pushUnlessLast (GameState.storyPath g) nodeId)
            (GameState.isActive g) (GameState.roundStartTime g)
            (GameState.roundDurationHours g) (GameState.testMode g)).
Proof.
  intros Hg.
  destruct (loadCurrentStory_storyOf e w)
    as (w1 & Hl & Hr & Hn & Hlog & Hcalls & Henv & Hs).
  unfold StoryEngine.navigateToNode, try_catch, bind, throw. rewrite Hl.
  destruct (storyOf e w) as [story|]; [|cbn; congruence].
  destruct (Story.node story nodeId); [|cbn; congruence].
  unfold RedisManager.getGameState, RedisManager.setGameState, bind, get_redis,
    put_redis, ret.
  rewrite Hr, Hg. cbn. intros [= <-]. reflexivity.
Qed.

Section Rollback.
Import SchedulerHandler.

Ltac wrong_message H :=
  first [ discriminate H
        | injection H as _ H; cbn in H; discriminate H
        | injection H as _ H;
          match type of H with
          | ?p +:+ _ = _ => idtac
          end; cbn in H; discriminate H ].

(** C1, what the code does instead.  Whenever [executeRoundAdvancement]
    fails at publishing the post of the next round (it throws "Failed to
    create next round post: ..."), the game state left in the store is not
    the state from before the advance but the advanced one: the current
    node is the target of the winning choice, the round number is one
    higher, the path has the guarded push of that node.  The snapshot that
    the rollback restores is read after [advanceStoryByChoice] has stored
    the advanced state, so the restore writes back the advanced state. *)
Theorem executeRoundAdvancement_publish_failure cfg roundNumber w w' detail g :
  Redis.GAME_STATE (redis w) = Some g ->
  executeRoundAdvancement cfg roundNumber w
  = (w', Throw ("Failed to create next round post: " +:+ detail)) ->
  exists choice t,
    Redis.GAME_STATE (redis w')
    = Some (GameState.mk (Choice.nextNodeId choice) (GameState.roundNumber g + 1)
              (StoryEngine.pushUnlessLast (GameState.storyPath g)
                 (Choice.nextNodeId choice))
              (GameState.isActive g) t
              (GameState.roundDurationHours g) (GameState.testMode g))
    /\ Redis.GAME_STATE (redis w') <> Some g.
Proof.
  intros Hg. unfold executeRoundAdvancement, bind.
  destruct (VoteCounter.getWinningChoice voteCounter roundNumber w)
    as [w0 [[[|a s]|]|m]] eqn:Hwin; cbn [ret]; try discriminate.
  2:{ apply try_catch_prefix in Hwin as [e ->]. intros H. wrong_message H. }
  apply keeps_getWinningChoice in Hwin. red in Hwin. rewrite Hg in Hwin.
  destruct (StoryEngine.advanceStoryByChoice OfScheduler (String a s) w0)
    as [w1 [[]|m]] eqn:Hadv.
  2:{ apply try_catch_prefix in Hadv as [e ->]. intros H. wrong_message H. }
  apply advanceStoryByChoice_ok in Hadv
    as (story & g0 & node & choices & choice & _ & Hg0 & _ & _ & _ & _ & Hg1 & _).
  rewrite Hwin in Hg0. injection Hg0 as <-.
  destruct (StoryEngine.getCurrentNode OfScheduler w1) as [w2 [[newNode|]|m]] eqn:Hcur.
  2:{ unfold throw. intros H. wrong_message H. }
  2:{ apply try_catch_prefix in Hcur as [e ->]. intros H. wrong_message H. }
  apply keeps_getCurrentNode in Hcur. red in Hcur. rewrite Hg1 in Hcur.
  set (g1 := GameState.mk _ _ _ _ _ _ _) in Hcur.
  assert (Hne : Some g1 <> Some g).
  { intros [= H]. apply (f_equal GameState.roundNumber) in H. cbn in H. lia. }
  destruct (StoryNode.isEnd newNode) as [[|]|].
  2,3: unfold StoryEngine.getGameState, RedisManager.getGameState,
      RedisManager.getConfiguration, RedisManager.setGameState, bind, get_redis, ret,
      put_redis, throw;
    rewrite Hcur;
    (destruct (Redis.CONFIG (redis w2)) as [config|]; [|intros H; wrong_message H]);
    cbv zeta;
    (destruct (PostManager.createStoryRoundPost (AppConfig.subredditName config) w2)
      as [w3 [post|m]] eqn:Hpost;
      [|apply try_catch_total in Hpost as []]);
    (destruct (PostCreationResult.success post); cbn [negb];
     [destruct (scheduleNextRound _ _ _ _) as [w4 [x|m]] eqn:Hsched;
      [intros H; discriminate H|apply try_catch_total in Hsched as []]|]);
    match goal with
    | |- context [StoryEngine.navigateToNode ?e ?n ?x] =>
        destruct (StoryEngine.navigateToNode e n x) as [w4 [[]|m]] eqn:Hnav
    end;
    [|apply try_catch_prefix in Hnav as [e ->]; intros H; wrong_message H];
    intros [= <- _];
    (apply navigateToNode_ok with (g := g1) in Hnav; [|reflexivity]);
    cbn in Hnav; rewrite pushUnlessLast_idem in Hnav;
    exists choice, (now w0); (split; [exact Hnav|]); rewrite Hnav; exact Hne.
  unfold StoryEngine.getGameState, RedisManager.getGameState,
    RedisManager.getConfiguration, bind, get_redis, ret, throw.
  rewrite Hcur.
  destruct (Redis.CONFIG (redis w2)) as [config|]; [|intros H; wrong_message H].
  destruct (PostManager.createEndGameRecapPost (AppConfig.subredditName config) w2)
    as [w3 [post|m]] eqn:Hpost; [|apply try_catch_total in Hpost as []].
  destruct (negb (PostCreationResult.success post)); intros H; wrong_message H.
Qed.

End Rollback.

(** The demo game in round 1, choice A winning, the platform refusing the
    post. *)
Lemma executeRoundAdvancement_publish_failure_witness :
  exists choice t,
    Redis.GAME_STATE
      (redis (fst (SchedulerHandler.executeRoundAdvancement schedulerDefaults 1
                     (demoWorld (Throw "service unavailable")))))
    = Some (GameState.mk (Choice.nextNodeId choice) (GameState.roundNumber demoGame + 1)
              (StoryEngine.pushUnlessLast (GameState.storyPath demoGame)
                 (Choice.nextNodeId choice))
              (GameState.isActive demoGame) t
              (GameState.roundDurationHours demoGame) (GameState.testMode demoGame))
    /\ Redis.GAME_STATE
         (redis (fst (SchedulerHandler.executeRoundAdvancement schedulerDefaults 1
                        (demoWorld (Throw "service unavailable")))))
       <> Some demoGame.
Proof.
  apply (executeRoundAdvancement_publish_failure schedulerDefaults 1
           (demoWorld (Throw "service unavailable")) _
           "Post creation failed: Reddit post creation failed: service unavailable"
           demoGame); reflexivity.
Defined.

(** The same run, evaluated.  One execution leaves the game at [cave] in
    round 2 with no post for it; the retries of [handleRoundAdvancement]
    then start from that state and advance once more, to [exit] in
    round 3. *)
Lemma publish_failure_is_not_rolled_back :
  Redis.GAME_STATE (redis (demoWorld (Throw "service unavailable")))
  = Some (GameState.mk "start" 1 ["start"] true 1000 24 (Some false))
  /\ snd (SchedulerHandler.executeRoundAdvancement schedulerDefaults 1
            (demoWorld (Throw "service unavailable")))
     = Throw ("Failed to create next round post: Post creation failed: "
              +:+ "Reddit post creation failed: service unavailable")
  /\ Redis.GAME_STATE
       (redis (fst (SchedulerHandler.executeRoundAdvancement schedulerDefaults 1
                      (demoWorld (Throw "service unavailable")))))
     = Some (GameState.mk "cave" 2 ["start"; "cave"] true 5000 24 (Some false))
  /\ Redis.GAME_STATE
       (redis (fst (SchedulerHandler.handleRoundAdvancement schedulerDefaults
                      round1Fires (demoWorld (Throw "service unavailable")))))
     = Some (GameState.mk "exit" 3 ["start"; "cave"; "exit"] true 10000 24 (Some false)).
Proof. repeat split. Qed.

(** ** Reachability: the traversal of [validateStoryReferences] *)

Lemma assoc_In {A} k (kvs : list (string * A)) a :
  JS.assoc k kvs = Some a -> In (k, a) kvs.
Proof.
  induction kvs as [|[k' a'] rest IH]; cbn; [discriminate|].
  destruct (String.eqb_spec k' k) as [->|].
  - intros [= ->]. auto.
  - auto.
Qed.

Lemma node_In_nodeIds story id node :
  Story.node story id = Some node -> In id (Story.nodeIds story).
Proof.
  unfold Story.node, Story.nodeIds. intros H%assoc_In.
  apply in_map_iff. exists (id, node). auto.
Qed.

Lemma checkReferences_ok story : forall nodeIds,
  StoryEngine.checkReferences story nodeIds = Ok tt ->
  forall id, In id nodeIds ->
  exists node,
    Story.node story id = Some node
    /\ forall choice, In choice (default [] (StoryNode.choices node)) ->
                      is_Some (Story.node story (Choice.nextNodeId choice)).
Proof.
  induction nodeIds as [|first rest IH]; intros Hok id Hin; [destruct Hin|].
  cbn [StoryEngine.checkReferences] in Hok.
  destruct (Story.node story first) as [node|] eqn:Hnode; [|discriminate].
  destruct (StoryEngine.danglingChoice story _) as [bad|] eqn:Hd; [discriminate|].
  destruct Hin as [<-|Hin]; [|auto].
  exists node. split; [exact Hnode|]. intros choice Hc.
  unfold StoryEngine.danglingChoice in Hd.
  pose proof (List.find_none _ _ Hd choice Hc) as Hres. cbn beta in Hres.
  destruct (Story.node story (Choice.nextNodeId choice)); [eauto|discriminate].
Qed.

Lemma targets_Some story id node :
  Story.node story id = Some node ->
  StoryEngine.targets story id
  = Some (map Choice.nextNodeId (default [] (StoryNode.choices node))).
Proof.
  unfold StoryEngine.targets. intros ->. destruct (StoryNode.choices node); reflexivity.
Qed.

Lemma references_resolve story :
  StoryEngine.checkReferences story (Story.nodeIds story) = Ok tt ->
  forall a b, Edge story a b -> is_Some (Story.node story b).
Proof.
  intros Hok a b (ts & Hts & Hb).
  destruct (Story.node story a) as [node|] eqn:Hnode.
  2:{ unfold StoryEngine.targets in Hts. rewrite Hnode in Hts. discriminate. }
  destruct (checkReferences_ok story _ Hok a (node_In_nodeIds _ _ _ Hnode))
    as (node' & Hnode' & Hall).
  rewrite Hnode in Hnode'. injection Hnode' as <-.
  rewrite (targets_Some _ _ _ Hnode) in Hts. injection Hts as <-.
  apply in_map_iff in Hb as (choice & <- & Hc). auto.
Qed.

Lemma weight_empty story : weight story ∅ = StoryEngine.choiceCount story.
Proof. reflexivity. Qed.

Lemma weight_visit story n node visited :
  Story.node story n = Some node ->
  n ∉ visited ->
  (weight story ({[n]} ∪ visited) + length (default [] (StoryNode.choices node))
   <= weight story visited)%nat.
Proof.
  unfold Story.node, weight, list_sum. generalize (Story.nodes story) as kvs.
  assert (Hmono : forall kvs : list (string * StoryNode.t),
    (fold_right Nat.add O
       (map (fun kv => if decide (fst kv ∈ {[n]} ∪ visited) then O
                       else length (default [] (StoryNode.choices (snd kv)))) kvs)
     <= fold_right Nat.add O
          (map (fun kv => if decide (fst kv ∈ visited) then O
                          else length (default [] (StoryNode.choices (snd kv)))) kvs))%nat).
  { induction kvs as [|[k a] rest IH]; cbn; [lia|].
    destruct (decide (k ∈ {[n]} ∪ visited)) as [|Hno]; destruct (decide (k ∈ visited));
      try lia.
    exfalso. apply Hno, elem_of_union. auto. }
  induction kvs as [|[k a] rest IH]; cbn; [discriminate|].
  destruct (String.eqb_spec k n) as [->|Hk].
  - intros [= ->] Hn. specialize (Hmono rest).
    destruct (decide (n ∈ {[n]} ∪ visited)) as [_|Hno];
      [|exfalso; apply Hno, elem_of_union; left; apply elem_of_singleton; reflexivity].
    destruct (decide (n ∈ visited)); [tauto|]. lia.
  - intros Hnode Hn. specialize (IH Hnode Hn).
    destruct (decide (k ∈ {[n]} ∪ visited)) as [|Hno]; destruct (decide (k ∈ visited));
      try lia.
    exfalso. apply Hno, elem_of_union. auto.
Qed.

Section Traversal.
Variable story : Story.t.
Hypothesis resolve : forall a b, Edge story a b -> is_Some (Story.node story b).

Lemma traverse_reachable : forall fuel nodesToVisit (visited : gset string),
  (length nodesToVisit + weight story visited < fuel)%nat ->
  (forall x, In x nodesToVisit -> is_Some (Story.node story x)) ->
  (forall x, x ∈ visited \/ In x nodesToVisit -> Reachable story x) ->
  (forall v t, v ∈ visited -> Edge story v t -> t ∈ visited \/ In t nodesToVisit) ->
  (Story.startNodeId story ∈ visited \/ In (Story.startNodeId story) nodesToVisit) ->
  exists reachable : gset string,
    StoryEngine.traverse story fuel nodesToVisit visited = Some (Ok reachable)
    /\ forall id, id ∈ reachable <-> Reachable story id.
Proof.
  induction fuel as [|fuel IH]; intros stack visited Hfuel Hkeys Hsound Hclosed Hstart;
    [lia|].
  destruct stack as [|n rest]; cbn [StoryEngine.traverse].
  - exists visited. split; [reflexivity|]. intros id. split; [auto|].
    induction 1 as [|a b _ IHa Hab].
    + destruct Hstart as [|[]]; assumption.
    + destruct (Hclosed a b IHa Hab) as [|[]]; assumption.
  - destruct (decide (n ∈ visited)) as [Hn|Hn].
    + apply IH.
      * cbn in Hfuel. lia.
      * intros x Hx. apply Hkeys. right. exact Hx.
      * intros x [Hx|Hx]; apply Hsound; auto. right. right. exact Hx.
      * intros v t Hv Hvt. destruct (Hclosed v t Hv Hvt) as [|[<-|]]; auto.
      * destruct Hstart as [|[<-|]]; auto.
    + destruct (Hkeys n (or_introl eq_refl)) as [node Hnode].
      rewrite (targets_Some _ _ _ Hnode). cbv zeta.
      set (ts := map Choice.nextNodeId (default [] (StoryNode.choices node))).
      assert (Hedge : forall t, In t ts -> Edge story n t).
      { intros t Ht. exists ts. split; [apply targets_Some; exact Hnode|exact Ht]. }
      assert (Hpushed : forall t,
                In t (rev (List.filter
                             (fun t => bool_decide (t ∉ {[n]} ∪ visited)) ts) ++ rest)
                <-> (In t ts /\ t ∉ {[n]} ∪ visited) \/ In t rest).
      { intros t. rewrite in_app_iff, <- in_rev, List.filter_In, bool_decide_eq_true.
        reflexivity. }
      apply IH.
      * pose proof (weight_visit story n node visited Hnode Hn) as Hw.
        rewrite length_app, length_rev.
        pose proof (List.filter_length_le
                      (fun t => bool_decide (t ∉ {[n]} ∪ visited)) ts) as Hle.
        assert (length ts = length (default [] (StoryNode.choices node))) as Hlen
          by apply length_map.
        cbn in Hfuel. lia.
      * intros x [[Hx _]|Hx]%Hpushed; [eapply resolve; eauto|apply Hkeys; right; exact Hx].
      * intros x [Hx|[[Hx _]|Hx]%Hpushed].
        -- apply elem_of_union in Hx as [->%elem_of_singleton|Hx].
           ++ apply Hsound. right. left. reflexivity.
           ++ apply Hsound. left. exact Hx.
        -- eapply Reachable_step; [apply Hsound; right; left; reflexivity|auto].
        -- apply Hsound. right. right. exact Hx.
      * intros v t Hv Hvt.
        destruct (decide (t ∈ {[n]} ∪ visited)) as [Ht|Ht]; [auto|]. right.
        apply Hpushed.
        apply elem_of_union in Hv as [->%elem_of_singleton|Hv].
        -- left. split; [|exact Ht].
           destruct Hvt as (ts' & Hts' & Hin).
           rewrite (targets_Some _ _ _ Hnode) in Hts'. injection Hts' as <-. exact Hin.
        -- destruct (Hclosed v t Hv Hvt) as [Hin|[<-|Hin]]; [| |auto]; exfalso;
             apply Ht, elem_of_union; [right; exact Hin|left; apply elem_of_singleton; reflexivity].
      * destruct Hstart as [Hs|[<-|Hs]];
          [left; apply elem_of_union; auto
          |left; apply elem_of_union; left; apply elem_of_singleton; reflexivity|].
        destruct (decide (Story.startNodeId story ∈ {[n]} ∪ visited)); [auto|].
        right. apply Hpushed. auto.
Qed.

End Traversal.

(** C6 (as amended).  For every story that passes the three fatal checks
    of [StoryEngine.validateStoryReferences] (the start node exists, every
    choice leads to a node of the story, some node is an end node), the
    traversal terminates, the set it collects is exactly the set of node
    ids reachable from [startNodeId] along choices, and the validation
    succeeds: the node ids outside that set are reported in one warning,
    in node order, and there is no warning when every node is reachable. *)
Theorem validateStoryReferences_warns_unreachable story :
  fatalChecksPass story ->
  exists reachable : gset string,
    (forall id, id ∈ reachable <-> Reachable story id)
    /\ StoryEngine.validateStoryReferences story
       = Some (Ok match List.filter (fun id => bool_decide (id ∉ reachable))
                          (Story.nodeIds story) with
                  | [] => []
                  | unreachableNodes =>
                      ["Warning: Found " +:+ pretty (Z.of_nat (length unreachableNodes))
                       +:+ " unreachable nodes: " +:+ JS.join ", " unreachableNodes]
                  end).
Proof.
  intros ([start Hstart] & Hrefs & (endId & endNode & HendIn & HendNode & HisEnd)).
  destruct (traverse_reachable story (references_resolve story Hrefs)
              (S (S (StoryEngine.choiceCount story))) [Story.startNodeId story] ∅)
    as (reachable & Htraverse & Hreachable).
  - rewrite weight_empty. cbn. lia.
  - intros x [<-|[]]. eauto.
  - intros x [Hx|[<-|[]]]; [apply not_elem_of_empty in Hx; destruct Hx|constructor].
  - intros v t Hv. apply not_elem_of_empty in Hv. destruct Hv.
  - right. left. reflexivity.
  - exists reachable. split; [exact Hreachable|].
    unfold StoryEngine.validateStoryReferences, StoryEngine.referenceWarnings,
      StoryEngine.endNodes, StoryEngine.reachableNodes. cbv zeta.
    rewrite Hstart, Hrefs, Htraverse.
    match goal with
    | |- match ?ends with _ => _ end = _ =>
        assert (Hends : In endId ends)
    end.
    { apply List.filter_In. split; [exact HendIn|]. rewrite HendNode, HisEnd. reflexivity. }
    match goal with
    | |- match ?ends with _ => _ end = _ => destruct ends; [destruct Hends|]
    end.
    destruct (List.filter _ (Story.nodeIds story)); reflexivity.
Qed.

Lemma validateStoryReferences_warns_unreachable_witness :
  exists reachable : gset string,
    (forall id, id ∈ reachable <-> Reachable orphanStory id)
    /\ StoryEngine.validateStoryReferences orphanStory
       = Some (Ok match List.filter (fun id => bool_decide (id ∉ reachable))
                          (Story.nodeIds orphanStory) with
                  | [] => []
                  | unreachableNodes =>
                      ["Warning: Found " +:+ pretty (Z.of_nat (length unreachableNodes))
                       +:+ " unreachable nodes: " +:+ JS.join ", " unreachableNodes]
                  end).
Proof.
  apply (validateStoryReferences_warns_unreachable orphanStory).
  split; [exists (default (StoryNode.mk "" "" "" None None None)
                    (Story.node orphanStory "start")); reflexivity|].
  split; [reflexivity|].
  exists "exit", (default (StoryNode.mk "" "" "" None None None)
                    (Story.node orphanStory "exit")).
  split; [cbn; tauto|]. split; reflexivity.
Defined.

(** C6, the claim as stated, fails for the validator of uploads: the same
    story, which [StoryEngine] accepts with a warning, is rejected by
    [SettingsHandler.validateStoryJson], which lists the unreached node
    among its errors. *)
Lemma validateStoryJson_rejects_unreachable :
  StoryEngine.story_of_json orphanStoryJson = Some orphanStory
  /\ StoryEngine.validateStoryStructure orphanStoryJson = Ok tt
  /\ StoryEngine.validateStoryReferences orphanStory
     = Some (Ok ["Warning: Found 1 unreachable nodes: orphan"])
  /\ SettingsHandler.validateStoryJson orphanStoryJson
     = Some (StoryValidationResult.mk false ["Unreachable nodes found: orphan"] [] None).
Proof. repeat split. Qed.

(** ** Validation findings: accumulated or first only *)

(** ** [findReachableNodes] returns *)

Section Traversal.
Import SettingsHandler.

Lemma same_value_item_of place v :
  same_value (item_of place v) (item_of place v) = true.
Proof.
  destruct v as [[|b|z|s|xs|kvs]|]; cbn; auto.
  - destruct b; reflexivity.
  - apply Z.eqb_refl.
  - apply String.eqb_refl.
  - apply bool_decide_eq_true_2. reflexivity.
  - apply bool_decide_eq_true_2. reflexivity.
Qed.

Lemma has_app reachable x c :
  has (reachable ++ [c]) x = has reachable x || same_value x c.
Proof. unfold has. rewrite existsb_app. cbn. rewrite orb_false_r. reflexivity. Qed.

(** A filter that keeps less, and drops an element the other keeps, is
    shorter. *)
Lemma filter_length_lt {A} (f g : A -> bool) (c : A) : forall items,
  (forall x, g x = true -> f x = true) ->
  In c items -> f c = true -> g c = false ->
  (length (List.filter g items) < length (List.filter f items))%nat.
Proof.
  intros items Hsub. induction items as [|x items IH]; intros Hin Hf Hg; [destruct Hin|].
  assert (Hle : forall l, (length (List.filter g l) <= length (List.filter f l))%nat).
  { induction l as [|y l IHl]; [reflexivity|]. cbn.
    destruct (g y) eqn:Hgy; [rewrite (Hsub y Hgy); cbn; lia|].
    destruct (f y); cbn; lia. }
  cbn. destruct Hin as [->|Hin].
  - rewrite Hf, Hg. cbn. specialize (Hle items). lia.
  - specialize (IH Hin Hf Hg).
    destruct (g x) eqn:Hgx; [rewrite (Hsub x Hgx); cbn; lia|].
    destruct (f x); cbn; lia.
Qed.

Lemma unvisited_add items reachable c :
  In c items -> has reachable c = false -> same_value c c = true ->
  (unvisited items (reachable ++ [c]) < unvisited items reachable)%nat.
Proof.
  intros Hin Hnot Hrefl. unfold unvisited.
  apply (filter_length_lt _ _ c); auto.
  - intros x. rewrite has_app. destruct (has reachable x); cbn; auto.
  - rewrite Hnot. reflexivity.
  - rewrite has_app, Hrefl, orb_true_r. reflexivity.
Qed.

Lemma unvisited_le items reachable : (unvisited items reachable <= length items)%nat.
Proof. unfold unvisited. apply List.filter_length_le. Qed.

(** What [pushTargets] puts on the stack. *)
Lemma pushTargets_ok key reachable : forall choices index toVisit toVisit',
  pushTargets key index choices reachable toVisit = Ok toVisit' ->
  exists pushed,
    toVisit' = pushed ++ toVisit
    /\ (length pushed <= length choices)%nat
    /\ forall x,
         In x pushed ->
         exists i choice,
           choices !! i = Some choice
           /\ x = item_of (Some (key, (index + i)%nat)) (JS.get choice "nextNodeId").
Proof.
  induction choices as [|choice rest IH]; intros index toVisit toVisit' Hpush.
  - cbn in Hpush. injection Hpush as <-. exists []. repeat split; auto.
    intros x [].
  - assert (Hstep :
              pushTargets key (S index) rest reachable
                (if has reachable (item_of (Some (key, index))
                                     (JS.get choice "nextNodeId"))
                 then toVisit
                 else item_of (Some (key, index)) (JS.get choice "nextNodeId")
                      :: toVisit)
              = Ok toVisit').
    { destruct choice; [discriminate Hpush|exact Hpush..]. }
    apply IH in Hstep as (pushed & -> & Hlen & Hall).
    assert (Hshift : forall x,
              In x pushed ->
              exists i c,
                (choice :: rest) !! i = Some c
                /\ x = item_of (Some (key, (index + i)%nat)) (JS.get c "nextNodeId")).
    { intros x Hx. destruct (Hall x Hx) as (i & c & Hi & ->).
      exists (S i), c. split; [exact Hi|]. do 3 f_equal. lia. }
    destruct (has reachable _).
    + exists pushed. split; [reflexivity|]. split; [cbn; lia|exact Hshift].
    + exists (pushed ++ [item_of (Some (key, index)) (JS.get choice "nextNodeId")]).
      split; [rewrite <- app_assoc; reflexivity|].
      split; [rewrite length_app; cbn; lia|].
      intros x Hx. apply in_app_or in Hx as [Hx|[<-|[]]]; [auto|].
      exists O, choice. split; [reflexivity|]. do 3 f_equal. lia.
Qed.

Lemma choiceItems_length key choices :
  (length (choiceItems key choices)
   <= match choices with
      | Some c => length (JS.entries (Some c))
      | None => O
      end)%nat.
Proof.
  destruct choices as [[|b|z|s|xs|kvs]|]; cbn [choiceItems]; try (cbn; lia).
  - rewrite length_imap, length_map. reflexivity.
  - rewrite length_imap, length_map. reflexivity.
Qed.

Lemma universe_length parsedStory nodes :
  (length (universe parsedStory nodes) <= 1 + choiceCount nodes)%nat.
Proof.
  unfold universe, choiceCount, list_sum. cbn [length]. apply le_n_S.
  induction (JS.entries (Some nodes)) as [|kv rest IH]; [reflexivity|].
  cbn [flat_map map foldr]. rewrite length_app.
  pose proof (choiceItems_length (fst kv) (JS.get (snd kv) "choices")).
  lia.
Qed.

Lemma choiceCount_bound nodes key node :
  In (key, node) (JS.entries (Some nodes)) ->
  (length (choiceItems key (JS.get node "choices")) <= choiceCount nodes)%nat.
Proof.
  unfold choiceCount, list_sum.
  induction (JS.entries (Some nodes)) as [|kv rest IH]; intros Hin; [destruct Hin|].
  cbn [map foldr].
  destruct Hin as [->|Hin].
  - pose proof (choiceItems_length key (JS.get node "choices")). cbn [snd]. lia.
  - specialize (IH Hin). lia.
Qed.

Lemma choiceItems_universe parsedStory nodes key node x :
  In (key, node) (JS.entries (Some nodes)) ->
  In x (choiceItems key (JS.get node "choices")) ->
  In x (universe parsedStory nodes).
Proof.
  intros Hin Hx. unfold universe. apply in_cons, in_flat_map. exists (key, node). auto.
Qed.

Lemma universe_reflexive parsedStory nodes :
  Forall (fun x => same_value x x = true) (universe parsedStory nodes).
Proof.
  apply List.Forall_forall. unfold universe. intros x Hx.
  apply in_inv in Hx as [<-|Hx]; [apply same_value_item_of|].
  apply in_flat_map in Hx as ([key node] & _ & Hx). cbn [fst snd] in Hx.
  destruct (JS.get node "choices") as [[|b|z|s|xs|kvs]|]; cbn [choiceItems] in Hx;
    try destruct Hx.
  all: apply list_elem_of_In, elem_of_lookup_imap in Hx as (i & c & -> & _).
  all: apply same_value_item_of.
Qed.

(** The value under a key is that of an entry, or the [length] of an
    array or a string. *)
Lemma get_entry nodes key node :
  JS.get nodes key = Some node ->
  In (key, node) (JS.entries (Some nodes)) \/ exists z, node = JS.JNum z.
Proof.
  destruct nodes as [|b|z|s|xs|kvs]; cbn [JS.get JS.entries]; try discriminate.
  - destruct (String.eqb key "length"); [intros [= <-]; eauto|].
    intros H. left. apply assoc_In. exact H.
  - destruct (String.eqb key "length"); [intros [= <-]; eauto|].
    intros H. left. apply assoc_In. exact H.
  - intros H. left. apply assoc_In. exact H.
Qed.

(** The traversal returns when the fuel exceeds the length of the stack
    plus, for every item not yet reached, the number of choices a visit
    can push. *)
Lemma traverse_returns parsedStory nodes : forall fuel toVisit reachable,
  (forall x, In x toVisit -> In x (universe parsedStory nodes)) ->
  (length toVisit
   + choiceCount nodes * unvisited (universe parsedStory nodes) reachable < fuel)%nat ->
  exists r, traverse nodes fuel toVisit reachable = Some r.
Proof.
  induction fuel as [|fuel IH]; intros toVisit reachable Hstack Hfuel; [lia|].
  cbn [traverse]. destruct toVisit as [|current rest]; [eauto|].
  cbn [length] in Hfuel.
  assert (Hrest : forall x, In x rest -> In x (universe parsedStory nodes)).
  { intros x Hx. apply Hstack. right. exact Hx. }
  destruct (has reachable current) eqn:Hhas; [apply IH; [exact Hrest|lia]|].
  assert (Hin : In current (universe parsedStory nodes)) by (apply Hstack; left; reflexivity).
  assert (Hrefl : same_value current current = true).
  { pose proof (universe_reflexive parsedStory nodes) as Hall.
    rewrite List.Forall_forall in Hall. auto. }
  pose proof (unvisited_add _ _ _ Hin Hhas Hrefl) as Hless.
  cbv zeta.
  set (key := item_key current) in *.
  set (reachable' := reachable ++ [current]) in *.
  assert (Hskip : exists r, traverse nodes fuel rest reachable' = Some r).
  { apply IH; [exact Hrest|]. nia. }
  destruct (JS.get nodes key) as [node|] eqn:Hnode; [|exact Hskip].
  destruct (JS.truthy (Some node) && JS.truthy (JS.get node "choices")) eqn:Htruthy;
    [|exact Hskip].
  destruct (get_entry _ _ _ Hnode) as [Hentry|[z ->]].
  2: { cbn in Htruthy. rewrite andb_false_r in Htruthy. discriminate. }
  pose proof (choiceCount_bound _ _ _ Hentry) as Hbound.
  assert (Hpush : forall iterable,
            JS.get node "choices" = Some iterable ->
            choiceItems key (Some iterable)
            = imap (fun index choice =>
                      item_of (Some (key, index)) (JS.get choice "nextNodeId"))
                (map snd (JS.entries (Some iterable))) ->
            exists r,
              match pushTargets key 0 (map snd (JS.entries (Some iterable)))
                      reachable' rest with
              | Throw message => Some (Throw message)
              | Ok toVisit => traverse nodes fuel toVisit reachable'
              end = Some r).
  { intros iterable Hch Hitems.
    destruct (pushTargets key 0 _ reachable' rest) as [toVisit|message] eqn:Hp; [|eauto].
    apply pushTargets_ok in Hp as (pushed & -> & Hlen & Hall).
    rewrite Hch, Hitems, length_imap in Hbound.
    apply IH.
    - intros x Hx. apply in_app_or in Hx as [Hx|Hx]; [|auto].
      destruct (Hall x Hx) as (i & choice & Hi & ->).
      apply (choiceItems_universe parsedStory nodes key node); [exact Hentry|].
      rewrite Hch, Hitems. apply list_elem_of_In, elem_of_lookup_imap.
      exists i, choice. split; [reflexivity|exact Hi].
    - rewrite length_app. nia. }
  destruct (JS.get node "choices") as [[|b|z|s|xs|kvs]|] eqn:Hch; eauto.
Qed.

Lemma findReachableNodes_returns parsedStory nodes :
  exists r, findReachableNodes parsedStory nodes = Some r.
Proof.
  unfold findReachableNodes. cbv zeta.
  apply (traverse_returns parsedStory).
  - intros x [<-|[]]. left. reflexivity.
  - pose proof (unvisited_le (universe parsedStory nodes) []) as Hle.
    pose proof (universe_length parsedStory nodes) as Hlen.
    cbn [length]. nia.
Qed.

End Traversal.

(** ** [validateStoryJson] returns *)

Lemma gt_number_length v n :
  numericLength v = true ->
  exists b,
    JS.gt_number match v with
                 | Some c => JS.length_of c
                 | None => None
                 end n = Some b.
Proof.
  unfold JS.length_of.
  destruct v as [[|b|z|s|xs|kvs]|]; cbn [JS.get numericLength]; intros Hv;
    try (cbn; eauto; fail).
  destruct (JS.assoc "length" kvs) as [[|b|z|s|xs|kvs']|]; cbn; eauto; discriminate.
Qed.

Lemma validateStoryNode_returns node nodeId allNodeIds :
  numericLength (JS.get node "choices") = true ->
  exists r, SettingsHandler.validateStoryNode node nodeId allNodeIds = Some r.
Proof.
  intros Hlength. unfold SettingsHandler.validateStoryNode.
  destruct node as [|b|z|s|xs|kvs] eqn:Hnode; [eauto|..].
  all: rewrite <- Hnode in *; clear Hnode; cbv zeta.
  all: match goal with
       | |- context [match ?oc with Throw _ => _ | Ok _ => _ end] =>
           destruct oc as [choiceErrors|]; [|eauto]
       end.
  all: destruct (JS.truthy (JS.get node "isEnd") && JS.truthy (JS.get node "choices"));
    [|eauto].
  all: destruct (gt_number_length (JS.get node "choices") 0 Hlength) as [b' Hb].
  all: rewrite Hb; eauto.
Qed.

Lemma validateNodes_returns nodes allNodeIds : forall todo,
  (forall nodeId node,
      In nodeId todo -> JS.get nodes nodeId = Some node ->
      numericLength (JS.get node "choices") = true) ->
  exists r, SettingsHandler.validateNodes nodes todo allNodeIds = Some r.
Proof.
  induction todo as [|nodeId rest IH]; intros Hall; [cbn; eauto|].
  cbn [SettingsHandler.validateNodes].
  destruct (JS.get nodes nodeId) as [node|] eqn:Hnode; [|eauto].
  destruct (validateStoryNode_returns node nodeId allNodeIds) as [[nodeErrors|m] ->];
    [eapply Hall; [left; reflexivity|exact Hnode]| |eauto].
  destruct IH as [[more|m] ->]; eauto.
  intros id n Hin. apply Hall. right. exact Hin.
Qed.

Lemma numericLengths_node parsedStory nodes nodeId node :
  numericLengths parsedStory = true ->
  JS.get parsedStory "nodes" = Some nodes ->
  JS.get nodes nodeId = Some node ->
  numericLength (JS.get node "choices") = true.
Proof.
  unfold numericLengths. intros Hall Hnodes Hnode.
  apply andb_prop in Hall as [_ Hall]. rewrite Hnodes in Hall.
  destruct (get_entry _ _ _ Hnode) as [Hentry|[z ->]]; [|reflexivity].
  rewrite forallb_forall in Hall. apply (Hall (nodeId, node)). exact Hentry.
Qed.

Lemma nodesErrors_returns parsedStory nodes :
  numericLengths parsedStory = true ->
  JS.get parsedStory "nodes" = Some nodes ->
  exists r, SettingsHandler.nodesErrors parsedStory nodes = Some r.
Proof.
  intros Hall Hnodes. unfold SettingsHandler.nodesErrors. cbv zeta.
  destruct (validateNodes_returns nodes (map fst (JS.entries (Some nodes)))
              (map fst (JS.entries (Some nodes)))) as [[nodeErrors|m] ->]; [|..|eauto].
  { intros nodeId node _ Hnode. eapply numericLengths_node; eauto. }
  destruct (findReachableNodes_returns parsedStory nodes)
    as [[reachable|m] ->]; eauto.
Qed.

Lemma longerThan_returns v n :
  numericLength v = true -> exists b, SettingsHandler.longerThan v n = Some b.
Proof.
  intros Hv. unfold SettingsHandler.longerThan.
  destruct v as [j|]; [|eauto].
  destruct (JS.truthy (Some j)); [|eauto].
  exact (gt_number_length (Some j) n Hv).
Qed.

(** ** Every defect is reported *)

Lemma not_valid_string_true v : ~ validText v -> JS.not_valid_string v = true.
Proof.
  intros Hnot. unfold JS.not_valid_string.
  destruct v as [[|b|z|s|xs|kvs]|]; cbn; rewrite ?orb_true_r; try reflexivity.
  destruct (String.eqb_spec s ""); [reflexivity|].
  exfalso. apply Hnot. exists s. auto.
Qed.

Lemma valid_string_false v : validText v -> JS.not_valid_string v = false.
Proof.
  intros (s & -> & Hs). unfold JS.not_valid_string. cbn.
  destruct (String.eqb_spec s ""); [contradiction|reflexivity].
Qed.

Lemma validateChoice_reports choice nodeId index allNodeIds errors e :
  SettingsHandler.validateChoice choice nodeId index allNodeIds = Ok errors ->
  ChoiceDefect nodeId index allNodeIds choice e ->
  In e errors.
Proof.
  unfold SettingsHandler.validateChoice.
  destruct choice as [|b|z|s|xs|kvs] eqn:Hchoice; [discriminate|..].
  all: rewrite <- Hchoice; clear Hchoice; cbv zeta; intros [= <-] Hdefect.
  all: destruct Hdefect as [Hid|Htext|Hnext|next Hnext Hne Hdangling].
  all: try (apply not_valid_string_true in Hid; rewrite Hid;
            apply in_or_app; left; left; reflexivity).
  all: try (apply not_valid_string_true in Htext; rewrite Htext;
            apply in_or_app; right; apply in_or_app; left; left; reflexivity).
  all: try (apply not_valid_string_true in Hnext; rewrite Hnext;
            apply in_or_app; right; apply in_or_app; right; left; reflexivity).
  all: apply in_or_app; right; apply in_or_app; right.
  all: match goal with
       | H : JS.get _ "nextNodeId" = Some (JS.JStr ?n), Hn : ?n <> "",
         Hd : ~ In ?n ?ids |- _ =>
           rewrite valid_string_false by (exists n; auto); rewrite H;
           destruct (existsb (String.eqb n) ids) eqn:Hex;
           [|left; reflexivity];
           exfalso; apply Hd;
           apply existsb_exists in Hex as (x & Hin & Heq);
           apply String.eqb_eq in Heq; subst x; exact Hin
       end.
Qed.

Lemma validateChoices_reports nodeId allNodeIds : forall choices first errors i choice e,
  SettingsHandler.validateChoices choices nodeId first allNodeIds = Ok errors ->
  choices !! i = Some choice ->
  ChoiceDefect nodeId (first + i) allNodeIds choice e ->
  In e errors.
Proof.
  induction choices as [|c cs IH]; intros first errors i choice e Hv Hi Hdefect;
    [destruct i; discriminate|].
  cbn [SettingsHandler.validateChoices] in Hv.
  destruct (SettingsHandler.validateChoice c nodeId first allNodeIds) as [here|]
    eqn:Hc; [|discriminate].
  destruct (SettingsHandler.validateChoices cs nodeId (S first) allNodeIds) as [more|]
    eqn:Hcs; [|discriminate].
  injection Hv as <-. apply in_or_app.
  destruct i as [|i]; cbn in Hi.
  - injection Hi as <-. left. rewrite Nat.add_0_r in Hdefect.
    eapply validateChoice_reports; eauto.
  - right. eapply IH; eauto. replace (S first + i)%nat with (first + S i)%nat by lia.
    exact Hdefect.
Qed.

(** [validateStoryNode] on a node that is not [null], with its parts
    named. *)
Lemma validateStoryNode_Ok node nodeId allNodeIds errors :
  SettingsHandler.validateStoryNode node nodeId allNodeIds = Some (Ok errors) ->
  exists choiceErrors endWithChoices,
    match JS.get node "choices" with
    | Some (JS.JArr cs) => SettingsHandler.validateChoices cs nodeId 0 allNodeIds
    | Some _ =>
        if JS.truthy (JS.get node "choices")
        then Ok ["Node " +:+ JS.quoted nodeId +:+ " choices must be an array"]
        else Ok []
    | None => Ok []
    end = Ok choiceErrors
    /\ (if JS.truthy (JS.get node "isEnd") && JS.truthy (JS.get node "choices")
        then JS.gt_number match JS.get node "choices" with
                          | Some c => JS.length_of c
                          | None => None
                          end 0
        else Some false) = Some endWithChoices
    /\ errors
       = ((if negb (JS.truthy (JS.get node "id"))
              || negb (JS.strict_eq_string (JS.get node "id") nodeId)
           then ["Node " +:+ JS.quoted nodeId +:+ " must have matching id field"]
           else [])
          ++ (if JS.not_valid_string (JS.get node "title")
              then ["Node " +:+ JS.quoted nodeId +:+ " must have a valid title"]
              else [])
          ++ (if JS.not_valid_string (JS.get node "content")
              then ["Node " +:+ JS.quoted nodeId +:+ " must have valid content"]
              else [])
          ++ (if JS.truthy (JS.get node "imageUrl")
                 && negb (String.eqb (JS.typeof (JS.get node "imageUrl")) "string")
              then ["Node " +:+ JS.quoted nodeId +:+ " imageUrl must be a string"]
              else []))
         ++ choiceErrors
         ++ (if endWithChoices
             then ["End node " +:+ JS.quoted nodeId +:+ " should not have choices"]
             else [])
         ++ (if negb (JS.truthy (JS.get node "isEnd"))
                && (negb (JS.truthy (JS.get node "choices"))
                    || JS.strict_eq_zero match JS.get node "choices" with
                                         | Some c => JS.length_of c
                                         | None => None
                                         end)
             then ["Non-end node " +:+ JS.quoted nodeId
                   +:+ " must have at least one choice"]
             else []).
Proof.
  unfold SettingsHandler.validateStoryNode.
  destruct node as [|b|z|s|xs|kvs] eqn:Hnode; [discriminate|..].
  all: rewrite <- Hnode; clear Hnode; cbv zeta.
  all: match goal with
       | |- context [match ?oc with Throw _ => _ | Ok _ => _ end] =>
           destruct oc as [choiceErrors|] eqn:Hof; [|discriminate]
       end.
  all: match goal with
       | |- context [match ?c with Some _ => _ | None => None end = _ -> _] =>
           destruct c as [endWithChoices|] eqn:Hend; [|discriminate]
       end.
  all: intros [= <-]; exists choiceErrors, endWithChoices; auto.
Qed.

Lemma validateStoryNode_reports node nodeId allNodeIds errors e :
  SettingsHandler.validateStoryNode node nodeId allNodeIds = Some (Ok errors) ->
  NodeDefect nodeId allNodeIds node e ->
  In e errors.
Proof.
  intros Hv Hdefect.
  apply validateStoryNode_Ok in Hv as (choiceErrors & endWithChoices & Hof & Hend & ->).
  destruct Hdefect as [Hid|Htitle|Hcontent|Htruthy Himage|Htruthy Hchoices
                      |choices index choice e Hchoices Hindex Hdefect
                      |choice choices HisEnd Hchoices|HisEnd Hchoices].
  - apply in_or_app; left. apply in_or_app; left.
    match goal with
    | |- In _ (if ?c then _ else _) => assert (c = true) as ->; [|left; reflexivity]
    end.
    destruct (JS.get node "id") as [[|b|z|s|xs|kvs]|]; try reflexivity;
      try (cbn; apply orb_true_r).
    cbn. destruct (String.eqb_spec s nodeId) as [->|]; [|apply orb_true_r].
    destruct (String.eqb_spec nodeId "") as [->|Hne]; [reflexivity|].
    exfalso. apply Hid. auto.
  - apply in_or_app; left. apply in_or_app; right. apply in_or_app; left.
    rewrite not_valid_string_true by exact Htitle. left; reflexivity.
  - apply in_or_app; left. apply in_or_app; right. apply in_or_app; right.
    apply in_or_app; left.
    rewrite not_valid_string_true by exact Hcontent. left; reflexivity.
  - apply in_or_app; left. apply in_or_app; right. apply in_or_app; right.
    apply in_or_app; right. rewrite Htruthy.
    destruct (JS.get node "imageUrl") as [[|b|z|s|xs|kvs]|]; try (left; reflexivity).
    exfalso. exact (Himage s eq_refl).
  - apply in_or_app; right. apply in_or_app; left.
    rewrite Htruthy in Hof.
    destruct (JS.get node "choices") as [[|b|z|s|xs|kvs]|];
      try (injection Hof as <-; left; reflexivity); try discriminate.
    exfalso. exact (Hchoices xs eq_refl).
  - apply in_or_app; right. apply in_or_app; left.
    rewrite Hchoices in Hof.
    eapply validateChoices_reports; eauto.
  - apply in_or_app; right. apply in_or_app; right. apply in_or_app; left.
    rewrite HisEnd, Hchoices in Hend. cbn in Hend. injection Hend as <-.
    left; reflexivity.
  - apply in_or_app; right. apply in_or_app; right. apply in_or_app; right.
    rewrite HisEnd. destruct Hchoices as [Hnone|Hempty].
    + rewrite Hnone. left; reflexivity.
    + rewrite Hempty. left; reflexivity.
Qed.

Lemma validateNodes_reports nodes allNodeIds : forall todo errors nodeId node e,
  SettingsHandler.validateNodes nodes todo allNodeIds = Some (Ok errors) ->
  In nodeId todo ->
  JS.get nodes nodeId = Some node ->
  NodeDefect nodeId allNodeIds node e ->
  In e errors.
Proof.
  induction todo as [|first rest IH]; intros errors nodeId node e Hv Hin Hnode Hdefect;
    [destruct Hin|].
  cbn [SettingsHandler.validateNodes] in Hv.
  destruct (JS.get nodes first) as [firstNode|] eqn:Hfirst; [|discriminate].
  destruct (SettingsHandler.validateStoryNode firstNode first allNodeIds)
    as [[nodeErrors|m]|] eqn:Hone; try discriminate.
  destruct (SettingsHandler.validateNodes nodes rest allNodeIds)
    as [[more|m]|] eqn:Hrest; try discriminate.
  injection Hv as <-. apply in_or_app.
  destruct (String.eqb_spec first nodeId) as [->|Hne].
  - left. rewrite Hnode in Hfirst. injection Hfirst as <-.
    eapply validateStoryNode_reports; eauto.
  - right. destruct Hin as [Heq|Hin]; [contradiction|].
    eapply IH; eauto.
Qed.

Lemma nodesErrors_reports parsedStory nodes errors e :
  JS.get parsedStory "nodes" = Some nodes ->
  isObject nodes ->
  SettingsHandler.nodesErrors parsedStory nodes = Some (Ok errors) ->
  StoryDefect parsedStory e ->
  In e (SettingsHandler.topLevelErrors parsedStory ++ errors).
Proof.
  intros Hnodes Hobject Hv Hdefect.
  unfold SettingsHandler.nodesErrors in Hv. cbv zeta in Hv.
  destruct (SettingsHandler.validateNodes nodes _ _) as [[nodeErrors|m]|] eqn:Hvn;
    try discriminate.
  destruct (SettingsHandler.findReachableNodes parsedStory nodes) as [[reachable|m]|];
    try discriminate.
  injection Hv as <-.
  destruct Hdefect as [Htitle|Hdescription|Hstart|nodes' Hnodes' Hnot
                      |nodes' Hnodes' _ Hempty
                      |nodes' startNodeId Hnodes' Hstart Hne Hmissing _
                      |nodes' nodeId node e Hnodes' _ Hin Hnode Hdefect].
  - apply in_or_app; left. unfold SettingsHandler.topLevelErrors.
    rewrite not_valid_string_true by exact Htitle. left; reflexivity.
  - apply in_or_app; left. unfold SettingsHandler.topLevelErrors.
    apply in_or_app; right.
    rewrite not_valid_string_true by exact Hdescription. left; reflexivity.
  - apply in_or_app; left. unfold SettingsHandler.topLevelErrors.
    apply in_or_app; right. apply in_or_app; right.
    rewrite not_valid_string_true by exact Hstart. left; reflexivity.
  - exfalso. rewrite Hnodes in Hnodes'. injection Hnodes' as <-. contradiction.
  - apply in_or_app; right. apply in_or_app; left.
    rewrite Hnodes in Hnodes'. injection Hnodes' as <-.
    unfold JS.entries in Hempty. rewrite Hempty. left; reflexivity.
  - apply in_or_app; right. apply in_or_app; right. apply in_or_app; left.
    rewrite Hnodes in Hnodes'. injection Hnodes' as ->.
    rewrite Hstart. cbn [JS.value_to_string JS.to_string JS.get].
    rewrite Hmissing. cbn [JS.truthy].
    destruct (String.eqb_spec startNodeId ""); [contradiction|].
    left; reflexivity.
  - apply in_or_app; right. apply in_or_app; right. apply in_or_app; right.
    apply in_or_app; left.
    rewrite Hnodes in Hnodes'. injection Hnodes' as <-.
    eapply validateNodes_reports; eauto.
Qed.

Lemma notObject_reports parsedStory nodes e :
  JS.get parsedStory "nodes" = Some nodes ->
  ~ isObject nodes ->
  StoryDefect parsedStory e ->
  In e (SettingsHandler.topLevelErrors parsedStory
        ++ ["Story must have a " +:+ JS.quoted "nodes" +:+ " object"]).
Proof.
  intros Hnodes Hnot Hdefect.
  destruct Hdefect as [Htitle|Hdescription|Hstart|nodes' Hnodes' _
                      |nodes' Hnodes' Hobject _
                      |nodes' startNodeId Hnodes' _ _ _ _
                      |nodes' nodeId node e Hnodes' Hobject _ _ _].
  - apply in_or_app; left. unfold SettingsHandler.topLevelErrors.
    rewrite not_valid_string_true by exact Htitle. left; reflexivity.
  - apply in_or_app; left. unfold SettingsHandler.topLevelErrors.
    apply in_or_app; right.
    rewrite not_valid_string_true by exact Hdescription. left; reflexivity.
  - apply in_or_app; left. unfold SettingsHandler.topLevelErrors.
    apply in_or_app; right. apply in_or_app; right.
    rewrite not_valid_string_true by exact Hstart. left; reflexivity.
  - apply in_or_app; right. left; reflexivity.
  - exfalso. rewrite Hnodes in Hnodes'. injection Hnodes' as <-. contradiction.
  - exfalso. rewrite Hnodes in Hnodes'. injection Hnodes' as ->. apply Hnot. exact I.
  - exfalso. rewrite Hnodes in Hnodes'. injection Hnodes' as <-. contradiction.
Qed.





(* ================================================================== *)
(** * More of the code *)
(* ================================================================== *)

(** ** The store is left alone *)

Lemma keepsStore_refl w : keepsStore w w.
Proof. reflexivity. Qed.

Lemma keepsStore_trans a b c : keepsStore a b -> keepsStore b c -> keepsStore a c.
Proof. unfold keepsStore. congruence. Qed.

Lemma store_external {A} (ask : Env -> nat -> A) : preserves keepsStore (external ask).
Proof. intros w w' x [= <- <-]. reflexivity. Qed.

Lemma store_set_currentStory e s : preserves keepsStore (set_currentStory e s).
Proof. intros w w' x [= <- <-]. destruct e; reflexivity. Qed.

Lemma store_emit e : preserves keepsStore (emit e).
Proof. intros w w' x [= <- <-]. reflexivity. Qed.

Lemma store_sleep who ms : preserves keepsStore (sleep who ms).
Proof. intros w w' x [= <- <-]. reflexivity. Qed.

Create HintDb store.
#[local] Hint Resolve store_external store_set_currentStory store_emit store_sleep : store.

Ltac store :=
  repeat (frame_step keepsStore_refl keepsStore_trans ltac:(auto with store)).

Lemma store_loadCurrentStory e : preserves keepsStore (StoryEngine.loadCurrentStory e).
Proof. unfold StoryEngine.loadCurrentStory, RedisManager.getStoryData. store. Qed.
#[local] Hint Resolve store_loadCurrentStory : store.

Lemma store_getGameState : preserves keepsStore RedisManager.getGameState.
Proof. unfold RedisManager.getGameState. store. Qed.
#[local] Hint Resolve store_getGameState : store.

Lemma store_getVoteData n : preserves keepsStore (RedisManager.getVoteData n).
Proof. unfold RedisManager.getVoteData. store. Qed.
#[local] Hint Resolve store_getVoteData : store.

Lemma store_getConfiguration : preserves keepsStore RedisManager.getConfiguration.
Proof. unfold RedisManager.getConfiguration. store. Qed.
#[local] Hint Resolve store_getConfiguration : store.

Lemma store_getCurrentNode e : preserves keepsStore (StoryEngine.getCurrentNode e).
Proof. unfold StoryEngine.getCurrentNode. store. Qed.
#[local] Hint Resolve store_getCurrentNode : store.

Lemma store_getNodeById e n : preserves keepsStore (StoryEngine.getNodeById e n).
Proof. unfold StoryEngine.getNodeById. store. Qed.
#[local] Hint Resolve store_getNodeById : store.

Lemma store_getStoryMetadata e : preserves keepsStore (StoryEngine.getStoryMetadata e).
Proof. unfold StoryEngine.getStoryMetadata. store. Qed.
#[local] Hint Resolve store_getStoryMetadata : store.

Lemma store_fetchLoop cfg c : forall remaining attempt lastError,
  preserves keepsStore (VoteCounter.fetchLoop cfg c remaining attempt lastError).
Proof.
  induction remaining as [|remaining IH]; intros; cbn [VoteCounter.fetchLoop]; store.
Qed.
#[local] Hint Resolve store_fetchLoop : store.

Lemma store_countLoop cfg : forall entries,
  preserves keepsStore (VoteCounter.countLoop cfg entries).
Proof.
  induction entries as [|[a b] rest IH]; cbn [VoteCounter.countLoop];
    unfold VoteCounter.getCommentUpvotes; store.
Qed.
#[local] Hint Resolve store_countLoop : store.

Lemma store_countVotes cfg n : preserves keepsStore (VoteCounter.countVotes cfg n).
Proof. unfold VoteCounter.countVotes. store. Qed.
#[local] Hint Resolve store_countVotes : store.

Lemma store_getWinningChoice cfg n :
  preserves keepsStore (VoteCounter.getWinningChoice cfg n).
Proof.
  unfold VoteCounter.getWinningChoice, VoteCounter.pickWinner,
    VoteCounter.resolveTie, VoteCounter.choiceIdAt.
  store.
Qed.
#[local] Hint Resolve store_getWinningChoice : store.

Lemma store_getVoteResults cfg n : preserves keepsStore (VoteCounter.getVoteResults cfg n).
Proof. unfold VoteCounter.getVoteResults. store. Qed.
#[local] Hint Resolve store_getVoteResults : store.

(** ** [RedisManager]: clearing, progress, path, duration *)

Lemma lookup_foldr_delete (rounds : list Z) (votes : gmap Z VoteData.t) (round : Z) :
  foldr (fun r m => delete r m) votes rounds !! round
  = if decide (round ∈ rounds) then None else votes !! round.
Proof.
  induction rounds as [|r rest IH]; cbn.
  - destruct (decide (round ∈ [])) as [Hin|]; [|reflexivity].
    apply elem_of_nil in Hin. destruct Hin.
  - destruct (decide (r = round)) as [->|Hne].
    + rewrite lookup_delete_eq.
      destruct (decide (round ∈ round :: rest)) as [|Hno]; [reflexivity|].
      exfalso. apply Hno. left.
    + rewrite lookup_delete_ne by exact Hne. rewrite IH.
      destruct (decide (round ∈ rest)) as [Hin|Hout],
               (decide (round ∈ r :: rest)) as [Hin'|Hout']; try reflexivity.
      * exfalso. apply Hout'. right. exact Hin.
      * exfalso. apply elem_of_cons in Hin' as [->|Hin']; [congruence|auto].
Qed.

Lemma lookup_delVoteRounds roundNumber votes round :
  RedisManager.delVoteRounds roundNumber votes !! round
  = if (1 <=? round) && (round <=? roundNumber) then None else votes !! round.
Proof.
  unfold RedisManager.delVoteRounds. rewrite lookup_foldr_delete.
  destruct (decide (round ∈ seqZ 1 roundNumber)) as [Hin|Hout].
  - apply elem_of_seqZ in Hin.
    replace ((1 <=? round) && (round <=? roundNumber)) with true; [reflexivity|].
    symmetry. apply andb_true_iff. split; lia.
  - rewrite elem_of_seqZ in Hout.
    replace ((1 <=? round) && (round <=? roundNumber)) with false; [reflexivity|].
    symmetry. apply andb_false_iff.
    destruct (Z.leb_spec 1 round), (Z.leb_spec round roundNumber); auto. lia.
Qed.

(** [clearGameData], for use in what calls it. *)
Lemma clearGameData_run w :
  exists w',
    RedisManager.clearGameData w = (w', Ok tt)
    /\ Redis.GAME_STATE (redis w') = None
    /\ Redis.STORY_DATA (redis w') = Redis.STORY_DATA (redis w)
    /\ Redis.CONFIG (redis w') = Redis.CONFIG (redis w)
    /\ (forall round,
          Redis.VOTE_DATA (redis w') !! round
          = match Redis.GAME_STATE (redis w) with
            | Some g =>
                if (1 <=? round) && (round <=? GameState.roundNumber g) then None
                else Redis.VOTE_DATA (redis w) !! round
            | None => Redis.VOTE_DATA (redis w) !! round
            end)
    /\ now w' = now w.
Proof.
  unfold RedisManager.clearGameData, RedisManager.getGameState, bind, get_redis,
    put_redis, ret.
  cbn. destruct (Redis.GAME_STATE (redis w)) as [g|]; cbn.
  - eexists. split; [reflexivity|]. cbn. repeat split.
    intros round. apply lookup_delVoteRounds.
  - eexists. split; [reflexivity|]. cbn. repeat split.
Qed.

(** X1.  [clearGameData] deletes the game state and the vote records of the
    rounds 1 to [roundNumber] of the game state it found, and nothing else:
    the story, the configuration and the vote records of every other round
    stay.  Without a game state no vote record is deleted at all. *)
Theorem clearGameData_deletes_rounds_up_to_current w :
  exists w',
    RedisManager.clearGameData w = (w', Ok tt)
    /\ Redis.GAME_STATE (redis w') = None
    /\ Redis.STORY_DATA (redis w') = Redis.STORY_DATA (redis w)
    /\ Redis.CONFIG (redis w') = Redis.CONFIG (redis w)
    /\ forall round,
         Redis.VOTE_DATA (redis w') !! round
         = match Redis.GAME_STATE (redis w) with
           | Some g =>
               if (1 <=? round) && (round <=? GameState.roundNumber g) then None
               else Redis.VOTE_DATA (redis w) !! round
           | None => Redis.VOTE_DATA (redis w) !! round
           end.
Proof.
  destruct (clearGameData_run w) as (w' & Hrun & Hg & Hs & Hc & Hv & _).
  exists w'. auto.
Qed.

(** [addToStoryPath] pushes as [navigateToNode] and
    [advanceStoryByChoice] do. *)
Lemma addToStoryPath_run nodeId w g :
  Redis.GAME_STATE (redis w) = Some g ->
  exists w',
    RedisManager.addToStoryPath nodeId w = (w', Ok tt)
    /\ redis w'
       = Redis.mk (Some (withPath g (StoryEngine.pushUnlessLast
                                       (GameState.storyPath g) nodeId)))
           (Redis.STORY_DATA (redis w)) (Redis.CONFIG (redis w))
           (Redis.VOTE_DATA (redis w)).
Proof.
  intros Hg.
  unfold RedisManager.addToStoryPath, RedisManager.getGameState,
    RedisManager.setGameState, try_catch, bind, get_redis, put_redis, ret, throw,
    StoryEngine.pushUnlessLast, withPath.
  rewrite Hg. cbn.
  destruct (last (GameState.storyPath g)) as [l|] eqn:Hlast; cbn.
  - destruct (String.eqb l nodeId); cbn.
    + exists w. split; [reflexivity|].
      destruct w as [[gs sd cf vd] ? ? ? ? ? ? ? ?]. cbn in *. subst gs.
      destruct g; reflexivity.
    + eexists. split; reflexivity.
  - eexists. split; reflexivity.
Qed.

(** X2.  [addToStoryPath] appends the node to the stored path unless the path
    already ends in it (the same guarded push as [navigateToNode] and
    [advanceStoryByChoice]), so the path ends in the node afterwards, a
    path without equal neighbours stays so, and a second call changes
    nothing; every other field, [currentNodeId] included, is left as it
    was.  Without a game state it throws and changes nothing. *)
Theorem addToStoryPath_guarded_push nodeId :
  (forall w g,
      Redis.GAME_STATE (redis w) = Some g ->
      exists w',
        RedisManager.addToStoryPath nodeId w = (w', Ok tt)
        /\ Redis.GAME_STATE (redis w')
           = Some (withPath g (StoryEngine.pushUnlessLast (GameState.storyPath g) nodeId))
        /\ last (StoryEngine.pushUnlessLast (GameState.storyPath g) nodeId)
           = Some nodeId
        /\ (noConsecutiveDuplicates (GameState.storyPath g) ->
            noConsecutiveDuplicates
              (StoryEngine.pushUnlessLast (GameState.storyPath g) nodeId))
        /\ RedisManager.addToStoryPath nodeId w' = (w', Ok tt))
  /\ (forall w,
         Redis.GAME_STATE (redis w) = None ->
         RedisManager.addToStoryPath nodeId w
         = (w, Throw ("Story path update failed: "
                      +:+ "No game state found - cannot update story path"))).
Proof.
  split.
  - intros w g Hg.
    destruct (addToStoryPath_run nodeId w g Hg) as (w' & Hrun & Hredis).
    exists w'. split; [exact Hrun|].
    assert (Hg' : Redis.GAME_STATE (redis w')
                  = Some (withPath g (StoryEngine.pushUnlessLast
                                        (GameState.storyPath g) nodeId)))
      by (rewrite Hredis; reflexivity).
    split; [exact Hg'|].
    split; [apply pushUnlessLast_last|].
    split; [apply noConsecutiveDuplicates_push|].
    destruct (addToStoryPath_run nodeId w' _ Hg') as (w'' & Hrun' & Hredis').
    rewrite Hrun'. f_equal.
    cbn in Hredis'. rewrite pushUnlessLast_idem in Hredis'.
    unfold RedisManager.addToStoryPath, RedisManager.getGameState,
      RedisManager.setGameState, try_catch, bind, get_redis, put_redis, ret, throw
      in Hrun'.
    rewrite Hg' in Hrun'. cbn in Hrun'.
    rewrite pushUnlessLast_last, String.eqb_refl in Hrun'. cbn in Hrun'.
    congruence.
  - intros w Hg.
    unfold RedisManager.addToStoryPath, RedisManager.getGameState, try_catch, bind,
      get_redis, ret, throw.
    rewrite Hg. reflexivity.
Qed.

Lemma addToStoryPath_guarded_push_witness :
  (exists w',
      RedisManager.addToStoryPath "cave" (demoWorld (Ok "post")) = (w', Ok tt)
      /\ Redis.GAME_STATE (redis w')
         = Some (withPath demoGame (StoryEngine.pushUnlessLast ["start"] "cave"))
      /\ last (StoryEngine.pushUnlessLast ["start"] "cave") = Some "cave"
      /\ (noConsecutiveDuplicates ["start"] ->
          noConsecutiveDuplicates (StoryEngine.pushUnlessLast ["start"] "cave"))
      /\ RedisManager.addToStoryPath "cave" w' = (w', Ok tt))
  /\ RedisManager.addToStoryPath "cave" (worldOf Redis.empty 0 (demoEnv (Ok "post")))
     = (worldOf Redis.empty 0 (demoEnv (Ok "post")),
        Throw ("Story path update failed: "
               +:+ "No game state found - cannot update story path")).
Proof.
  split.
  - apply (proj1 (addToStoryPath_guarded_push "cave") (demoWorld (Ok "post")) demoGame).
    reflexivity.
  - apply (proj2 (addToStoryPath_guarded_push "cave")). reflexivity.
Defined.

(** X3.  [saveCurrentProgress] writes the node and the round number into the
    stored game state, and [loadCurrentProgress] reads them back when the
    game is active ([null] when it is not); the story path is not
    touched, so it need not end in the saved node. *)
Theorem saveCurrentProgress_then_load nodeId roundNumber w g :
  Redis.GAME_STATE (redis w) = Some g ->
  exists w',
    RedisManager.saveCurrentProgress nodeId roundNumber w = (w', Ok tt)
    /\ Redis.GAME_STATE (redis w')
       = Some (GameState.mk nodeId roundNumber (GameState.storyPath g)
                 (GameState.isActive g) (GameState.roundStartTime g)
                 (GameState.roundDurationHours g) (GameState.testMode g))
    /\ RedisManager.loadCurrentProgress w'
       = (w', Ok (if GameState.isActive g then Some (nodeId, roundNumber) else None))
    /\ snd (RedisManager.getStoryPath w') = Ok (GameState.storyPath g).
Proof.
  intros Hg.
  unfold RedisManager.saveCurrentProgress, RedisManager.loadCurrentProgress,
    RedisManager.getStoryPath, RedisManager.getGameState, RedisManager.setGameState,
    try_catch, bind, get_redis, put_redis, ret, throw.
  rewrite Hg. cbn. eexists. split; [reflexivity|]. cbn.
  destruct (GameState.isActive g); auto.
Qed.

Lemma saveCurrentProgress_then_load_witness :
  exists w',
    RedisManager.saveCurrentProgress "exit" 7 (demoWorld (Ok "post")) = (w', Ok tt)
    /\ Redis.GAME_STATE (redis w')
       = Some (GameState.mk "exit" 7 ["start"] true 1000 24 (Some false))
    /\ RedisManager.loadCurrentProgress w' = (w', Ok (Some ("exit", 7)))
    /\ snd (RedisManager.getStoryPath w') = Ok ["start"].
Proof.
  apply (saveCurrentProgress_then_load "exit" 7 (demoWorld (Ok "post")) demoGame).
  reflexivity.
Defined.

(** X4.  [updateRoundDuration] rejects a duration that is not positive with
    an error and no change.  Otherwise [getRoundDuration] returns the new
    duration afterwards; the configuration keeps its other fields (or is
    created inactive for subreddit "unknown"), the duration of the game
    state is updated only when the game is active, and the story and the
    vote records stay. *)
Theorem updateRoundDuration_then_get durationHours w :
  (durationHours <= 0 ->
   RedisManager.updateRoundDuration durationHours w
   = (w, Throw ("Round duration update failed: " +:+ "Round duration must be positive")))
  /\ (0 < durationHours ->
      exists w',
        RedisManager.updateRoundDuration durationHours w = (w', Ok tt)
        /\ RedisManager.getRoundDuration w' = (w', Ok durationHours)
        /\ Redis.CONFIG (redis w')
           = Some match Redis.CONFIG (redis w) with
                  | Some c =>
                      AppConfig.mk durationHours (AppConfig.isGameActive c)
                        (AppConfig.subredditName c)
                  | None => AppConfig.mk durationHours false "unknown"
                  end
        /\ Redis.GAME_STATE (redis w')
           = match Redis.GAME_STATE (redis w) with
             | Some g =>
                 if GameState.isActive g then Some (withDuration g durationHours)
                 else Some g
             | None => None
             end
        /\ Redis.STORY_DATA (redis w') = Redis.STORY_DATA (redis w)
        /\ Redis.VOTE_DATA (redis w') = Redis.VOTE_DATA (redis w)).
Proof.
  unfold RedisManager.updateRoundDuration, RedisManager.getRoundDuration,
    RedisManager.getConfiguration, RedisManager.setConfiguration,
    RedisManager.getGameState, RedisManager.setGameState,
    try_catch, bind, get_redis, put_redis, ret, throw, withDuration.
  split; intros Hd.
  - apply Z.leb_le in Hd. rewrite Hd. reflexivity.
  - apply Z.leb_gt in Hd. rewrite Hd. cbn.
    destruct (Redis.GAME_STATE (redis w)) as [g|]; cbn.
    + destruct (GameState.isActive g); cbn; eexists; (split; [reflexivity|]); cbn;
        repeat split; destruct (Redis.CONFIG (redis w)); reflexivity.
    + eexists; (split; [reflexivity|]); cbn.
      repeat split; destruct (Redis.CONFIG (redis w)); reflexivity.
Qed.

Lemma updateRoundDuration_then_get_witness :
  RedisManager.updateRoundDuration 0 (demoWorld (Ok "post"))
  = (demoWorld (Ok "post"),
     Throw ("Round duration update failed: " +:+ "Round duration must be positive"))
  /\ (exists w',
        RedisManager.updateRoundDuration 12 (demoWorld (Ok "post")) = (w', Ok tt)
        /\ RedisManager.getRoundDuration w' = (w', Ok 12)
        /\ Redis.CONFIG (redis w') = Some (AppConfig.mk 12 true "adventures")
        /\ Redis.GAME_STATE (redis w') = Some (withDuration demoGame 12)
        /\ Redis.STORY_DATA (redis w') = Some demoStory
        /\ Redis.VOTE_DATA (redis w') = demoVotes).
Proof.
  split.
  - apply (proj1 (updateRoundDuration_then_get 0 (demoWorld (Ok "post")))). lia.
  - apply (proj2 (updateRoundDuration_then_get 12 (demoWorld (Ok "post")))). lia.
Defined.


(** ** [StoryEngine]: failed moves, navigation, queries *)

(** A failed [advanceStoryByChoice] wrote nothing. *)
Lemma advanceStoryByChoice_throws e choiceId w w' message :
  StoryEngine.advanceStoryByChoice e choiceId w = (w', Throw message) ->
  redis w' = redis w.
Proof.
  unfold StoryEngine.advanceStoryByChoice, try_catch, bind, throw.
  destruct (StoryEngine.getCurrentNode e w) as [w1 [[node|]|m]] eqn:Hcur;
    apply store_getCurrentNode in Hcur; red in Hcur;
    [|intros [= <- _]; exact Hcur|intros [= <- _]; exact Hcur].
  destruct (StoryNode.choices node) as [[|c cs]|];
    [intros [= <- _]; exact Hcur| |intros [= <- _]; exact Hcur].
  destruct (List.find _ (c :: cs)); [|intros [= <- _]; exact Hcur].
  unfold RedisManager.getGameState, RedisManager.setGameState, get_redis, put_redis,
    ret, date_now, bind.
  destruct (Redis.GAME_STATE (redis w1)); [discriminate|].
  intros [= <- _]. exact Hcur.
Qed.

(** X5.  An [advanceStoryByChoice] that throws has changed nothing in the
    store, and its message starts with "Story advancement failed: ".  On a
    game that is not active (or absent) it always throws so, whatever the
    choice and whether or not a story is stored. *)
Theorem advanceStoryByChoice_failure_changes_nothing e choiceId :
  (forall w w' message,
      StoryEngine.advanceStoryByChoice e choiceId w = (w', Throw message) ->
      redis w' = redis w
      /\ exists detail, message = "Story advancement failed: " +:+ detail)
  /\ (forall w,
         ~ gameActive w ->
         exists w',
           StoryEngine.advanceStoryByChoice e choiceId w
           = (w', Throw ("Story advancement failed: "
                         +:+ "No current node found - cannot advance story"))).
Proof.
  split.
  - intros w w' message Hrun.
    split; [eapply advanceStoryByChoice_throws; exact Hrun|].
    eapply try_catch_prefix. exact Hrun.
  - intros w Hinactive.
    destruct (loadCurrentStory_storyOf e w)
      as (w1 & Hl & Hr & _).
    unfold StoryEngine.advanceStoryByChoice, StoryEngine.getCurrentNode, try_catch,
      bind, throw.
    rewrite Hl.
    destruct (storyOf e w) as [story|]; [|eexists; reflexivity].
    unfold RedisManager.getGameState, get_redis, ret, bind. rewrite Hr.
    destruct (Redis.GAME_STATE (redis w)) as [g|] eqn:Hg; cbn.
    + destruct (GameState.isActive g) eqn:Ha; cbn.
      * exfalso. apply Hinactive. exists g. auto.
      * eexists. reflexivity.
    + eexists. reflexivity.
Qed.

Lemma advanceStoryByChoice_failure_changes_nothing_witness :
  (redis (fst (StoryEngine.advanceStoryByChoice OfScheduler "Z" (demoWorld (Ok "post"))))
   = redis (demoWorld (Ok "post"))
   /\ exists detail,
        "Story advancement failed: Choice Z not found in current node start"
        = "Story advancement failed: " +:+ detail)
  /\ (exists w',
         StoryEngine.advanceStoryByChoice OfScheduler "A"
           (fst (RedisManager.completeGame (demoWorld (Ok "post"))))
         = (w', Throw ("Story advancement failed: "
                       +:+ "No current node found - cannot advance story"))).
Proof.
  split.
  - apply (proj1 (advanceStoryByChoice_failure_changes_nothing OfScheduler "Z")
             (demoWorld (Ok "post"))).
    reflexivity.
  - apply (proj2 (advanceStoryByChoice_failure_changes_nothing OfScheduler "A")).
    intros (g & Hg & Ha). cbn in Hg. injection Hg as <-. discriminate Ha.
Defined.



(** [pathDetails] keeps the nodes of the path that the story has, in
    order. *)
Lemma pathDetails_nodeIds story : forall storyPath,
  map PathDetail.nodeId (StoryEngine.pathDetails story storyPath)
  = List.filter (fun id => bool_decide (is_Some (Story.node story id))) storyPath.
Proof.
  induction storyPath as [|nodeId rest IH]; [reflexivity|].
  cbn [StoryEngine.pathDetails List.filter].
  destruct (Story.node story nodeId) as [node|] eqn:Hnode.
  - rewrite bool_decide_eq_true_2 by eauto. cbn. rewrite IH. reflexivity.
  - rewrite bool_decide_eq_false_2 by (intros [x Hx]; discriminate). exact IH.
Qed.

Lemma pathDetails_entries story : forall storyPath detail,
  In detail (StoryEngine.pathDetails story storyPath) ->
  exists node before after,
    storyPath = before ++ PathDetail.nodeId detail :: after
    /\ Story.node story (PathDetail.nodeId detail) = Some node
    /\ PathDetail.title detail = StoryNode.title node
    /\ PathDetail.choiceMade detail
       = match after with
         | nextNodeId :: _ =>
             Choice.text
               <$> List.find (fun choice =>
                                String.eqb (Choice.nextNodeId choice) nextNodeId)
                     (default [] (StoryNode.choices node))
         | [] => None
         end.
Proof.
  induction storyPath as [|nodeId rest IH]; intros detail; [intros []|].
  cbn [StoryEngine.pathDetails].
  assert (Hrest : In detail (StoryEngine.pathDetails story rest) ->
    exists node before after,
      nodeId :: rest = before ++ PathDetail.nodeId detail :: after
      /\ Story.node story (PathDetail.nodeId detail) = Some node
      /\ PathDetail.title detail = StoryNode.title node
      /\ PathDetail.choiceMade detail
         = match after with
           | nextNodeId :: _ =>
               Choice.text
                 <$> List.find (fun choice =>
                                  String.eqb (Choice.nextNodeId choice) nextNodeId)
                       (default [] (StoryNode.choices node))
           | [] => None
           end).
  { intros Hin. destruct (IH _ Hin) as (n & before & after & -> & Hn & Ht & Hc).
    exists n, (nodeId :: before), after. auto. }
  destruct (Story.node story nodeId) as [node|] eqn:Hnode; [|exact Hrest].
  intros [<-|Hin]; [|auto].
  exists node, [], rest. cbn. split; [reflexivity|]. split; [exact Hnode|].
  split; [reflexivity|].
  destruct rest as [|next rest']; [reflexivity|].
  destruct (List.find _ _); reflexivity.
Qed.



(** X8.  [isRoundExpired] answers true exactly when no game is active or the
    round's duration (minutes in test mode, hours otherwise) has elapsed
    since the round started. *)
Theorem isRoundExpired_iff w :
  exists expired,
    StoryEngine.isRoundExpired w = (w, Ok expired)
    /\ (expired = true
        <-> ~ gameActive w
            \/ exists g,
                 Redis.GAME_STATE (redis w) = Some g
                 /\ GameState.roundStartTime g + StoryEngine.roundDurationMs g <= now w).
Proof.
  unfold StoryEngine.isRoundExpired, StoryEngine.getTimeRemainingInRound,
    StoryEngine.getGameState, RedisManager.getGameState, bind, get_redis, ret, date_now,
    gameActive.
  destruct (Redis.GAME_STATE (redis w)) as [g|] eqn:Hg; cbn.
  - destruct (GameState.isActive g) eqn:Ha; cbn.
    + eexists. split; [reflexivity|]. rewrite Z.leb_le. split.
      * intros H. right. exists g. split; [reflexivity|]. lia.
      * intros [Hno|(g' & [= <-] & Hle)]; [|lia].
        exfalso. apply Hno. exists g. auto.
    + eexists. split; [reflexivity|]. split; [|reflexivity].
      intros _. left. intros (g' & [= <-] & Ha'). congruence.
  - eexists. split; [reflexivity|]. split; [|reflexivity].
    intros _. left. intros (g' & Hg' & _). discriminate.
Qed.

(** ** [StoryEngine]: loading a story *)

(** A story that [validateStoryReferences] lets through passed its three
    fatal checks. *)
Lemma validateStoryReferences_Ok_checks story warnings :
  StoryEngine.validateStoryReferences story = Some (Ok warnings) ->
  fatalChecksPass story.
Proof.
  unfold StoryEngine.validateStoryReferences, StoryEngine.referenceWarnings,
    StoryEngine.endNodes, fatalChecksPass. cbv zeta.
  destruct (Story.node story (Story.startNodeId story)) as [start|]; [|discriminate].
  destruct (StoryEngine.checkReferences story (Story.nodeIds story)) as [[]|];
    [|discriminate].
  destruct (StoryEngine.reachableNodes story) as [[reachable|]|]; try discriminate.
  match goal with
  | |- match ?ends with _ => _ end = _ -> _ => destruct ends as [|endId rest] eqn:Hends
  end; [discriminate|].
  intros _. split; [eauto|]. split; [reflexivity|].
  assert (Hin : In endId (endId :: rest)) by (left; reflexivity).
  rewrite <- Hends in Hin. apply List.filter_In in Hin as [Hin Hend].
  destruct (Story.node story endId) as [node|] eqn:Hnode; [|discriminate].
  exists endId, node. split; [exact Hin|]. split; [exact Hnode|].
  destruct (StoryNode.isEnd node) as [[|]|]; try discriminate. reflexivity.
Qed.

(** The traversal returns on every story whose references resolve. *)
Lemma reachableNodes_returns story :
  is_Some (Story.node story (Story.startNodeId story)) ->
  StoryEngine.checkReferences story (Story.nodeIds story) = Ok tt ->
  exists reachable, StoryEngine.reachableNodes story = Some (Ok reachable).
Proof.
  intros Hstart Hrefs.
  destruct (traverse_reachable story (references_resolve story Hrefs)
              (S (S (StoryEngine.choiceCount story))) [Story.startNodeId story] ∅)
    as (reachable & Htraverse & _).
  - rewrite weight_empty. cbn. lia.
  - intros x [<-|[]]. exact Hstart.
  - intros x [Hx|[<-|[]]]; [apply not_elem_of_empty in Hx; destruct Hx|constructor].
  - intros v t Hv. apply not_elem_of_empty in Hv. destruct Hv.
  - right. left. reflexivity.
  - exists reachable. exact Htraverse.
Qed.

(** [referenceWarnings] returns on every story. *)
Lemma referenceWarnings_returns story :
  exists r, StoryEngine.referenceWarnings story = Some r.
Proof.
  unfold StoryEngine.referenceWarnings. cbv zeta.
  destruct (Story.node story (Story.startNodeId story)) as [start|] eqn:Hstart;
    [|eauto].
  destruct (StoryEngine.checkReferences story (Story.nodeIds story)) as [[]|] eqn:Hrefs;
    [|eauto].
  destruct (reachableNodes_returns story) as [reachable ->];
    [rewrite Hstart; eauto|exact Hrefs|].
  eauto.
Qed.

(** The loop over the nodes passes when every choice of every node leads
    to a node of the story. *)
Lemma checkReferences_passes story : forall nodeIds,
  (forall id node choice,
      In id nodeIds ->
      Story.node story id = Some node ->
      In choice (default [] (StoryNode.choices node)) ->
      is_Some (Story.node story (Choice.nextNodeId choice))) ->
  (forall id, In id nodeIds -> is_Some (Story.node story id)) ->
  StoryEngine.checkReferences story nodeIds = Ok tt.
Proof.
  induction nodeIds as [|first rest IH]; intros Hall Hnodes; [reflexivity|].
  cbn [StoryEngine.checkReferences].
  destruct (Hnodes first) as [node Hnode]; [left; reflexivity|].
  rewrite Hnode.
  destruct (StoryEngine.danglingChoice story _) as [bad|] eqn:Hbad.
  - exfalso. unfold StoryEngine.danglingChoice in Hbad.
    apply List.find_some in Hbad as [Hin Hnone].
    destruct (Hall first node bad) as [target Htarget]; [left; reflexivity|exact Hnode
                                                        |exact Hin|].
    rewrite Htarget in Hnone. discriminate.
  - apply IH.
    + intros id n choice Hin. apply Hall. right. exact Hin.
    + intros id Hin. apply Hnodes. right. exact Hin.
Qed.

Lemma nodeIds_node story id :
  In id (Story.nodeIds story) -> is_Some (Story.node story id).
Proof.
  unfold Story.nodeIds, Story.node.
  induction (Story.nodes story) as [|[k n] kvs IH]; [intros []|].
  cbn. destruct (String.eqb_spec k id) as [->|Hne]; [eauto|].
  intros [Heq|Hin]; [contradiction|auto].
Qed.

(** The three fatal checks, as the code runs them and as
    [soundReferences] states them. *)
Lemma fatalChecksPass_sound story : fatalChecksPass story <-> soundReferences story.
Proof.
  unfold fatalChecksPass, soundReferences. split.
  - intros (Hstart & Hrefs & Hend). split; [exact Hstart|]. split; [|exact Hend].
    intros id node choice Hin Hnode Hchoice.
    destruct (checkReferences_ok story _ Hrefs id Hin) as (node' & Hnode' & Hall).
    rewrite Hnode in Hnode'. injection Hnode' as <-. auto.
  - intros (Hstart & Hrefs & Hend). split; [exact Hstart|]. split; [|exact Hend].
    apply checkReferences_passes; [exact Hrefs|apply nodeIds_node].
Qed.

Lemma validateStoryReferences_decides story :
  exists r,
    StoryEngine.validateStoryReferences story = Some r
    /\ ((exists warnings, r = Ok warnings) <-> fatalChecksPass story).
Proof.
  destruct (StoryEngine.validateStoryReferences story) as [[warnings|message]|] eqn:Hv.
  - exists (Ok warnings). split; [reflexivity|]. split; [|eauto].
    intros _. eapply validateStoryReferences_Ok_checks. exact Hv.
  - exists (Throw message). split; [reflexivity|]. split; [intros [? [=]]|].
    intros (Hstart & Hrefs & (endId & endNode & HendIn & HendNode & HisEnd)).
    exfalso. revert Hv.
    unfold StoryEngine.validateStoryReferences, StoryEngine.referenceWarnings,
      StoryEngine.endNodes. cbv zeta.
    destruct Hstart as [start Hstart]. rewrite Hstart, Hrefs.
    destruct (reachableNodes_returns story) as [reachable ->];
      [rewrite Hstart; eauto|exact Hrefs|].
    match goal with
    | |- match ?ends with _ => _ end = _ -> _ => assert (Hends : In endId ends)
    end.
    { apply List.filter_In. split; [exact HendIn|]. rewrite HendNode, HisEnd.
      reflexivity. }
    match goal with
    | |- match ?ends with _ => _ end = _ -> _ => destruct ends; [destruct Hends|]
    end.
    discriminate.
  - exfalso. revert Hv. unfold StoryEngine.validateStoryReferences.
    destruct (referenceWarnings_returns story) as [[warnings|m] ->];
      [destruct (StoryEngine.endNodes story)|]; discriminate.
Qed.



Lemma bind_run {A B} (m : M A) (k : A -> M B) w :
  bind m k w
  = match m w with
    | (w', Ok a) => k a w'
    | (w', Throw e) => (w', Throw e)
    end.
Proof. reflexivity. Qed.

Lemma emitWarnings_run warnings : forall w,
  exists w',
    foldr (fun message k => bind (emit (Warn message)) (fun _ => k)) (ret tt) warnings w
    = (w', Ok tt)
    /\ redis w' = redis w
    /\ log w' = log w ++ map Warn warnings
    /\ (forall e, currentStory e w' = currentStory e w).
Proof.
  induction warnings as [|message rest IH]; intros w; cbn [foldr].
  - exists w. rewrite app_nil_r. auto.
  - rewrite bind_run. unfold emit at 1.
    edestruct IH as (w' & -> & Hr & Hl & Hc). exists w'.
    split; [reflexivity|]. cbn in *. split; [exact Hr|].
    split; [rewrite Hl, <- app_assoc; reflexivity|].
    intros e. rewrite Hc. destruct e; reflexivity.
Qed.

(** [validateStoryReferences] as it runs: it returns when the checks pass
    and throws what they throw; either way it has only printed its
    warnings. *)
Lemma runStoryReferences_run story w :
  exists w' warnings,
    redis w' = redis w
    /\ log w' = log w ++ map Warn warnings
    /\ (forall e, currentStory e w' = currentStory e w)
    /\ ((StoryEngine.runStoryReferences story w = (w', Ok tt)
         /\ StoryEngine.validateStoryReferences story = Some (Ok warnings))
        \/ exists message, StoryEngine.runStoryReferences story w = (w', Throw message)).
Proof.
  unfold StoryEngine.runStoryReferences, StoryEngine.validateStoryReferences.
  destruct (referenceWarnings_returns story) as [[warnings|m] ->].
  - destruct (emitWarnings_run warnings w) as (w1 & Hemit & Hr & Hl & Hc).
    exists w1, warnings. split; [exact Hr|]. split; [exact Hl|]. split; [exact Hc|].
    rewrite bind_run, Hemit.
    destruct (StoryEngine.endNodes story); [right; eexists; reflexivity|left; auto].
  - exists w, []. split; [reflexivity|]. split; [symmetry; apply app_nil_r|].
    split; [reflexivity|]. right. eexists. reflexivity.
Qed.



(** ** [StoryEngine]: starting and finishing a game *)

(** X11.  With a story available, [initializeGame] rejects a duration that is
    not positive, changing nothing in the store.  Otherwise it starts a
    fresh active game in round 1 at the start node, with the given
    duration and test mode and the round starting now, writes the
    configuration, keeps the story, and deletes the vote records of the
    rounds 1 to [roundNumber] of the game it replaces (no other). *)
Theorem initializeGame_starts_fresh e subredditName roundDurationHours testMode w story :
  storyOf e w = Some story ->
  exists w',
    if roundDurationHours <=? 0
    then
      StoryEngine.initializeGame e subredditName roundDurationHours testMode w
      = (w', Throw ("Game initialization failed: " +:+ "Round duration must be positive"))
      /\ redis w' = redis w
    else
      StoryEngine.initializeGame e subredditName roundDurationHours testMode w
      = (w', Ok tt)
      /\ Redis.GAME_STATE (redis w')
         = Some (GameState.mk (Story.startNodeId story) 1 [Story.startNodeId story]
                   true (now w) roundDurationHours (Some testMode))
      /\ Redis.CONFIG (redis w')
         = Some (AppConfig.mk roundDurationHours true subredditName)
      /\ Redis.STORY_DATA (redis w') = Redis.STORY_DATA (redis w)
      /\ forall round,
           Redis.VOTE_DATA (redis w') !! round
           = match Redis.GAME_STATE (redis w) with
             | Some g =>
                 if (1 <=? round) && (round <=? GameState.roundNumber g) then None
                 else Redis.VOTE_DATA (redis w) !! round
             | None => Redis.VOTE_DATA (redis w) !! round
             end.
Proof.
  intros Hs.
  destruct (loadCurrentStory_storyOf e w) as (w1 & Hl & Hr & Hn & _).
  unfold StoryEngine.initializeGame, try_catch. rewrite bind_run, Hl, Hs.
  destruct (roundDurationHours <=? 0).
  - eexists. split; [reflexivity|exact Hr].
  - unfold RedisManager.initializeNewGame. rewrite bind_run.
    destruct (clearGameData_run w1) as (w2 & -> & Hg & Hsd & Hc & Hv & Hnow).
    unfold RedisManager.setGameState, RedisManager.setConfiguration, bind, get_redis,
      put_redis, ret, date_now.
    cbn. eexists. split; [reflexivity|]. cbn.
    rewrite Hnow, Hn, Hsd, Hr. repeat split.
    intros round. rewrite Hv, Hr. reflexivity.
Qed.

Lemma initializeGame_starts_fresh_witness :
  exists w',
    StoryEngine.initializeGame OfSettings "adventures" 2 true (demoWorld (Ok "post"))
    = (w', Ok tt)
    /\ Redis.GAME_STATE (redis w')
       = Some (GameState.mk "start" 1 ["start"] true 5000 2 (Some true))
    /\ Redis.CONFIG (redis w') = Some (AppConfig.mk 2 true "adventures")
    /\ Redis.STORY_DATA (redis w') = Some demoStory
    /\ forall round,
         Redis.VOTE_DATA (redis w') !! round
         = if (1 <=? round) && (round <=? 1) then None
           else demoVotes !! round.
Proof.
  apply (initializeGame_starts_fresh OfSettings "adventures" 2 true
           (demoWorld (Ok "post")) demoStory).
  reflexivity.
Defined.

(** [isCurrentNodeEnd] never throws and reads the end flag of the
    current node of an active game. *)
Lemma isCurrentNodeEnd_run e w :
  exists w',
    StoryEngine.isCurrentNodeEnd e w
    = (w', Ok match storyOf e w, Redis.GAME_STATE (redis w) with
              | Some story, Some g =>
                  GameState.isActive g
                  && match Story.node story (GameState.currentNodeId g) with
                     | Some (StoryNode.mk _ _ _ _ _ (Some true)) => true
                     | _ => false
                     end
              | _, _ => false
              end)
    /\ redis w' = redis w.
Proof.
  destruct (loadCurrentStory_storyOf e w) as (w1 & Hl & Hr & _).
  unfold StoryEngine.isCurrentNodeEnd, StoryEngine.getCurrentNode, try_catch.
  rewrite !bind_run, Hl.
  destruct (storyOf e w) as [story|]; [|exists w1; split; [reflexivity|exact Hr]].
  unfold RedisManager.getGameState, get_redis, bind, ret, throw. rewrite Hr.
  destruct (Redis.GAME_STATE (redis w)) as [g|];
    [|exists w1; split; [reflexivity|exact Hr]].
  destruct (GameState.isActive g); cbn;
    [|exists w1; split; [reflexivity|exact Hr]].
  destruct (Story.node story (GameState.currentNodeId g)) as [[? ? ? ? ? [[|]|]]|];
    exists w1; (split; [reflexivity|exact Hr]).
Qed.

(** X12.  [isGameComplete] never throws and does not change the store.  It
    is true exactly when the game is active and its current node is an end
    node; so once [completeGame] has marked the game inactive it is false,
    also for a game that ended on an end node. *)
Theorem isGameComplete_until_completed e w :
  (exists w' complete,
      StoryEngine.isGameComplete e w = (w', Ok complete)
      /\ redis w' = redis w
      /\ (complete = true
          <-> exists story g node,
                storyOf e w = Some story
                /\ Redis.GAME_STATE (redis w) = Some g
                /\ GameState.isActive g = true
                /\ Story.node story (GameState.currentNodeId g) = Some node
                /\ StoryNode.isEnd node = Some true))
  /\ snd (StoryEngine.isGameComplete e (fst (StoryEngine.completeGame w))) = Ok false.
Proof.
  assert (Hrun : forall w0,
    exists w',
      StoryEngine.isGameComplete e w0
      = (w', Ok (match storyOf e w0, Redis.GAME_STATE (redis w0) with
                 | Some story, Some g =>
                     GameState.isActive g
                     && match Story.node story (GameState.currentNodeId g) with
                        | Some (StoryNode.mk _ _ _ _ _ (Some true)) => true
                        | _ => false
                        end
                 | _, _ => false
                 end
                 && match Redis.GAME_STATE (redis w0) with
                    | Some g => GameState.isActive g
                    | None => false
                    end))
      /\ redis w' = redis w0).
  { intros w0. destruct (isCurrentNodeEnd_run e w0) as (w1 & Hend & Hr).
    unfold StoryEngine.isGameComplete. rewrite bind_run, Hend.
    unfold StoryEngine.getGameState, RedisManager.getGameState, bind, get_redis, ret.
    rewrite Hr. exists w1. split; [reflexivity|exact Hr]. }
  split.
  - destruct (Hrun w) as (w' & Hcomplete & Hr).
    eexists w', _. split; [exact Hcomplete|]. split; [exact Hr|].
    destruct (storyOf e w) as [story|].
    2:{ split; [discriminate|]. intros (? & ? & ? & [=] & _). }
    destruct (Redis.GAME_STATE (redis w)) as [g|].
    2:{ split; [discriminate|]. intros (? & ? & ? & _ & [=] & _). }
    destruct (GameState.isActive g) eqn:Ha; cbn.
    2:{ split; [discriminate|]. intros (? & ? & ? & _ & [= <-] & ? & _). congruence. }
    destruct (Story.node story (GameState.currentNodeId g)) as [node|] eqn:Hnode.
    2:{ split; [discriminate|]. intros (? & ? & ? & [= <-] & [= <-] & _ & Hn & _).
        congruence. }
    destruct node as [? ? ? ? ? [[|]|]]; cbn; (split; [intros Hend|]);
      try discriminate Hend;
      try (intros (? & ? & node & [= <-] & [= <-] & _ & Hn & Hend);
           rewrite Hnode in Hn; injection Hn as <-; cbn in Hend; congruence).
    exists story, g. eexists. repeat split; eauto.
  - destruct (Hrun (fst (StoryEngine.completeGame w))) as (w' & -> & _). cbn [snd].
    f_equal.
    unfold StoryEngine.completeGame, RedisManager.completeGame,
      RedisManager.getGameState, RedisManager.setGameState,
      RedisManager.getConfiguration, RedisManager.setConfiguration, bind, get_redis,
      put_redis, ret.
    destruct (Redis.GAME_STATE (redis w)) as [g|] eqn:Hg; cbn.
    + destruct (Redis.CONFIG (redis w)); cbn;
        destruct (storyOf e _) as [story|]; cbn; try reflexivity;
        apply andb_false_r.
    + rewrite Hg. destruct (storyOf e w); reflexivity.
Qed.


(** ** [VoteCounter]: the tally and the winner *)

(** [countVotes] never throws. *)
Lemma countVotes_run cfg roundNumber w :
  exists w' results,
    VoteCounter.countVotes cfg roundNumber w = (w', Ok results)
    /\ redis w' = redis w
    /\ StronglySorted descending results
    /\ Permutation (map tallyKey results)
         match Redis.VOTE_DATA (redis w) !! roundNumber with
         | Some voteData => VoteData.choices voteData
         | None => []
         end.
Proof.
  unfold VoteCounter.countVotes, try_catch. rewrite bind_run.
  unfold RedisManager.getVoteData, bind, get_redis, ret.
  destruct (Redis.VOTE_DATA (redis w) !! roundNumber) as [voteData|].
  - destruct (countLoop_total cfg (VoteData.choices voteData) w)
      as (w' & tally & -> & Hkeys & Hr & _).
    exists w', (VoteCounter.sortByUpvotes tally). split; [reflexivity|].
    split; [exact Hr|]. split; [apply sortByUpvotes_sorted|].
    rewrite <- Hkeys. apply Permutation_map, sortByUpvotes_perm.
  - exists w, []. repeat split; constructor.
Qed.

(** X13.  [countVotes] never throws and does not change the store.  Its
    result is sorted by upvotes, highest first, and has exactly one entry
    for every tracked (choice, comment) pair of the round; without a vote
    record for the round it is empty. *)
Theorem countVotes_sorted_and_complete cfg roundNumber w :
  exists w' results,
    VoteCounter.countVotes cfg roundNumber w = (w', Ok results)
    /\ redis w' = redis w
    /\ StronglySorted descending results
    /\ Permutation (map tallyKey results)
         match Redis.VOTE_DATA (redis w) !! roundNumber with
         | Some voteData => VoteData.choices voteData
         | None => []
         end.
Proof. apply countVotes_run. Qed.

(** The choice that [choiceIdAt] returns is one of the list. *)
Lemma choiceIdAt_In tied i w w' id :
  VoteCounter.choiceIdAt tied i w = (w', Ok id) ->
  exists winner, In winner tied /\ VoteResult.choiceId winner = id.
Proof.
  unfold VoteCounter.choiceIdAt.
  destruct (i <? 0); [discriminate|].
  destruct (tied !! Z.to_nat i) as [winner|] eqn:Hlookup; [|discriminate].
  intros [= <- <-]. exists winner. split; [|reflexivity].
  apply list_elem_of_In. eapply list_elem_of_lookup_2. exact Hlookup.
Qed.

(** What [pickWinner] answers on a sorted tally. *)
Lemma pickWinner_sound cfg results w w' outcome :
  StronglySorted descending results ->
  VoteCounter.pickWinner cfg results w = (w', Ok outcome) ->
  match outcome with
  | Some id =>
      exists winner,
        In winner results
        /\ VoteResult.choiceId winner = id
        /\ VoteCounter.minimumVotes cfg <= VoteResult.upvotes winner
        /\ forall r, In r results -> VoteResult.upvotes r <= VoteResult.upvotes winner
  | None =>
      forall r, In r results -> VoteResult.upvotes r < VoteCounter.minimumVotes cfg
  end.
Proof.
  intros Hsorted. unfold VoteCounter.pickWinner.
  destruct results as [|r0 rest]; [intros [= <- <-]; intros r []|].
  set (results := r0 :: rest) in *.
  set (valid := fun r => VoteCounter.minimumVotes cfg <=? VoteResult.upvotes r).
  pose proof (filter_sorted valid _ Hsorted) as Hvs.
  destruct (List.filter valid results) as [|first others] eqn:Hvalid.
  - intros [= <- <-]. intros r Hr.
    destruct (Z.ltb_spec (VoteResult.upvotes r) (VoteCounter.minimumVotes cfg)) as [|Hge];
      [assumption|].
    assert (Hin : In r (List.filter valid results)).
    { apply List.filter_In. split; [exact Hr|]. apply Z.leb_le. exact Hge. }
    rewrite Hvalid in Hin. destruct Hin.
  - cbv zeta. rewrite bind_run.
    set (top := List.filter (fun r => VoteResult.upvotes r =? VoteResult.upvotes first)
                  (first :: others)).
    assert (Htop : forall winner, In winner top ->
              In winner results
              /\ VoteCounter.minimumVotes cfg <= VoteResult.upvotes winner
              /\ forall r, In r results ->
                           VoteResult.upvotes r <= VoteResult.upvotes winner).
    { intros winner Hw. apply List.filter_In in Hw as [Hw Heq].
      apply Z.eqb_eq in Heq.
      assert (Hfirst : In first (List.filter valid results))
        by (rewrite Hvalid; left; reflexivity).
      apply List.filter_In in Hfirst as [_ Hfv]. apply Z.leb_le in Hfv.
      assert (Hwv : In winner (List.filter valid results)) by (rewrite Hvalid; exact Hw).
      apply List.filter_In in Hwv as [Hwr _].
      split; [exact Hwr|]. split; [lia|].
      intros r Hr. rewrite Heq.
      destruct (Z.leb_spec (VoteCounter.minimumVotes cfg) (VoteResult.upvotes r))
        as [Hge|Hlt]; [|lia].
      assert (Hrv : In r (first :: others)).
      { rewrite <- Hvalid. apply List.filter_In. split; [exact Hr|].
        apply Z.leb_le. exact Hge. }
      destruct Hrv as [<-|Hrv]; [lia|].
      apply StronglySorted_inv in Hvs as [_ Hall].
      rewrite List.Forall_forall in Hall. apply Hall. exact Hrv. }
    assert (Hresolve : forall w0 w1 id,
              VoteCounter.resolveTie cfg top w0 = (w1, Ok id) ->
              exists winner, In winner top /\ VoteResult.choiceId winner = id).
    { intros w0 w1 id. unfold VoteCounter.resolveTie.
      destruct (VoteCounter.randomTieBreaking cfg).
      - rewrite bind_run. unfold external. apply choiceIdAt_In.
      - apply choiceIdAt_In. }
    fold top. destruct top as [|t0 [|t1 ts]] eqn:Htl.
    + destruct (VoteCounter.resolveTie cfg [] w) as [w1 [id|m]] eqn:Hr; [|discriminate].
      intros [= <- <-]. destruct (Hresolve _ _ _ Hr) as (winner & [] & _).
    + unfold ret. intros [= <- <-].
      destruct (Htop t0) as (? & ? & ?); [left; reflexivity|].
      exists t0. auto.
    + destruct (VoteCounter.resolveTie cfg (t0 :: t1 :: ts) w) as [w1 [id|m]] eqn:Hr;
        [|discriminate].
      unfold ret. intros [= <- <-].
      destruct (Hresolve _ _ _ Hr) as (winner & Hw & Hid).
      destruct (Htop winner Hw) as (? & ? & ?). exists winner. auto.
Qed.

(** X14.  Whenever [getWinningChoice] returns, under either tie-breaking
    mode, the store is as before and: a winner is the choice of a tally
    entry that reaches [minimumVotes] and that no tally entry beats;
    [null] means that no tally entry reaches [minimumVotes] (or nothing is
    tracked). *)
Theorem getWinningChoice_tops_the_tally cfg roundNumber w :
  exists w1 results,
    VoteCounter.countVotes cfg roundNumber w = (w1, Ok results)
    /\ forall w' outcome,
         VoteCounter.getWinningChoice cfg roundNumber w = (w', Ok outcome) ->
         redis w' = redis w
         /\ match outcome with
            | Some id =>
                exists winner,
                  In winner results
                  /\ VoteResult.choiceId winner = id
                  /\ VoteCounter.minimumVotes cfg <= VoteResult.upvotes winner
                  /\ forall r, In r results ->
                               VoteResult.upvotes r <= VoteResult.upvotes winner
            | None =>
                forall r, In r results ->
                          VoteResult.upvotes r < VoteCounter.minimumVotes cfg
            end.
Proof.
  destruct (countVotes_run cfg roundNumber w) as (w1 & results & Hcount & Hr & Hsorted & _).
  exists w1, results. split; [exact Hcount|].
  intros w' outcome Hwin.
  split; [apply store_getWinningChoice in Hwin; exact Hwin|].
  revert Hwin. unfold VoteCounter.getWinningChoice, try_catch.
  rewrite bind_run, Hcount.
  destruct (VoteCounter.pickWinner cfg results w1) as [w2 [picked|m]] eqn:Hpick;
    [|discriminate].
  intros [= <- <-]. eapply pickWinner_sound; eauto.
Qed.

(** ** [VoteCounter]: a fetch that succeeds after failures *)

Lemma fetchLoop_succeeds cfg commentId score : forall failures remaining attempt lastError w,
  (failures < remaining)%nat ->
  attempt + Z.of_nat remaining = VoteCounter.maxRetries cfg + 1 ->
  (forall a : nat, (a < failures)%nat ->
     fetchFails (reddit_getCommentById (env w) (calls w + a) commentId)) ->
  reddit_getCommentById (env w) (calls w + failures) commentId = FetchComment score ->
  exists w',
    VoteCounter.fetchLoop cfg commentId remaining attempt lastError w
    = (w', Ok (default 0 score))
    /\ calls w' = S (calls w + failures)
    /\ log w' = log w ++ map (fun a => Sleep VoteBackoff (VoteCounter.backoffDelay a))
                          (seqZ attempt (Z.of_nat failures))
    /\ redis w' = redis w.
Proof.
  induction failures as [|failures IH]; intros remaining attempt lastError w Hlt Hbudget
    Hfail Hok.
  - destruct remaining as [|remaining]; [lia|].
    cbn [VoteCounter.fetchLoop]. rewrite bind_run. unfold external.
    rewrite Nat.add_0_r in Hok. rewrite Hok. unfold ret.
    eexists. split; [reflexivity|]. cbn. rewrite app_nil_r, Nat.add_0_r. auto.
  - destruct remaining as [|remaining]; [lia|].
    cbn [VoteCounter.fetchLoop]. rewrite bind_run. unfold external.
    pose proof (Hfail O ltac:(lia)) as Hfirst. rewrite Nat.add_0_r in Hfirst.
    assert (Hsleep : (attempt <? VoteCounter.maxRetries cfg) = true)
      by (apply Z.ltb_lt; lia).
    set (w1 := mkWorld (redis w) (now w + VoteCounter.backoffDelay attempt)
                 (S (calls w))
                 (log w ++ [Sleep VoteBackoff (VoteCounter.backoffDelay attempt)])
                 (env w) (story_sched w) (story_post w) (story_vote w)
                 (story_settings w)).
    assert (Hnext : forall message,
      exists w',
        VoteCounter.fetchLoop cfg commentId remaining (attempt + 1) (Some message) w1
        = (w', Ok (default 0 score))
        /\ calls w' = S (calls w + S failures)
        /\ log w' = log w ++ map (fun a => Sleep VoteBackoff (VoteCounter.backoffDelay a))
                              (seqZ attempt (Z.of_nat (S failures)))
        /\ redis w' = redis w).
    { intros message.
      destruct (IH remaining (attempt + 1) (Some message) w1) as (w' & Hrun & Hc & Hl & Hr).
      - lia.
      - lia.
      - intros a Ha. specialize (Hfail (S a) ltac:(lia)). cbn.
        replace (calls w + S a)%nat with (S (calls w + a)) in Hfail by lia. exact Hfail.
      - cbn. replace (S (calls w + failures)) with (calls w + S failures)%nat by lia.
        exact Hok.
      - exists w'. split; [exact Hrun|]. cbn in Hc, Hl, Hr.
        split; [lia|]. split; [|exact Hr].
        rewrite Hl, <- app_assoc. f_equal.
        rewrite (seqZ_cons attempt) by lia. cbn. do 3 f_equal; lia. }
    destruct (reddit_getCommentById (env w) (calls w) commentId) as [m| |s];
      [| |destruct Hfirst];
      rewrite bind_run, Hsleep; unfold sleep; fold w1; apply Hnext.
Qed.

(** X15.  When the fetch of a comment fails [failures] times, fewer than
    [maxRetries], and then succeeds, [getCommentUpvotes] returns the score
    of that fetch (0 when the comment has none), having made
    [failures + 1] calls and waited 1, 2, 4, ... seconds after the failed
    ones, and nothing after the success; the store is unchanged. *)
Theorem getCommentUpvotes_first_success cfg commentId w failures score :
  (failures < Z.to_nat (VoteCounter.maxRetries cfg))%nat ->
  (forall a : nat, (a < failures)%nat ->
     fetchFails (reddit_getCommentById (env w) (calls w + a) commentId)) ->
  reddit_getCommentById (env w) (calls w + failures) commentId = FetchComment score ->
  exists w',
    VoteCounter.getCommentUpvotes cfg commentId w = (w', Ok (default 0 score))
    /\ calls w' = S (calls w + failures)
    /\ log w' = log w ++ map (fun a => Sleep VoteBackoff (VoteCounter.backoffDelay a))
                          (seqZ 1 (Z.of_nat failures))
    /\ redis w' = redis w.
Proof.
  intros Hlt Hfail Hok. unfold VoteCounter.getCommentUpvotes.
  apply fetchLoop_succeeds; auto. lia.
Qed.

(** On the recovering platform the third fetch returns the score, after
    waits of one and two seconds. *)
Lemma getCommentUpvotes_first_success_witness :
  exists w',
    VoteCounter.getCommentUpvotes voteCounterDefaults "c1" recoveringWorld
    = (w', Ok 7)
    /\ calls w' = 3%nat
    /\ log w' = [Sleep VoteBackoff 1000; Sleep VoteBackoff 2000]
    /\ redis w' = redis recoveringWorld.
Proof.
  apply (getCommentUpvotes_first_success voteCounterDefaults "c1" recoveringWorld 2
           (Some 7)).
  - vm_compute. lia.
  - intros [|[|a]] Ha; [exact I|exact I|lia].
  - reflexivity.
Defined.

(** ** [VoteCounter]: tracking and clearing *)

Lemma assoc_replace_value {A} k (v : A) kvs :
  JS.has_key k kvs = true -> JS.assoc k (JS.replace_value k v kvs) = Some v.
Proof.
  induction kvs as [|[k' v'] rest IH]; cbn; [discriminate|].
  destruct (String.eqb k' k) eqn:Hk; cbn; rewrite Hk; auto.
Qed.

Lemma assoc_replace_value_ne {A} k k0 (v : A) kvs :
  k0 <> k -> JS.assoc k0 (JS.replace_value k v kvs) = JS.assoc k0 kvs.
Proof.
  intros Hne. induction kvs as [|[k' v'] rest IH]; cbn; [reflexivity|].
  destruct (String.eqb_spec k' k) as [->|Hk]; cbn.
  - destruct (String.eqb_spec k k0); [congruence|reflexivity].
  - rewrite IH. reflexivity.
Qed.

Lemma assoc_insert_index {A} n k (v : A) kvs :
  JS.has_key k kvs = false -> JS.assoc k (JS.insert_index n k v kvs) = Some v.
Proof.
  induction kvs as [|[k' v'] rest IH]; cbn.
  - rewrite String.eqb_refl. reflexivity.
  - destruct (String.eqb k' k) eqn:Hk; [discriminate|]. cbn. intros Hrest.
    destruct (JS.array_index k') as [m|]; [destruct (m <? n)|]; cbn;
      rewrite ?Hk, ?String.eqb_refl; auto.
Qed.

Lemma assoc_insert_index_ne {A} n k k0 (v : A) kvs :
  k0 <> k -> JS.assoc k0 (JS.insert_index n k v kvs) = JS.assoc k0 kvs.
Proof.
  intros Hne. induction kvs as [|[k' v'] rest IH]; cbn.
  - destruct (String.eqb_spec k k0); [congruence|reflexivity].
  - destruct (JS.array_index k') as [m|]; [destruct (m <? n)|]; cbn;
      rewrite ?IH; try reflexivity;
      destruct (String.eqb_spec k k0); congruence.
Qed.

Lemma assoc_app_new {A} k (v : A) kvs :
  JS.has_key k kvs = false -> JS.assoc k (kvs ++ [(k, v)]) = Some v.
Proof.
  induction kvs as [|[k' v'] rest IH]; cbn.
  - rewrite String.eqb_refl. reflexivity.
  - destruct (String.eqb k' k); [discriminate|]. exact IH.
Qed.

Lemma assoc_app_ne {A} k k0 (v : A) kvs :
  k0 <> k -> JS.assoc k0 (kvs ++ [(k, v)]) = JS.assoc k0 kvs.
Proof.
  intros Hne. induction kvs as [|[k' v'] rest IH]; cbn.
  - destruct (String.eqb_spec k k0); [congruence|reflexivity].
  - rewrite IH. reflexivity.
Qed.

(** [record[k] = v], then [record[k]]. *)
Lemma assoc_record_set {A} k (v : A) kvs :
  k <> "__proto__" -> JS.assoc k (JS.record_set k v kvs) = Some v.
Proof.
  intros Hproto. unfold JS.record_set.
  destruct (String.eqb_spec k "__proto__") as [|_]; [contradiction|].
  destruct (JS.has_key k kvs) eqn:Hk.
  - apply assoc_replace_value. exact Hk.
  - destruct (JS.array_index k); [apply assoc_insert_index|apply assoc_app_new]; exact Hk.
Qed.

(** [record[k] = v], then [record[k0]] for another key. *)
Lemma assoc_record_set_ne {A} k k0 (v : A) kvs :
  k0 <> k -> JS.assoc k0 (JS.record_set k v kvs) = JS.assoc k0 kvs.
Proof.
  intros Hne. unfold JS.record_set.
  destruct (String.eqb k "__proto__"); [reflexivity|].
  destruct (JS.has_key k kvs).
  - apply assoc_replace_value_ne. exact Hne.
  - destruct (JS.array_index k);
      [apply assoc_insert_index_ne|apply assoc_app_ne]; exact Hne.
Qed.

(** X16.  [trackChoiceComment] then [getVoteData]: the record of the round
    maps the choice to the comment, every other choice of the round is
    mapped as before, and the other rounds, the game state, the story and
    the configuration are untouched.  A choice named [__proto__] is the
    exception: the assignment adds no property, so the choices of the
    record are exactly those it had.  A record that existed keeps its
    [roundEndTime]; a new one ends [roundDurationHours] hours after the
    round started, in test mode too.  With neither a record nor a game
    state the call throws and changes nothing. *)
Theorem trackChoiceComment_then_getVoteData choiceId commentId roundNumber w :
  exists w',
    match Redis.VOTE_DATA (redis w) !! roundNumber, Redis.GAME_STATE (redis w) with
    | None, None =>
        VoteCounter.trackChoiceComment choiceId commentId roundNumber w
        = (w', Throw ("Choice tracking failed: " +:+ "No active game state found"))
        /\ w' = w
    | _, _ =>
        VoteCounter.trackChoiceComment choiceId commentId roundNumber w = (w', Ok tt)
        /\ exists voteData,
             snd (RedisManager.getVoteData roundNumber w') = Ok (Some voteData)
             /\ (choiceId <> "__proto__" ->
                 JS.assoc choiceId (VoteData.choices voteData) = Some commentId)
             /\ (choiceId = "__proto__" ->
                 VoteData.choices voteData
                 = match Redis.VOTE_DATA (redis w) !! roundNumber with
                   | Some existing => VoteData.choices existing
                   | None => []
                   end)
             /\ (forall other,
                   other <> choiceId ->
                   JS.assoc other (VoteData.choices voteData)
                   = match Redis.VOTE_DATA (redis w) !! roundNumber with
                     | Some existing => JS.assoc other (VoteData.choices existing)
                     | None => None
                     end)
             /\ VoteData.roundEndTime voteData
                = match Redis.VOTE_DATA (redis w) !! roundNumber,
                        Redis.GAME_STATE (redis w) with
                  | Some existing, _ => VoteData.roundEndTime existing
                  | None, Some g =>
                      GameState.roundStartTime g
                      + GameState.roundDurationHours g * 60 * 60 * 1000
                  | None, None => 0
                  end
             /\ (forall round,
                   round <> roundNumber ->
                   Redis.VOTE_DATA (redis w') !! round
                   = Redis.VOTE_DATA (redis w) !! round)
             /\ Redis.GAME_STATE (redis w') = Redis.GAME_STATE (redis w)
             /\ Redis.STORY_DATA (redis w') = Redis.STORY_DATA (redis w)
             /\ Redis.CONFIG (redis w') = Redis.CONFIG (redis w)
    end.
Proof.
  unfold VoteCounter.trackChoiceComment, try_catch.
  rewrite !bind_run.
  unfold RedisManager.getVoteData, RedisManager.getGameState,
    RedisManager.setVoteData, bind, get_redis, put_redis, ret, throw.
  destruct (Redis.VOTE_DATA (redis w) !! roundNumber) as [existing|] eqn:Hv.
  - eexists. split; [reflexivity|]. cbn -[JS.record_set].
    eexists. split; [rewrite lookup_insert_eq; reflexivity|]. cbn -[JS.record_set].
    split; [apply assoc_record_set|].
    split; [intros ->; reflexivity|].
    split; [intros other Hne; apply assoc_record_set_ne; exact Hne|].
    split; [reflexivity|].
    split; [intros round Hne; apply lookup_insert_ne; congruence|auto].
  - destruct (Redis.GAME_STATE (redis w)) as [g|] eqn:Hg.
    + eexists. split; [reflexivity|]. cbn -[JS.record_set].
      eexists. split; [rewrite lookup_insert_eq; reflexivity|]. cbn -[JS.record_set].
      split; [apply assoc_record_set|].
      split; [intros ->; reflexivity|].
      split; [intros other Hne; apply (assoc_record_set_ne choiceId other commentId []);
              exact Hne|].
      split; [reflexivity|].
      split; [intros round Hne; apply lookup_insert_ne; congruence|auto].
    + eexists. split; reflexivity.
Qed.

(** X17.  [clearRoundVoteData] does not delete the record of the round but
    stores an empty one, and touches no other round.  Afterwards the round
    has no tracked choices, a count of 0 and no winner, and
    [isVotingExpired] is false for it at every time, its end time being
    0. *)
Theorem clearRoundVoteData_empties_the_round roundNumber w :
  exists w',
    VoteCounter.clearRoundVoteData roundNumber w = (w', Ok tt)
    /\ Redis.VOTE_DATA (redis w') !! roundNumber = Some (VoteData.mk [] 0)
    /\ (forall round,
          round <> roundNumber ->
          Redis.VOTE_DATA (redis w') !! round = Redis.VOTE_DATA (redis w) !! round)
    /\ VoteCounter.hasTrackedChoices roundNumber w' = (w', Ok false)
    /\ VoteCounter.getTrackedChoiceCount roundNumber w' = (w', Ok 0)
    /\ (forall later,
          redis later = redis w' ->
          VoteCounter.isVotingExpired roundNumber later = (later, Ok false))
    /\ (forall cfg, VoteCounter.getWinningChoice cfg roundNumber w' = (w', Ok None)).
Proof.
  unfold VoteCounter.clearRoundVoteData, RedisManager.setVoteData, bind, get_redis,
    put_redis.
  eexists. split; [reflexivity|]. cbn.
  split; [apply lookup_insert_eq|].
  split; [intros round Hne; apply lookup_insert_ne; congruence|].
  unfold VoteCounter.hasTrackedChoices, VoteCounter.getTrackedChoiceCount,
    VoteCounter.isVotingExpired, VoteCounter.getRoundExpiration,
    VoteCounter.getWinningChoice, VoteCounter.countVotes, VoteCounter.pickWinner,
    RedisManager.getVoteData, try_catch, bind, get_redis, ret.
  cbn. rewrite lookup_insert_eq. cbn.
  repeat split.
  intros later ->. cbn. rewrite lookup_insert_eq. reflexivity.
Qed.

(** ** [VoteCounter]: executing the winning choice *)

Lemma keepsStories_refl w : keepsStories w w.
Proof. split; auto. Qed.

Lemma keepsStories_trans a b c : keepsStories a b -> keepsStories b c -> keepsStories a c.
Proof. intros [H1 H2] [H3 H4]. split; [congruence|]. intros e. rewrite H4. apply H2. Qed.

Lemma stories_external {A} (ask : Env -> nat -> A) : preserves keepsStories (external ask).
Proof. intros w w' x [= <- <-]. split; [reflexivity|]. intros []; reflexivity. Qed.

Lemma stories_emit e : preserves keepsStories (emit e).
Proof. intros w w' x [= <- <-]. split; [reflexivity|]. intros []; reflexivity. Qed.

Lemma stories_sleep who ms : preserves keepsStories (sleep who ms).
Proof. intros w w' x [= <- <-]. split; [reflexivity|]. intros []; reflexivity. Qed.

Lemma stories_loadCurrentStory e : preserves keepsStories (StoryEngine.loadCurrentStory e).
Proof.
  intros w w' x Hrun.
  unfold StoryEngine.loadCurrentStory, RedisManager.getStoryData, bind, get_currentStory,
    get_redis, ret, set_currentStory in Hrun.
  destruct (currentStory e w) as [s|] eqn:Hc.
  - injection Hrun as <- _. apply keepsStories_refl.
  - destruct e; injection Hrun as <- _; (split; [reflexivity|]);
      intros []; unfold storyOf; cbn in *; try reflexivity; rewrite Hc;
      destruct (Redis.STORY_DATA (redis w)); reflexivity.
Qed.

Create HintDb stories.
#[local] Hint Resolve stories_external stories_emit stories_sleep
  stories_loadCurrentStory : stories.

Ltac stories :=
  repeat (frame_step keepsStories_refl keepsStories_trans ltac:(auto with stories)).

Lemma stories_getCurrentNode e : preserves keepsStories (StoryEngine.getCurrentNode e).
Proof.
  unfold StoryEngine.getCurrentNode, RedisManager.getGameState. stories.
Qed.
#[local] Hint Resolve stories_getCurrentNode : stories.

Lemma stories_getNodeById e n : preserves keepsStories (StoryEngine.getNodeById e n).
Proof. unfold StoryEngine.getNodeById. stories. Qed.
#[local] Hint Resolve stories_getNodeById : stories.

Lemma stories_fetchLoop cfg c : forall remaining attempt lastError,
  preserves keepsStories (VoteCounter.fetchLoop cfg c remaining attempt lastError).
Proof.
  induction remaining as [|remaining IH]; intros; cbn [VoteCounter.fetchLoop]; stories.
Qed.
#[local] Hint Resolve stories_fetchLoop : stories.

Lemma stories_countLoop cfg : forall entries,
  preserves keepsStories (VoteCounter.countLoop cfg entries).
Proof.
  induction entries as [|[a b] rest IH]; cbn [VoteCounter.countLoop];
    unfold VoteCounter.getCommentUpvotes; stories.
Qed.
#[local] Hint Resolve stories_countLoop : stories.

Lemma stories_getWinningChoice cfg n :
  preserves keepsStories (VoteCounter.getWinningChoice cfg n).
Proof.
  unfold VoteCounter.getWinningChoice, VoteCounter.countVotes, VoteCounter.pickWinner,
    VoteCounter.resolveTie, VoteCounter.choiceIdAt, RedisManager.getVoteData.
  stories.
Qed.
#[local] Hint Resolve stories_getWinningChoice : stories.

Lemma stories_getVoteResults cfg n :
  preserves keepsStories (VoteCounter.getVoteResults cfg n).
Proof.
  unfold VoteCounter.getVoteResults, VoteCounter.countVotes, RedisManager.getVoteData.
  stories.
Qed.
#[local] Hint Resolve stories_getVoteResults : stories.

Lemma stories_resolveWinningChoice cfg n :
  preserves keepsStories (VoteCounter.resolveWinningChoice cfg n).
Proof. unfold VoteCounter.resolveWinningChoice. stories. Qed.

Lemma getNodeById_run e nodeId w :
  exists w',
    StoryEngine.getNodeById e nodeId w
    = (w', Ok match storyOf e w with
              | Some story => Story.node story nodeId
              | None => None
              end).
Proof.
  destruct (loadCurrentStory_storyOf e w) as (w1 & Hl & _).
  unfold StoryEngine.getNodeById. rewrite bind_run, Hl.
  destruct (storyOf e w); eexists; reflexivity.
Qed.

(** A resolution that [resolveWinningChoice] marks valid names a choice of
    the current node of the active game, the first with that id, and the
    node it leads to exists. *)
Lemma resolveWinningChoice_valid cfg roundNumber w w1 r :
  VoteCounter.resolveWinningChoice cfg roundNumber w = (w1, Ok (Some r)) ->
  ChoiceResolution.isValid r = true ->
  exists story g node choice,
    storyOf OfVoteCounter w = Some story
    /\ Redis.GAME_STATE (redis w) = Some g
    /\ GameState.isActive g = true
    /\ Story.node story (GameState.currentNodeId g) = Some node
    /\ List.find (fun c => String.eqb (Choice.id c) (ChoiceResolution.choiceId r))
         (default [] (StoryNode.choices node)) = Some choice
    /\ is_Some (Story.node story (Choice.nextNodeId choice)).
Proof.
  unfold VoteCounter.resolveWinningChoice, try_catch. rewrite bind_run.
  destruct (VoteCounter.getWinningChoice cfg roundNumber w) as [w2 [[id|]|m]] eqn:Hwin;
    [|discriminate|discriminate].
  apply stories_getWinningChoice in Hwin as [Hr2 Hs2].
  destruct id as [|a s]; [discriminate|].
  rewrite bind_run.
  destruct (VoteCounter.getVoteResults cfg roundNumber w2) as [w3 [results|m]] eqn:Hres;
    [|discriminate].
  apply stories_getVoteResults in Hres as [Hr3 Hs3].
  destruct (List.find _ results) as [winningResult|]; [|discriminate].
  rewrite bind_run.
  destruct (StoryEngine.getCurrentNode OfVoteCounter w3) as [w4 [[node|]|m]] eqn:Hcur;
    [|discriminate|discriminate].
  apply getCurrentNode_ok in Hcur
    as (story & g & Hstory & Hg & Ha & Hnode & Hr4 & _ & _ & _ & _ & Hs4).
  destruct (List.find _ (default [] (StoryNode.choices node))) as [choice|] eqn:Hfind;
    [|discriminate].
  rewrite bind_run.
  destruct (getNodeById_run OfVoteCounter (Choice.nextNodeId choice) w4) as (w5 & ->).
  rewrite Hs4, Hstory. unfold ret. intros [= <- <-]. cbn. intros Hvalid.
  exists story, g, node, choice.
  rewrite <- Hs2, <- Hs3, <- Hr2, <- Hr3.
  repeat split; auto.
  destruct (Story.node story (Choice.nextNodeId choice)); [eauto|discriminate].
Qed.



(** ** [VoteCounter]: the choices with their votes *)

Lemma insertByVoteCount_perm x l :
  Permutation (VoteCounter.insertByVoteCount x l) (x :: l).
Proof.
  induction l as [|y l IH]; cbn; [reflexivity|].
  destruct (_ <? _); [|reflexivity].
  rewrite IH. apply perm_swap.
Qed.

Lemma sortByVoteCount_perm l : Permutation (VoteCounter.sortByVoteCount l) l.
Proof.
  induction l as [|x l IH]; cbn; [reflexivity|].
  rewrite insertByVoteCount_perm. constructor. exact IH.
Qed.

Lemma insertByVoteCount_sorted x l :
  StronglySorted descendingVotes l ->
  StronglySorted descendingVotes (VoteCounter.insertByVoteCount x l).
Proof.
  induction 1 as [|y l Hs IH Hall]; cbn; [repeat constructor|].
  destruct (Z.ltb_spec (ChoiceWithVotes.voteCount x) (ChoiceWithVotes.voteCount y)).
  - constructor; [exact IH|].
    rewrite List.Forall_forall. intros z Hz.
    eapply Permutation_in in Hz; [|apply insertByVoteCount_perm].
    destruct Hz as [<-|Hz]; [unfold descendingVotes; lia|].
    rewrite List.Forall_forall in Hall. auto.
  - constructor; [constructor; assumption|].
    constructor; [unfold descendingVotes; lia|].
    rewrite List.Forall_forall in *. intros z Hz. specialize (Hall z Hz).
    unfold descendingVotes in *. lia.
Qed.

Lemma sortByVoteCount_sorted l : StronglySorted descendingVotes (VoteCounter.sortByVoteCount l).
Proof.
  induction l as [|x l IH]; cbn; [constructor|].
  apply insertByVoteCount_sorted. exact IH.
Qed.

(** [getCurrentNode], by cases on what the instance and the store
    hold. *)
Lemma getCurrentNode_run e w :
  exists w',
    StoryEngine.getCurrentNode e w
    = (w', match storyOf e w, Redis.GAME_STATE (redis w) with
           | Some story, Some g =>
               if GameState.isActive g
               then match Story.node story (GameState.currentNodeId g) with
                    | Some node => Ok (Some node)
                    | None =>
                        Throw ("Current node retrieval failed: Current node "
                               +:+ GameState.currentNodeId g +:+ " not found in story")
                    end
               else Ok None
           | _, _ => Ok None
           end)
    /\ redis w' = redis w /\ now w' = now w /\ log w' = log w /\ calls w' = calls w
    /\ env w' = env w.
Proof.
  destruct (loadCurrentStory_storyOf e w) as (w1 & Hl & Hr & Hn & Hlog & Hc & He & _).
  unfold StoryEngine.getCurrentNode, try_catch. rewrite bind_run, Hl.
  exists w1.
  destruct (storyOf e w) as [story|]; [|auto 10].
  unfold RedisManager.getGameState, bind, get_redis, ret, throw. rewrite Hr.
  destruct (Redis.GAME_STATE (redis w)) as [g|]; [|auto 10].
  destruct (GameState.isActive g); cbn; [|auto 10].
  destruct (Story.node story (GameState.currentNodeId g)); auto 10.
Qed.

(** X19.  [getChoicesWithVotes] never throws and leaves the store alone; its
    result is sorted by votes, highest first.  For an active game whose
    current node has choices, it holds one entry for every choice of the
    node, built from the tally of the round; an entry whose choice the
    tally does not have carries 0 votes and the comment id "unknown". *)
Theorem getChoicesWithVotes_lists_every_choice cfg roundNumber w :
  exists w' entries,
    VoteCounter.getChoicesWithVotes cfg roundNumber w = (w', Ok entries)
    /\ redis w' = redis w
    /\ StronglySorted descendingVotes entries
    /\ forall story g node choices,
         storyOf OfVoteCounter w = Some story ->
         Redis.GAME_STATE (redis w) = Some g ->
         GameState.isActive g = true ->
         Story.node story (GameState.currentNodeId g) = Some node ->
         StoryNode.choices node = Some choices ->
         exists results,
           Permutation (map tallyKey results)
             match Redis.VOTE_DATA (redis w) !! roundNumber with
             | Some voteData => VoteData.choices voteData
             | None => []
             end
           /\ Permutation entries (map (VoteCounter.withVotes results) choices)
           /\ forall entry,
                In entry entries ->
                (forall r, In r results ->
                           VoteResult.choiceId r <> ChoiceWithVotes.choiceId entry) ->
                ChoiceWithVotes.voteCount entry = 0
                /\ ChoiceWithVotes.commentId entry = "unknown".
Proof.
  unfold VoteCounter.getChoicesWithVotes, try_catch. rewrite bind_run.
  destruct (getCurrentNode_run OfVoteCounter w) as (w1 & -> & Hr1 & _).
  destruct (storyOf OfVoteCounter w) as [story|] eqn:Hstory;
    [|exists w1, []; split; [reflexivity|]; split; [exact Hr1|]; split; [constructor|];
      intros; congruence].
  destruct (Redis.GAME_STATE (redis w)) as [g|] eqn:Hg;
    [|exists w1, []; split; [reflexivity|]; split; [exact Hr1|]; split; [constructor|];
      intros; congruence].
  destruct (GameState.isActive g) eqn:Ha;
    [|exists w1, []; split; [reflexivity|]; split; [exact Hr1|]; split; [constructor|];
      intros; congruence].
  destruct (Story.node story (GameState.currentNodeId g)) as [node|] eqn:Hnode;
    [|exists w1, []; split; [reflexivity|]; split; [exact Hr1|]; split; [constructor|];
      intros; congruence].
  destruct (StoryNode.choices node) as [choices|] eqn:Hch;
    [|exists w1, []; split; [reflexivity|]; split; [exact Hr1|]; split; [constructor|];
      intros; congruence].
  rewrite bind_run.
  destruct (countVotes_run cfg roundNumber w1) as (w2 & results & Hcount & Hr2 & _ & Hperm).
  unfold VoteCounter.getVoteResults, try_catch. rewrite Hcount.
  exists w2, (VoteCounter.sortByVoteCount (map (VoteCounter.withVotes results) choices)).
  split; [reflexivity|]. split; [congruence|].
  split; [apply sortByVoteCount_sorted|].
  intros story' g' node' choices' [= <-] [= <-] _ Hnode' Hch'.
  rewrite Hnode in Hnode'. injection Hnode' as <-.
  rewrite Hch in Hch'. injection Hch' as <-.
  exists results. rewrite Hr1 in Hperm. split; [exact Hperm|].
  split; [apply sortByVoteCount_perm|].
  intros entry Hentry Hnone.
  eapply Permutation_in in Hentry; [|apply sortByVoteCount_perm].
  apply in_map_iff in Hentry as (choice & <- & _).
  unfold VoteCounter.withVotes in *. cbn in *.
  destruct (List.find _ results) as [r|] eqn:Hfind; [|auto].
  apply List.find_some in Hfind as [Hin Heq]. apply String.eqb_eq in Heq.
  exfalso. eapply Hnone; eauto.
Qed.

(** In the demo game both choices of [start] are tracked: A with five
    upvotes, B with three. *)
Lemma getChoicesWithVotes_lists_every_choice_example :
  snd (VoteCounter.getChoicesWithVotes voteCounterDefaults 1 (demoWorld (Ok "post")))
  = Ok [ChoiceWithVotes.mk "A" "Go A" "cave" 5 "c1";
        ChoiceWithVotes.mk "B" "Go B" "exit" 3 "c2"].
Proof. reflexivity. Qed.

(** In the demo game A has five upvotes and B three. *)
Lemma getWinningChoice_tops_the_tally_witness :
  exists winner,
    In winner (match snd (VoteCounter.countVotes voteCounterDefaults 1
                            (demoWorld (Ok "post"))) with
               | Ok results => results
               | Throw _ => []
               end)
    /\ VoteResult.choiceId winner = "A"
    /\ 0 <= VoteResult.upvotes winner.
Proof.
  destruct (getWinningChoice_tops_the_tally voteCounterDefaults 1 (demoWorld (Ok "post")))
    as (w1 & results & Hcount & Hwin).
  destruct (Hwin (fst (VoteCounter.getWinningChoice voteCounterDefaults 1
                         (demoWorld (Ok "post"))))
              (Some "A") eq_refl)
    as (_ & winner & Hin & Hid & Hmin & _).
  exists winner. rewrite Hcount. cbn. auto.
Defined.


(** ** [PostManager]: the post of a round *)

Lemma store_createRedditPost : preserves keepsStore PostManager.createRedditPost.
Proof. unfold PostManager.createRedditPost. store. Qed.
#[local] Hint Resolve store_createRedditPost : store.

Lemma store_commentLoop : forall choices,
  preserves keepsStore (PostManager.commentLoop choices).
Proof. induction choices as [|c rest IH]; cbn [PostManager.commentLoop]; store. Qed.
#[local] Hint Resolve store_commentLoop : store.

Lemma store_createChoiceComments choices :
  preserves keepsStore (PostManager.createChoiceComments choices).
Proof. unfold PostManager.createChoiceComments. store. Qed.
#[local] Hint Resolve store_createChoiceComments : store.

(** The comments [commentLoop] created: one per choice, each the answer
    of the platform to one call, six seconds between two. *)
Lemma commentLoop_ok : forall choices w w' commentIds,
  PostManager.commentLoop choices w = (w', Ok commentIds) ->
  length commentIds = length choices
  /\ calls w' = (calls w + length choices)%nat
  /\ env w' = env w
  /\ log w' = log w ++ replicate (length choices - 1) (Sleep CommentRateLimit 6000)
  /\ forall i commentId,
       commentIds !! i = Some commentId ->
       reddit_submitComment (env w) (calls w + i)%nat = Ok commentId.
Proof.
  induction choices as [|c rest IH]; intros w w' ids; cbn [PostManager.commentLoop].
  - intros [= <- <-]. cbn. rewrite app_nil_r. repeat split; auto.
    intros [|i] x Hx; discriminate.
  - rewrite bind_run. unfold external.
    destruct (reddit_submitComment (env w) (calls w)) as [comment|m] eqn:Hc;
      [|discriminate].
    cbn [of_result]. rewrite bind_run. unfold ret at 1. rewrite bind_run.
    destruct rest as [|c' rest'].
    + unfold ret. cbn. intros [= <- <-]. cbn. rewrite app_nil_r.
      split; [reflexivity|]. split; [lia|]. split; [reflexivity|].
      split; [reflexivity|].
      intros [|i] x Hx; cbn in Hx; [|destruct i; discriminate].
      rewrite Nat.add_0_r. congruence.
    + unfold sleep at 1. rewrite bind_run.
      destruct (PostManager.commentLoop (c' :: rest') _) as [w1 [more|m]] eqn:Hrest;
        [|discriminate].
      unfold ret. intros [= <- <-].
      apply IH in Hrest as (Hlen & Hcalls & Henv & Hlog & Hids). cbn in *.
      split; [lia|]. split; [lia|]. split; [exact Henv|].
      split; [rewrite Hlog, <- app_assoc, Nat.sub_0_r; reflexivity|].
      intros [|i] x Hx; cbn in Hx.
      * rewrite Nat.add_0_r. congruence.
      * apply Hids in Hx. rewrite <- Hx. f_equal. lia.
Qed.

(** [storeChoiceCommentMapping] writes the record of the round, or throws
    having written nothing. *)
Lemma storeChoiceCommentMapping_run roundNumber choices commentIds w :
  exists w' r,
    PostManager.storeChoiceCommentMapping roundNumber choices commentIds w = (w', r)
    /\ now w' = now w /\ log w' = log w /\ calls w' = calls w /\ env w' = env w
    /\ match r with
       | Ok _ =>
           length choices = length commentIds
           /\ exists g,
                Redis.GAME_STATE (redis w) = Some g
                /\ redis w'
                   = Redis.mk (Redis.GAME_STATE (redis w)) (Redis.STORY_DATA (redis w))
                       (Redis.CONFIG (redis w))
                       (<[roundNumber :=
                            VoteData.mk (PostManager.choiceMapping [] choices commentIds)
                              (GameState.roundStartTime g
                               + GameState.roundDurationHours g * 60 * 60 * 1000)]>
                          (Redis.VOTE_DATA (redis w)))
       | Throw _ => redis w' = redis w
       end.
Proof.
  unfold PostManager.storeChoiceCommentMapping, try_catch.
  destruct (Nat.eqb_spec (length choices) (length commentIds)) as [Hlen|Hlen]; cbn [negb].
  - rewrite bind_run.
    unfold StoryEngine.getGameState, RedisManager.getGameState,
      RedisManager.setVoteData, bind, get_redis, put_redis, ret, throw.
    destruct (Redis.GAME_STATE (redis w)) as [g|] eqn:Hg.
    + do 2 eexists. split; [reflexivity|]. cbn. repeat split; auto.
      exists g. rewrite Hg. auto.
    + do 2 eexists. split; [reflexivity|]. auto.
  - unfold throw. do 2 eexists. split; [reflexivity|]. auto.
Qed.

Lemma getStoryMetadata_run e w :
  exists w',
    StoryEngine.getStoryMetadata e w
    = (w', Ok match storyOf e w with
              | Some story =>
                  Some (Story.title story, Story.description story,
                        Story.startNodeId story)
              | None => None
              end)
    /\ redis w' = redis w /\ now w' = now w /\ log w' = log w /\ calls w' = calls w
    /\ env w' = env w /\ storyOf e w' = storyOf e w.
Proof.
  destruct (loadCurrentStory_storyOf e w) as (w1 & Hl & Hr & Hn & Hlog & Hc & He & Hs).
  unfold StoryEngine.getStoryMetadata. rewrite bind_run, Hl. exists w1.
  destruct (storyOf e w); unfold ret; auto 10.
Qed.

(** [createStoryRoundPost], by cases on its result. *)
Lemma createStoryRoundPost_run subredditName w :
  exists w' res,
    PostManager.createStoryRoundPost subredditName w = (w', Ok res)
    /\ if PostCreationResult.success res
       then exists story g node post commentIds,
              env w' = env w
              /\ storyOf OfPostManager w = Some story
              /\ Redis.GAME_STATE (redis w) = Some g
              /\ GameState.isActive g = true
              /\ Story.node story (GameState.currentNodeId g) = Some node
              /\ reddit_submitPost (env w) (calls w) = Ok post
              /\ res = PostCreationResult.mk true (Some post) (Some commentIds) None
              /\ length commentIds = length (commentedChoices node)
              /\ calls w' = (S (calls w) + length (commentedChoices node))%nat
              /\ log w'
                 = log w ++ replicate (length (commentedChoices node) - 1)
                              (Sleep CommentRateLimit 6000)
              /\ (forall i commentId,
                     commentIds !! i = Some commentId ->
                     reddit_submitComment (env w) (S (calls w) + i)%nat = Ok commentId)
              /\ redis w'
                 = match commentedChoices node with
                   | [] => redis w
                   | choices =>
                       Redis.mk (Redis.GAME_STATE (redis w)) (Redis.STORY_DATA (redis w))
                         (Redis.CONFIG (redis w))
                         (<[GameState.roundNumber g :=
                              VoteData.mk
                                (PostManager.choiceMapping [] choices commentIds)
                                (GameState.roundStartTime g
                                 + GameState.roundDurationHours g * 60 * 60 * 1000)]>
                            (Redis.VOTE_DATA (redis w)))
                   end
       else redis w' = redis w.
Proof.
  destruct (getCurrentNode_run OfPostManager w) as (w1 & H1 & Hr1 & Hn1 & Hl1 & Hc1 & He1).
  pose proof (stories_getCurrentNode OfPostManager w w1 _ H1) as [_ Hs1].
  specialize (Hs1 OfPostManager).
  unfold PostManager.createStoryRoundPost, try_catch. rewrite bind_run, H1.
  destruct (storyOf OfPostManager w) as [story|] eqn:Hstory.
  2: { unfold ret. do 2 eexists. split; [reflexivity|]. cbn. auto. }
  destruct (Redis.GAME_STATE (redis w)) as [g|] eqn:Hg.
  2: { unfold ret. do 2 eexists. split; [reflexivity|]. cbn. auto. }
  destruct (GameState.isActive g) eqn:Hactive.
  2: { unfold ret. do 2 eexists. split; [reflexivity|]. cbn. auto. }
  destruct (Story.node story (GameState.currentNodeId g)) as [node|] eqn:Hnode.
  2: { unfold ret. do 2 eexists. split; [reflexivity|]. cbn. auto. }
  rewrite bind_run.
  unfold StoryEngine.getGameState at 1, RedisManager.getGameState at 1.
  rewrite bind_run. unfold get_redis at 1, ret at 1. rewrite Hr1, Hg, bind_run.
  destruct (getStoryMetadata_run OfPostManager w1)
    as (w2 & H2 & Hr2 & Hn2 & Hl2 & Hc2 & He2 & _).
  rewrite H2, Hs1. rewrite bind_run.
  unfold PostManager.createRedditPost at 1, try_catch. rewrite bind_run.
  unfold external at 1.
  rewrite He2, He1, Hc2, Hc1.
  destruct (reddit_submitPost (env w) (calls w)) as [post|m] eqn:Hpost; cbn [of_result].
  2: { unfold throw, ret. do 2 eexists. split; [reflexivity|]. cbn. congruence. }
  unfold ret at 1. rewrite bind_run.
  assert (Hquiet :
            exists w' res,
              (let (w'0, r) :=
                 let (w'0, r) :=
                   ret (A := list string) []
                     (mkWorld (redis w2) (now w2) (S (calls w)) (log w2) (env w)
                        (story_sched w2) (story_post w2) (story_vote w2)
                        (story_settings w2)) in
                 match r with
                 | Ok a =>
                     ret (PostCreationResult.mk true (Some post) (Some a) None) w'0
                 | Throw e => (w'0, Throw e)
                 end in
               match r with
               | Ok a => (w'0, Ok a)
               | Throw e =>
                   ret (PostCreationResult.failure ("Post creation failed: " +:+ e)) w'0
               end) = (w', Ok res)
              /\ env w' = env w
              /\ res = PostCreationResult.mk true (Some post) (Some []) None
              /\ calls w' = S (calls w) /\ log w' = log w /\ redis w' = redis w).
  { unfold ret. do 2 eexists. split; [reflexivity|]. cbn.
    repeat split; congruence. }
  destruct (StoryNode.isEnd node) as [[|]|] eqn:Hend,
    (StoryNode.choices node) as [[|c cs]|] eqn:Hch.
  1-4,6-7,9: destruct Hquiet as (w' & res & Hrun & Henv & -> & Hcalls & Hlog & Hr);
    exists w'; eexists; (split; [exact Hrun|]);
    cbn [PostCreationResult.success];
    exists story, g, node, post, []; unfold commentedChoices; rewrite Hend, ?Hch;
    cbn [length replicate Nat.sub];
    rewrite ?app_nil_r, ?Nat.add_0_r;
    repeat split; auto; try (intros [|i] x Hx; discriminate).
  all: clear Hquiet.
  all: set (w3 := mkWorld _ _ _ _ _ _ _ _ _).
  all: rewrite bind_run; unfold PostManager.createChoiceComments at 1, try_catch.
  all: destruct (PostManager.commentLoop (c :: cs) w3) as [w4 [ids|m]] eqn:Hloop.
  2,4: apply store_commentLoop in Hloop; unfold throw, ret; do 2 eexists;
       (split; [reflexivity|]); cbn; unfold keepsStore in Hloop; subst w3;
       cbn in Hloop; congruence.
  all: pose proof (store_commentLoop _ _ _ _ Hloop) as Hr4.
  all: apply commentLoop_ok in Hloop as (Hlen & Hc4 & He4 & Hl4 & Hids).
  all: rewrite bind_run.
  all: destruct (storeChoiceCommentMapping_run (GameState.roundNumber g)
                   (c :: cs) ids w4) as (w5 & r & Hrun & Hn5 & Hl5 & Hc5 & He5 & Hres).
  all: rewrite Hrun; destruct r as [[]|m]; unfold ret, throw.
  2,4: do 2 eexists; (split; [reflexivity|]); cbn; unfold keepsStore in Hr4;
       subst w3; cbn in Hr4; congruence.
  all: destruct Hres as (_ & g' & Hg' & Hr5).
  all: do 2 eexists; (split; [reflexivity|]); cbn [PostCreationResult.success].
  all: exists story, g, node, post, ids; unfold commentedChoices; rewrite Hend, Hch.
  all: unfold keepsStore in Hr4; subst w3; cbn in Hr4, Hc4, He4, Hl4, Hids.
  all: rewrite Hr4, Hr2, Hr1, Hg in Hg'; injection Hg' as <-.
  all: repeat split; auto; try congruence.
  1,3: rewrite Hc5, Hc4; cbn; lia.
  all: rewrite Hl5, Hl4, Hl2, Hl1; cbn; rewrite Nat.sub_0_r; reflexivity.
Qed.

(** What [choiceMapping] records under a key that is the id of no
    choice. *)
Lemma choiceMapping_other key : forall choices commentIds acc,
  ~ In key (map Choice.id choices) ->
  JS.assoc key (PostManager.choiceMapping acc choices commentIds) = JS.assoc key acc.
Proof.
  induction choices as [|c cs IH]; intros ids acc Hnot; [reflexivity|].
  destruct ids as [|x ids]; [reflexivity|]. cbn [PostManager.choiceMapping].
  rewrite IH by (intros Hin; apply Hnot; right; exact Hin).
  apply assoc_record_set_ne. intros ->. apply Hnot. left. reflexivity.
Qed.

(** With distinct choice ids, [choiceMapping] maps the id of the [i]-th
    choice to the [i]-th comment. *)
Lemma choiceMapping_lookup : forall choices commentIds acc i choice commentId,
  NoDup (map Choice.id choices) ->
  ~ In "__proto__" (map Choice.id choices) ->
  choices !! i = Some choice ->
  commentIds !! i = Some commentId ->
  JS.assoc (Choice.id choice) (PostManager.choiceMapping acc choices commentIds)
  = Some commentId.
Proof.
  induction choices as [|c cs IH]; intros ids acc i choice x Hnd Hproto Hc Hx;
    [destruct i; discriminate|].
  destruct ids as [|y ids]; [destruct i; discriminate|].
  cbn [map] in Hnd, Hproto. apply NoDup_cons in Hnd as [Hnot Hnd].
  cbn [PostManager.choiceMapping].
  destruct i as [|i]; cbn in Hc, Hx.
  - injection Hc as <-. injection Hx as <-.
    rewrite choiceMapping_other by (rewrite <- list_elem_of_In; exact Hnot).
    apply assoc_record_set. intros Heq. apply Hproto. left. exact Heq.
  - eapply IH; eauto. intros Hin. apply Hproto. right. exact Hin.
Qed.

(** X20.  [createStoryRoundPost] never throws.  A call that reports a failure
    has written nothing to the store; a call that succeeds has left the
    game state, the story and the configuration as they were, and of the
    vote records it has written at most that of the current round. *)
Theorem createStoryRoundPost_writes_only_the_round subredditName w :
  exists w' res,
    PostManager.createStoryRoundPost subredditName w = (w', Ok res)
    /\ (PostCreationResult.success res = false -> redis w' = redis w)
    /\ Redis.GAME_STATE (redis w') = Redis.GAME_STATE (redis w)
    /\ Redis.STORY_DATA (redis w') = Redis.STORY_DATA (redis w)
    /\ Redis.CONFIG (redis w') = Redis.CONFIG (redis w)
    /\ forall g round,
         Redis.GAME_STATE (redis w) = Some g ->
         round <> GameState.roundNumber g ->
         Redis.VOTE_DATA (redis w') !! round = Redis.VOTE_DATA (redis w) !! round.
Proof.
  destruct (createStoryRoundPost_run subredditName w) as (w' & res & Hrun & H).
  exists w', res. split; [exact Hrun|].
  destruct (PostCreationResult.success res).
  - destruct H as (story & g & node & post & ids & _ & _ & Hg & _ & _ & _ & _ & _ & _
                   & _ & _ & Hr).
    split; [discriminate|].
    destruct (commentedChoices node) as [|c cs].
    + rewrite Hr. repeat split; auto.
    + rewrite Hr. cbn. repeat split; auto.
      intros g' round Hg' Hne. rewrite Hg in Hg'. injection Hg' as <-.
      apply lookup_insert_ne. congruence.
  - rewrite H. repeat split; auto.
Qed.

(** X21.  A round post created for a node that goes on and has no image
    (with an image the media upload, which the embedding leaves out, adds
    calls and waits of its own): when [createStoryRoundPost] succeeds and
    the current node does not end the story and has choices, then there
    is one comment per choice, the [i]-th being the platform's answer to
    the [i]-th call after the post, with a wait of six seconds between
    two; and the vote record of the current round now ends a round
    duration, counted in hours, after the round's start and, the choice
    ids being distinct and none of them [__proto__], maps the id of the
    [i]-th choice to the [i]-th comment. *)
Theorem createStoryRoundPost_maps_every_choice subredditName w w' res story g node
    choices :
  PostManager.createStoryRoundPost subredditName w = (w', Ok res) ->
  PostCreationResult.success res = true ->
  storyOf OfPostManager w = Some story ->
  Redis.GAME_STATE (redis w) = Some g ->
  Story.node story (GameState.currentNodeId g) = Some node ->
  StoryNode.imageUrl node = None ->
  StoryNode.isEnd node <> Some true ->
  StoryNode.choices node = Some choices ->
  choices <> [] ->
  exists commentIds voteData,
    PostCreationResult.choiceCommentIds res = Some commentIds
    /\ length commentIds = length choices
    /\ (forall i commentId,
          commentIds !! i = Some commentId ->
          reddit_submitComment (env w) (S (calls w) + i)%nat = Ok commentId)
    /\ log w' = log w ++ replicate (length choices - 1) (Sleep CommentRateLimit 6000)
    /\ Redis.VOTE_DATA (redis w') !! GameState.roundNumber g = Some voteData
    /\ VoteData.roundEndTime voteData
       = GameState.roundStartTime g + GameState.roundDurationHours g * 3600000
    /\ (NoDup (map Choice.id choices) ->
        ~ In "__proto__" (map Choice.id choices) ->
        forall i choice commentId,
          choices !! i = Some choice ->
          commentIds !! i = Some commentId ->
          JS.assoc (Choice.id choice) (VoteData.choices voteData) = Some commentId).
Proof.
  intros Hrun Hsuccess Hstory Hg Hnode Himage Hend Hch Hne.
  destruct (createStoryRoundPost_run subredditName w) as (w0 & res0 & Hrun0 & H).
  rewrite Hrun in Hrun0. injection Hrun0 as <- <-. rewrite Hsuccess in H.
  destruct H as (story' & g' & node' & post & ids & _ & Hstory' & Hg' & _ & Hnode'
                 & _ & -> & Hlen & _ & Hlog & Hids & Hr).
  assert (story' = story) as -> by congruence.
  assert (g' = g) as -> by congruence.
  assert (node' = node) as -> by congruence.
  assert (commentedChoices node = choices) as Hcc.
  { unfold commentedChoices. rewrite Hch. destruct (StoryNode.isEnd node) as [[|]|];
      congruence. }
  rewrite Hcc in *.
  destruct choices as [|c cs]; [congruence|].
  eexists ids, _. rewrite Hr. cbn [Redis.VOTE_DATA]. rewrite lookup_insert_eq.
  cbn [PostCreationResult.choiceCommentIds VoteData.roundEndTime VoteData.choices].
  split; [reflexivity|]. split; [exact Hlen|]. split; [exact Hids|].
  split; [exact Hlog|]. split; [reflexivity|]. split; [cbn; lia|]. cbn [VoteData.choices].
  intros Hnd Hproto i choice x Hc Hx. eapply choiceMapping_lookup; eauto.
Qed.

Lemma createStoryRoundPost_maps_every_choice_witness :
  exists commentIds voteData,
    PostCreationResult.choiceCommentIds
      (PostCreationResult.mk true (Some "post") (Some ["comment1"; "comment2"]) None)
    = Some commentIds
    /\ length commentIds = 2%nat
    /\ (forall i commentId,
          commentIds !! i = Some commentId ->
          reddit_submitComment (env (demoWorld (Ok "post"))) (1 + i)%nat = Ok commentId)
    /\ log (fst (PostManager.createStoryRoundPost "adventures" (demoWorld (Ok "post"))))
       = [Sleep CommentRateLimit 6000]
    /\ Redis.VOTE_DATA
         (redis (fst (PostManager.createStoryRoundPost "adventures"
                        (demoWorld (Ok "post"))))) !! 1
       = Some voteData
    /\ VoteData.roundEndTime voteData = 1000 + 24 * 3600000
    /\ (NoDup ["A"; "B"] ->
        ~ In "__proto__" ["A"; "B"] ->
        forall i choice commentId,
          [choiceTo "A" "cave"; choiceTo "B" "exit"] !! i = Some choice ->
          commentIds !! i = Some commentId ->
          JS.assoc (Choice.id choice) (VoteData.choices voteData) = Some commentId).
Proof.
  apply (createStoryRoundPost_maps_every_choice "adventures" (demoWorld (Ok "post"))
           (fst (PostManager.createStoryRoundPost "adventures" (demoWorld (Ok "post"))))
           (PostCreationResult.mk true (Some "post") (Some ["comment1"; "comment2"]) None)
           demoStory demoGame
           (StoryNode.mk "start" "Start" "You wake up." None
              (Some [choiceTo "A" "cave"; choiceTo "B" "exit"]) None)
           [choiceTo "A" "cave"; choiceTo "B" "exit"]);
    try reflexivity; discriminate.
Defined.

(** ** [PostManager]: the recap post *)

Lemma completeGame_run w :
  exists w',
    StoryEngine.completeGame w = (w', Ok tt)
    /\ redis w' = completedStore (redis w)
    /\ now w' = now w /\ log w' = log w /\ calls w' = calls w /\ env w' = env w.
Proof.
  unfold StoryEngine.completeGame, RedisManager.completeGame, completedStore,
    RedisManager.getGameState, RedisManager.setGameState, RedisManager.getConfiguration,
    RedisManager.setConfiguration, bind, get_redis, put_redis, ret.
  cbn. destruct (Redis.GAME_STATE (redis w)) as [g|]; cbn.
  - destruct (Redis.CONFIG (redis w)) as [c|]; cbn;
      eexists; (split; [reflexivity|]); cbn; auto.
  - eexists. split; [reflexivity|]. destruct (redis w); auto.
Qed.

(** [createEndGameRecapPost], by cases on its result. *)
Lemma createEndGameRecapPost_run subredditName w :
  exists w' res,
    PostManager.createEndGameRecapPost subredditName w = (w', Ok res)
    /\ now w' = now w /\ log w' = log w /\ env w' = env w
    /\ if PostCreationResult.success res
       then exists story g node post,
              storyOf OfPostManager w = Some story
              /\ Redis.GAME_STATE (redis w) = Some g
              /\ GameState.isActive g = true
              /\ Story.node story (GameState.currentNodeId g) = Some node
              /\ StoryNode.isEnd node = Some true
              /\ reddit_submitPost (env w) (calls w) = Ok post
              /\ res = PostCreationResult.mk true (Some post) (Some []) None
              /\ calls w' = S (calls w)
              /\ redis w' = completedStore (redis w)
       else redis w' = redis w.
Proof.
  destruct (getStoryMetadata_run OfPostManager w)
    as (w1 & H1 & Hr1 & Hn1 & Hl1 & Hc1 & He1 & Hs1).
  unfold PostManager.createEndGameRecapPost, try_catch. rewrite bind_run, H1.
  destruct (storyOf OfPostManager w) as [story|] eqn:Hstory.
  2: { unfold ret. do 2 eexists. split; [reflexivity|]. cbn. auto. }
  rewrite bind_run.
  unfold StoryEngine.getGameState at 1, RedisManager.getGameState at 1.
  rewrite bind_run. unfold get_redis at 1, ret at 1. rewrite Hr1.
  destruct (Redis.GAME_STATE (redis w)) as [g|] eqn:Hg.
  2: { unfold ret. do 2 eexists. split; [reflexivity|]. cbn. auto. }
  rewrite bind_run.
  destruct (getCurrentNode_run OfPostManager w1)
    as (w2 & H2 & Hr2 & Hn2 & Hl2 & Hc2 & He2).
  rewrite H2, Hs1, Hr1, Hg.
  destruct (GameState.isActive g) eqn:Hactive.
  2: { unfold ret. do 2 eexists. split; [reflexivity|]. cbn.
       repeat split; congruence. }
  destruct (Story.node story (GameState.currentNodeId g)) as [node|] eqn:Hnode.
  2: { unfold ret. do 2 eexists. split; [reflexivity|]. cbn.
       repeat split; congruence. }
  destruct node as [nid title content img choices [[|]|]].
  2,3: unfold ret; do 2 eexists; (split; [reflexivity|]); cbn; repeat split; congruence.
  rewrite bind_run. unfold PostManager.createRedditPost at 1, try_catch.
  rewrite bind_run. unfold external at 1. rewrite He2, He1, Hc2, Hc1.
  destruct (reddit_submitPost (env w) (calls w)) as [post|m] eqn:Hpost; cbn [of_result].
  2: { unfold throw, ret. do 2 eexists. split; [reflexivity|]. cbn.
       repeat split; congruence. }
  unfold ret at 1. rewrite bind_run.
  set (w3 := mkWorld _ _ _ _ _ _ _ _ _).
  destruct (completeGame_run w3) as (w4 & H4 & Hr4 & Hn4 & Hl4 & Hc4 & He4).
  rewrite H4. unfold ret. do 2 eexists. split; [reflexivity|].
  subst w3. cbn in *. split; [congruence|]. split; [congruence|]. split; [congruence|].
  exists story, g, (StoryNode.mk nid title content img choices (Some true)), post.
  rewrite Hr4, Hr2, Hr1. repeat split; auto.
Qed.

(** X22.  [createEndGameRecapPost] never throws, and it ends the game exactly
    when it reports success: then the stored game was active on an end
    node, the post was created, and the game state and the configuration
    are now inactive, every other field and the vote records as before;
    after a failure the store is as it was. *)
Theorem createEndGameRecapPost_completes_on_success subredditName w :
  exists w' res,
    PostManager.createEndGameRecapPost subredditName w = (w', Ok res)
    /\ if PostCreationResult.success res
       then exists story g node post,
              storyOf OfPostManager w = Some story
              /\ Redis.GAME_STATE (redis w) = Some g
              /\ GameState.isActive g = true
              /\ Story.node story (GameState.currentNodeId g) = Some node
              /\ StoryNode.isEnd node = Some true
              /\ reddit_submitPost (env w) (calls w) = Ok post
              /\ PostCreationResult.postId res = Some post
              /\ redis w' = completedStore (redis w)
              /\ gameInactive w'
       else redis w' = redis w.
Proof.
  destruct (createEndGameRecapPost_run subredditName w)
    as (w' & res & Hrun & _ & _ & _ & H).
  exists w', res. split; [exact Hrun|].
  destruct (PostCreationResult.success res); [|exact H].
  destruct H as (story & g & node & post & Hs & Hg & Ha & Hn & He & Hp & -> & _ & Hr).
  exists story, g, node, post. repeat split; auto.
  unfold gameInactive. rewrite Hr. unfold completedStore. rewrite Hg. cbn.
  reflexivity.
Qed.

(** ** [SchedulerHandler]: scheduling a round *)

(** X23.  [scheduleNextRound] never throws and never writes to the store.  With
    a duration or a round number that is not positive it fails without
    calling the platform.  Otherwise it asks the platform for one job: if
    that call throws, the failure carries its message; if it answers, the
    job is to run at the present time plus the duration, counted in
    minutes when the stored game is in test mode and in hours otherwise,
    and it carries the round number. *)
Theorem scheduleNextRound_schedules_one_job cfg durationHours roundNumber w :
  exists w' res,
    SchedulerHandler.scheduleNextRound cfg durationHours roundNumber w = (w', Ok res)
    /\ redis w' = redis w
    /\ now w' = now w
    /\ if (durationHours <=? 0) || (roundNumber <=? 0)
       then w' = w /\ SchedulerResult.success res = false
       else calls w' = S (calls w)
            /\ match scheduler_runJob (env w) (calls w) with
               | Ok jobId =>
                   SchedulerResult.success res = true
                   /\ SchedulerResult.jobId res = Some jobId
                   /\ log w'
                      = log w ++ [RunJob (now w + durationHours * msPerUnit w)
                                    roundNumber (now w) durationHours]
               | Throw message =>
                   res = SchedulerResult.failure ("Scheduling failed: " +:+ message)
                   /\ log w' = log w
               end.
Proof.
  unfold SchedulerHandler.scheduleNextRound, try_catch, msPerUnit.
  destruct (durationHours <=? 0) eqn:Hd; cbn [orb].
  { unfold ret. do 2 eexists. split; [reflexivity|]. auto. }
  destruct (roundNumber <=? 0) eqn:Hn.
  { unfold ret. do 2 eexists. split; [reflexivity|]. auto. }
  unfold SchedulerHandler.cancelScheduledRound, RedisManager.getGameState, bind,
    get_redis, date_now, external, emit, toISOString, ret.
  cbn.
  destruct (scheduler_runJob (env w) (calls w)) as [jobId|message]; cbn.
  - do 2 eexists. split; [reflexivity|]. cbn. repeat split.
    do 3 f_equal.
    destruct (Redis.GAME_STATE (redis w)) as [[? ? ? ? ? ? [[|]|]]|]; cbn; lia.
  - do 2 eexists. split; [reflexivity|]. cbn. repeat split.
Qed.

(** ** [SchedulerHandler]: a job for another round *)

(** X24.  A job that fires for a round other than the one the stored game is
    in, and a manual request for such a round, are refused: the call
    returns a failure, does not throw, and the world is exactly as it
    was - no vote is counted and nothing is posted. *)
Theorem stale_round_changes_nothing cfg event roundNumber g w :
  Redis.GAME_STATE (redis w) = Some g ->
  JobEvent.roundNumber event = Some roundNumber ->
  0 < roundNumber ->
  roundNumber <> GameState.roundNumber g ->
  (exists res,
      SchedulerHandler.handleRoundAdvancement cfg event w = (w, Ok res)
      /\ SchedulerResult.success res = false)
  /\ (exists res,
         SchedulerHandler.manualRoundAdvancement cfg roundNumber w = (w, Ok res)
         /\ SchedulerResult.success res = false).
Proof.
  intros Hg Hevent Hpos Hne.
  assert ((GameState.roundNumber g =? roundNumber) = false) as Hneq by lia.
  assert ((roundNumber <=? 0) = false) as Hle by lia.
  split.
  - unfold SchedulerHandler.handleRoundAdvancement, try_catch. rewrite Hevent, Hle.
    unfold SchedulerHandler.advanceCurrentRound, StoryEngine.getGameState,
      RedisManager.getGameState, bind, get_redis, ret.
    rewrite Hg, Hneq. destruct (GameState.isActive g); cbn; eexists; split; reflexivity.
  - unfold SchedulerHandler.manualRoundAdvancement, try_catch,
      StoryEngine.getGameState, RedisManager.getGameState, bind, get_redis, ret.
    rewrite Hg, Hneq. destruct (GameState.isActive g); cbn; eexists; split; reflexivity.
Qed.

Lemma stale_round_changes_nothing_witness :
  (exists res,
      SchedulerHandler.handleRoundAdvancement schedulerDefaults
        (JobEvent.mk "subquest_round_advance" (Some 2) (Some 0) (Some 24))
        (demoWorld (Ok "post"))
      = (demoWorld (Ok "post"), Ok res)
      /\ SchedulerResult.success res = false)
  /\ (exists res,
         SchedulerHandler.manualRoundAdvancement schedulerDefaults 2
           (demoWorld (Ok "post"))
         = (demoWorld (Ok "post"), Ok res)
         /\ SchedulerResult.success res = false).
Proof.
  apply (stale_round_changes_nothing schedulerDefaults
           (JobEvent.mk "subquest_round_advance" (Some 2) (Some 0) (Some 24))
           2 demoGame (demoWorld (Ok "post")));
    [reflexivity|reflexivity|lia|discriminate].
Defined.

(** ** [SchedulerHandler]: one execution of the advancement *)

Lemma store_scheduleNextRound cfg d n :
  preserves keepsStore (SchedulerHandler.scheduleNextRound cfg d n).
Proof.
  unfold SchedulerHandler.scheduleNextRound, SchedulerHandler.cancelScheduledRound.
  store.
Qed.



(** ** [SchedulerHandler]: setting up and tearing down *)

Lemma cancelRounds_run cfg : forall rounds w,
  exists results,
    SchedulerHandler.cancelRounds cfg rounds w = (w, Ok results)
    /\ length results = length rounds
    /\ Forall (fun result => SchedulerResult.success result = true) results.
Proof.
  induction rounds as [|round rest IH]; intros w; cbn [SchedulerHandler.cancelRounds].
  - exists []. repeat split; auto.
  - destruct (IH w) as (results & Hrun & Hlen & Hall).
    unfold SchedulerHandler.cancelScheduledRound at 1. rewrite bind_run.
    unfold ret at 1. rewrite bind_run, Hrun. unfold ret.
    eexists. split; [reflexivity|]. cbn. split; [lia|]. constructor; auto.
Qed.

Lemma cancelAllScheduledRounds_run cfg w :
  exists res,
    SchedulerHandler.cancelAllScheduledRounds cfg w = (w, Ok res)
    /\ SchedulerResult.success res = true
    /\ SchedulerResult.details res
       = Some match Redis.GAME_STATE (redis w) with
              | Some _ => "Cancelled 6/6 scheduled jobs"
              | None => "No active game found - nothing to cancel"
              end.
Proof.
  unfold SchedulerHandler.cancelAllScheduledRounds. rewrite bind_run.
  unfold StoryEngine.getGameState at 1, RedisManager.getGameState at 1.
  rewrite bind_run. unfold get_redis at 1, ret at 1.
  destruct (Redis.GAME_STATE (redis w)) as [g|].
  - rewrite bind_run.
    destruct (cancelRounds_run cfg (seqZ (GameState.roundNumber g) 6) w)
      as (results & Hrun & Hlen & Hall).
    rewrite Hrun. unfold ret. eexists. split; [reflexivity|]. split; [reflexivity|].
    cbn [SchedulerResult.details].
    assert (List.filter (fun result => negb (SchedulerResult.success result)) results
            = []) as ->.
    { clear Hrun Hlen. induction Hall as [|r rs Hr _ IH]; [reflexivity|].
      cbn. rewrite Hr. exact IH. }
    rewrite Hlen, length_seqZ. reflexivity.
  - unfold ret. eexists. repeat split.
Qed.

(** X26.  Cancelling cancels nothing.  [cancelAllScheduledRounds] and
    [cleanupGameScheduler] report success - six jobs out of six when a
    game is stored - and leave the world exactly as it was: the platform
    is not called, so a job scheduled earlier still fires. *)
Theorem cancellation_leaves_every_job cfg w :
  (exists res,
      SchedulerHandler.cancelAllScheduledRounds cfg w = (w, Ok res)
      /\ SchedulerResult.success res = true
      /\ (gameStored w ->
          SchedulerResult.details res = Some "Cancelled 6/6 scheduled jobs"))
  /\ (exists res,
         SchedulerHandler.cleanupGameScheduler cfg w = (w, Ok res)
         /\ SchedulerResult.success res = true
         /\ (gameStored w ->
             SchedulerResult.details res
             = Some "Scheduler cleanup: Cancelled 6/6 scheduled jobs")).
Proof.
  destruct (cancelAllScheduledRounds_run cfg w) as (res & Hrun & Hsuccess & Hdetails).
  split.
  - exists res. repeat split; auto.
    intros [g Hg]. rewrite Hdetails, Hg. reflexivity.
  - unfold SchedulerHandler.cleanupGameScheduler. rewrite bind_run, Hrun. unfold ret.
    eexists. split; [reflexivity|]. split; [reflexivity|].
    intros [g Hg]. cbn [SchedulerResult.details]. rewrite Hdetails, Hg. reflexivity.
Qed.

(** X27.  [initializeGameScheduler] never throws and never writes to the
    store.  Without an active game, or with a duration or a stored round
    number that is not positive, it fails without calling the platform.
    Otherwise it asks the platform for exactly one job, for the round the
    stored game is in, to run a duration from now - minutes in test mode,
    hours otherwise; if the platform throws, the result is a failure. *)
Theorem initializeGameScheduler_schedules_stored_round cfg subredditName
    roundDurationHours w :
  exists w' res,
    SchedulerHandler.initializeGameScheduler cfg subredditName roundDurationHours w
    = (w', Ok res)
    /\ redis w' = redis w
    /\ match Redis.GAME_STATE (redis w) with
       | Some g =>
           if GameState.isActive g && (0 <? roundDurationHours)
              && (0 <? GameState.roundNumber g)
           then calls w' = S (calls w)
                /\ match scheduler_runJob (env w) (calls w) with
                   | Ok jobId =>
                       SchedulerResult.success res = true
                       /\ SchedulerResult.jobId res = Some jobId
                       /\ log w'
                          = log w ++ [RunJob (now w + roundDurationHours * msPerUnit w)
                                        (GameState.roundNumber g) (now w)
                                        roundDurationHours]
                   | Throw message =>
                       SchedulerResult.success res = false /\ log w' = log w
                   end
           else w' = w /\ SchedulerResult.success res = false
       | None => w' = w /\ SchedulerResult.success res = false
       end.
Proof.
  unfold SchedulerHandler.initializeGameScheduler, try_catch. rewrite bind_run.
  destruct (cancelAllScheduledRounds_run cfg w) as (res0 & Hrun0 & _).
  rewrite Hrun0, bind_run.
  unfold StoryEngine.getGameState at 1, RedisManager.getGameState at 1.
  rewrite bind_run. unfold get_redis at 1, ret at 1.
  destruct (Redis.GAME_STATE (redis w)) as [g|] eqn:Hg.
  2: { unfold ret. do 2 eexists. split; [reflexivity|]. auto. }
  destruct (GameState.isActive g); cbn [negb andb].
  2: { unfold ret. do 2 eexists. split; [reflexivity|]. auto. }
  rewrite bind_run.
  unfold SchedulerHandler.scheduleNextRound, try_catch, msPerUnit.
  rewrite Hg.
  destruct (Z.leb_spec roundDurationHours 0) as [Hd|Hd];
    [replace (0 <? roundDurationHours) with false by lia
    |replace (0 <? roundDurationHours) with true by lia]; cbn [andb].
  { unfold ret. do 2 eexists. split; [reflexivity|]. auto. }
  destruct (Z.leb_spec (GameState.roundNumber g) 0) as [Hn|Hn];
    [replace (0 <? GameState.roundNumber g) with false by lia
    |replace (0 <? GameState.roundNumber g) with true by lia].
  { unfold ret. do 2 eexists. split; [reflexivity|]. auto. }
  unfold SchedulerHandler.cancelScheduledRound, RedisManager.getGameState, bind,
    get_redis, date_now, external, emit, toISOString, ret.
  cbn. rewrite Hg.
  destruct (scheduler_runJob (env w) (calls w)) as [jobId|message]; cbn.
  - do 2 eexists. split; [reflexivity|]. cbn. repeat split.
    do 3 f_equal. destruct g as [? ? ? ? ? ? [[|]|]]; cbn; lia.
  - do 2 eexists. split; [reflexivity|]. cbn. repeat split.
Qed.

(** ** [SettingsHandler]: ending a game from the settings form *)

Lemma clearGameData_quiet w :
  log (fst (RedisManager.clearGameData w)) = log w
  /\ calls (fst (RedisManager.clearGameData w)) = calls w.
Proof.
  unfold RedisManager.clearGameData, RedisManager.getGameState, bind, get_redis,
    put_redis, ret.
  cbn. destruct (Redis.GAME_STATE (redis w)); cbn; auto.
Qed.

(** What [handleResetGame] and [cleanupGameState] share: [clearGameData],
    then the configuration marked inactive. *)
Lemma clear_and_deactivate_run {A} (a : A) w :
  exists w',
    (RedisManager.clearGameData ;;
     config <- RedisManager.getConfiguration ;;
     match config with
     | Some c =>
         RedisManager.setConfiguration
           (AppConfig.mk (AppConfig.roundDurationHours c) false
              (AppConfig.subredditName c))
     | None => ret tt
     end ;;
     ret a)%m w = (w', Ok a)
    /\ Redis.GAME_STATE (redis w') = None
    /\ Redis.STORY_DATA (redis w') = Redis.STORY_DATA (redis w)
    /\ Redis.CONFIG (redis w') = inactiveConfig <$> Redis.CONFIG (redis w)
    /\ (forall round,
          Redis.VOTE_DATA (redis w') !! round
          = match Redis.GAME_STATE (redis w) with
            | Some g =>
                if (1 <=? round) && (round <=? GameState.roundNumber g) then None
                else Redis.VOTE_DATA (redis w) !! round
            | None => Redis.VOTE_DATA (redis w) !! round
            end)
    /\ calls w' = calls w
    /\ log w' = log w.
Proof.
  destruct (clearGameData_run w) as (w1 & H1 & Hg1 & Hs1 & Hc1 & Hv1 & _).
  destruct (clearGameData_quiet w) as [Hl1 Hk1]. rewrite H1 in Hl1, Hk1.
  cbn [fst] in Hl1, Hk1.
  rewrite bind_run, H1.
  unfold RedisManager.getConfiguration, RedisManager.setConfiguration, bind, get_redis,
    put_redis, ret.
  cbn. rewrite <- Hc1, <- Hs1.
  destruct (Redis.CONFIG (redis w1)) as [c|] eqn:Hc; cbn;
    (eexists; split; [reflexivity|]); cbn; repeat split; auto.
Qed.

(** X28.  [handleResetGame] and [cleanupGameState] always succeed and end a
    game without starting another: no game state is stored afterwards,
    the configuration, if any, is marked inactive, the vote records of
    rounds 1 to the round the game was in are deleted and the others
    kept, and the stored story stays.  Nothing is posted or scheduled:
    the platform is not called. *)
Theorem handleResetGame_ends_the_game w :
  endsGame SettingsHandler.handleResetGame w
  /\ endsGame SettingsHandler.cleanupGameState w.
Proof.
  unfold endsGame. split.
  - unfold SettingsHandler.handleResetGame. rewrite bind_run.
    unfold RedisManager.getGameState at 1. rewrite bind_run.
    unfold get_redis at 1, ret at 1. rewrite bind_run.
    unfold SchedulerHandler.cleanupGameScheduler. rewrite bind_run.
    destruct (cancelAllScheduledRounds_run
                (SchedulerHandler.constructor SchedulerConfig.none) w)
      as (res0 & Hrun0 & _).
    rewrite Hrun0. unfold ret at 1.
    match goal with
    | |- context [ret (ActionResult.mk ?s ?m)] =>
        destruct (clear_and_deactivate_run (ActionResult.mk s m) w) as (w' & Hrun & H)
    end.
    exists w'. eexists. split; [exact Hrun|]. split; [reflexivity|]. exact H.
  - unfold SettingsHandler.cleanupGameState. rewrite bind_run.
    unfold RedisManager.getGameState at 1. rewrite bind_run.
    unfold get_redis at 1, ret at 1.
    match goal with
    | |- context [ret (ActionResult.mk ?s ?m)] =>
        destruct (clear_and_deactivate_run (ActionResult.mk s m) w) as (w' & Hrun & H)
    end.
    exists w'. eexists. split; [exact Hrun|]. split; [reflexivity|]. exact H.
Qed.

(** ** [SettingsHandler]: changing the round duration *)

(** X29.  [handleUpdateRoundDuration] never throws.  It makes two
    comparisons: a duration that is not greater than 0 is rejected, and
    so is one greater than 168; for the whole numbers of hours of the
    embedding, the accepted durations are those from 1 to 168 (the code
    compares any number the same way, so it lets a fraction such as 0.5
    through as well).  A rejected duration leaves the world as it was.  An
    accepted one is what [getRoundDuration] returns afterwards; the
    platform is not called, so the job already scheduled for the running
    round is not moved. *)
Theorem handleUpdateRoundDuration_bounds (durationHours : Z) w :
  exists w' res,
    SettingsHandler.handleUpdateRoundDuration durationHours w = (w', Ok res)
    /\ ActionResult.success res = (0 <? durationHours) && (durationHours <=? 168)
    /\ (ActionResult.success res = false -> w' = w)
    /\ (ActionResult.success res = true ->
        RedisManager.getRoundDuration w' = (w', Ok durationHours))
    /\ calls w' = calls w
    /\ log w' = log w.
Proof.
  unfold SettingsHandler.handleUpdateRoundDuration, try_catch.
  destruct (Z.leb_spec durationHours 0) as [Hd|Hd].
  { unfold ret. do 2 eexists. split; [reflexivity|].
    replace (0 <? durationHours) with false by lia. cbn. repeat split; auto.
    discriminate. }
  replace (0 <? durationHours) with true by lia.
  destruct (Z.ltb_spec 168 durationHours) as [Hu|Hu].
  { unfold ret. do 2 eexists. split; [reflexivity|].
    replace (durationHours <=? 168) with false by lia. cbn. repeat split; auto.
    discriminate. }
  replace (durationHours <=? 168) with true by lia.
  unfold RedisManager.updateRoundDuration, RedisManager.getRoundDuration,
    RedisManager.getConfiguration, RedisManager.setConfiguration,
    RedisManager.getGameState, RedisManager.setGameState,
    try_catch, bind, get_redis, put_redis, ret, throw.
  replace (durationHours <=? 0) with false by lia. cbn.
  destruct (Redis.GAME_STATE (redis w)) as [g|]; cbn.
  - destruct (GameState.isActive g); cbn; do 2 eexists; (split; [reflexivity|]); cbn;
      repeat split; try discriminate; destruct (Redis.CONFIG (redis w)); reflexivity.
  - do 2 eexists; (split; [reflexivity|]); cbn.
    repeat split; try discriminate; destruct (Redis.CONFIG (redis w)); reflexivity.
Qed.


(** ** [SettingsHandler]: what an accepted story guarantees *)

(** A field that passes the check of the mandatory text fields holds a
    non-empty string. *)
Lemma valid_string v :
  JS.not_valid_string v = false -> exists s, v = Some (JS.JStr s) /\ s <> "".
Proof.
  unfold JS.not_valid_string.
  destruct v as [[|b|z|s|xs|kvs]|]; cbn; try discriminate;
    try (destruct b; discriminate); try (destruct (negb (z =? 0)); discriminate).
  intros H. exists s. split; [reflexivity|].
  intros ->. discriminate.
Qed.

Lemma validateChoice_clean choice nodeId index allNodeIds :
  SettingsHandler.validateChoice choice nodeId index allNodeIds = Ok [] ->
  exists next,
    JS.get choice "nextNodeId" = Some (JS.JStr next) /\ In next allNodeIds.
Proof.
  unfold SettingsHandler.validateChoice.
  destruct choice as [|b|z|s|xs|kvs] eqn:Hchoice; [discriminate| | | | |].
  all: rewrite <- Hchoice; clear Hchoice.
  all: intros [= H]; apply app_eq_nil in H as [_ H]; apply app_eq_nil in H as [_ H].
  all: match type of H with
       | context [JS.not_valid_string ?v] =>
           destruct (JS.not_valid_string v) eqn:Hvalid; [discriminate|];
           apply valid_string in Hvalid as (next & Hnext & _);
           change v with (JS.get choice "nextNodeId") in Hnext; rewrite Hnext in H
       end.
  all: destruct (existsb (String.eqb next) allNodeIds) eqn:Hex; [|discriminate].
  all: exists next; split; [exact Hnext|].
  all: apply existsb_exists in Hex as (x & Hin & Heq).
  all: apply String.eqb_eq in Heq; subst x; exact Hin.
Qed.

Lemma validateChoices_clean nodeId allNodeIds : forall choices index,
  SettingsHandler.validateChoices choices nodeId index allNodeIds = Ok [] ->
  forall i choice,
    choices !! i = Some choice ->
    exists next,
      JS.get choice "nextNodeId" = Some (JS.JStr next) /\ In next allNodeIds.
Proof.
  induction choices as [|c cs IH]; intros index H i choice Hi; [destruct i; discriminate|].
  cbn [SettingsHandler.validateChoices] in H.
  destruct (SettingsHandler.validateChoice c nodeId index allNodeIds) as [errors|]
    eqn:Hc; [|discriminate].
  destruct (SettingsHandler.validateChoices cs nodeId (S index) allNodeIds) as [more|]
    eqn:Hcs; [|discriminate].
  injection H as H. apply app_eq_nil in H as [-> ->].
  destruct i as [|i]; cbn in Hi.
  - injection Hi as <-. eapply validateChoice_clean; eauto.
  - eapply IH; eauto.
Qed.

Lemma validateStoryNode_clean node nodeId allNodeIds :
  SettingsHandler.validateStoryNode node nodeId allNodeIds = Some (Ok []) ->
  JS.get node "id" = Some (JS.JStr nodeId)
  /\ forall choices,
       JS.get node "choices" = Some (JS.JArr choices) ->
       SettingsHandler.validateChoices choices nodeId 0 allNodeIds = Ok [].
Proof.
  unfold SettingsHandler.validateStoryNode.
  destruct node as [|b|z|s|xs|kvs]; [discriminate| | | | |].
  all: cbv zeta.
  all: match goal with
       | |- context [match ?oc with Throw _ => _ | Ok _ => _ end] =>
           destruct oc as [choiceErrors|] eqn:HofChoices; [|discriminate]
       end.
  all: match goal with
       | |- context [match ?c with Some _ => _ | None => None end = _ -> _] =>
           destruct c as [endWithChoices|]; [|discriminate]
       end.
  all: intros [= H]; apply app_eq_nil in H as [Hfields H];
    apply app_eq_nil in H as [-> _];
    apply app_eq_nil in Hfields as [Hid _].
  all: split; [|intros choices Hch; rewrite Hch in HofChoices; exact HofChoices].
  all: match type of Hid with
       | context [JS.strict_eq_string ?v ?n] =>
           change (v = Some (JS.JStr n));
           destruct (JS.strict_eq_string v n) eqn:Hs;
           [|rewrite orb_true_r in Hid; discriminate];
           destruct v as [[| | |s'| |]|]; try discriminate;
           apply String.eqb_eq in Hs; congruence
       end.
Qed.

Lemma validateNodes_clean nodes allNodeIds : forall todo,
  SettingsHandler.validateNodes nodes todo allNodeIds = Some (Ok []) ->
  forall nodeId,
    In nodeId todo ->
    exists node,
      JS.get nodes nodeId = Some node
      /\ SettingsHandler.validateStoryNode node nodeId allNodeIds = Some (Ok []).
Proof.
  induction todo as [|first rest IH]; intros H nodeId Hin; [destruct Hin|].
  cbn [SettingsHandler.validateNodes] in H.
  destruct (JS.get nodes first) as [firstNode|] eqn:Hfirst; [|discriminate].
  destruct (SettingsHandler.validateStoryNode firstNode first allNodeIds)
    as [[firstErrors|]|] eqn:Hfe; try discriminate.
  destruct (SettingsHandler.validateNodes nodes rest allNodeIds) as [[more|]|] eqn:Hrest;
    try discriminate.
  injection H as H. apply app_eq_nil in H as [-> ->].
  destruct Hin as [<-|Hin]; [eauto|].
  apply IH; auto.
Qed.

Lemma nodesErrors_clean parsedStory nodes :
  SettingsHandler.nodesErrors parsedStory nodes = Some (Ok []) ->
  JS.entries (Some nodes) <> []
  /\ JS.truthy (JS.get parsedStory "startNodeId")
     && negb (JS.truthy (JS.get nodes
                           (JS.value_to_string (JS.get parsedStory "startNodeId"))))
     = false
  /\ SettingsHandler.validateNodes nodes (map fst (JS.entries (Some nodes)))
       (map fst (JS.entries (Some nodes))) = Some (Ok []).
Proof.
  unfold SettingsHandler.nodesErrors. cbv zeta.
  destruct (SettingsHandler.validateNodes _ _ _) as [[nodeErrors|]|]; try discriminate.
  destruct (SettingsHandler.findReachableNodes _ _) as [[reachable|]|]; try discriminate.
  intros [= H]. apply app_eq_nil in H as [HnoNode H].
  apply app_eq_nil in H as [HnoStart H]. apply app_eq_nil in H as [-> _].
  split; [|split; [|reflexivity]].
  - intros Hempty. change (match map fst (JS.entries (Some nodes)) with
                            | [] => ["Story must have at least one node"]
                            | _ :: _ => []
                            end = []) in HnoNode.
    rewrite Hempty in HnoNode. discriminate.
  - destruct (_ && _); [discriminate|reflexivity].
Qed.

(** X30.  A story that [validateStoryJson] accepts is well formed: its title,
    description and start node id are non-empty strings, the start node
    is one of the nodes, there is at least one node, every node carries
    its own key as [id], and every choice of every node leads to a node
    of the story. *)
Theorem validateStoryJson_accepts_only_well_formed parsedStory res :
  SettingsHandler.validateStoryJson parsedStory = Some res ->
  StoryValidationResult.isValid res = true ->
  exists nodes title description startNodeId,
    JS.get parsedStory "nodes" = Some nodes
    /\ JS.get parsedStory "title" = Some (JS.JStr title) /\ title <> ""
    /\ JS.get parsedStory "description" = Some (JS.JStr description)
    /\ description <> ""
    /\ JS.get parsedStory "startNodeId" = Some (JS.JStr startNodeId)
    /\ startNodeId <> ""
    /\ JS.truthy (JS.get nodes startNodeId) = true
    /\ JS.entries (Some nodes) <> []
    /\ forall nodeId,
         In nodeId (map fst (JS.entries (Some nodes))) ->
         exists node,
           JS.get nodes nodeId = Some node
           /\ JS.get node "id" = Some (JS.JStr nodeId)
           /\ forall choices i choice,
                JS.get node "choices" = Some (JS.JArr choices) ->
                choices !! i = Some choice ->
                exists next,
                  JS.get choice "nextNodeId" = Some (JS.JStr next)
                  /\ In next (map fst (JS.entries (Some nodes))).
Proof.
  unfold SettingsHandler.validateStoryJson.
  destruct parsedStory as [|b|z|s|xs|kvs] eqn:Hstory; try (intros [= <-]; discriminate).
  rewrite <- Hstory. clear Hstory. cbv zeta.
  destruct (JS.get parsedStory "nodes") as [nodes|] eqn:Hnodes.
  2: { intros [= <-]. discriminate. }
  match goal with
  | |- match ?ofNodes with _ => _ end = _ -> _ =>
      destruct ofNodes as [[more|message]|] eqn:Hof;
      [|intros [= <-]; discriminate|discriminate]
  end.
  assert (nodes <> JS.JNull -> more = [] ->
          SettingsHandler.nodesErrors parsedStory nodes = Some (Ok [])) as Hclean.
  { intros Hnull ->. destruct nodes; try congruence; try discriminate Hof; exact Hof. }
  clear Hof.
  destruct (SettingsHandler.longerThan (JS.get parsedStory "title") 100)
    as [longTitle|]; [|destruct nodes; try discriminate; intros [= <-]; discriminate].
  destruct (SettingsHandler.longerThan (JS.get parsedStory "description") 500)
    as [longDescription|]; [|destruct nodes; try discriminate; intros [= <-]; discriminate].
  destruct (SettingsHandler.topLevelErrors parsedStory ++ more) eqn:Herrors;
    [|destruct nodes; intros [= <-]; discriminate].
  apply app_eq_nil in Herrors as [Htop ->].
  intros Hres Hvalid.
  assert (nodes <> JS.JNull) as Hnull.
  { intros ->. injection Hres as <-. discriminate Hvalid. }
  clear Hres Hvalid.
  apply nodesErrors_clean in Hclean as (Hsome & Hstart & Hall); auto.
  unfold SettingsHandler.topLevelErrors in Htop.
  apply app_eq_nil in Htop as [Htitle Htop]. apply app_eq_nil in Htop as [Hdesc Hid].
  destruct (JS.not_valid_string (JS.get parsedStory "title")) eqn:Ht; [discriminate|].
  destruct (JS.not_valid_string (JS.get parsedStory "description")) eqn:Hd;
    [discriminate|].
  destruct (JS.not_valid_string (JS.get parsedStory "startNodeId")) eqn:Hs;
    [discriminate|].
  apply valid_string in Ht as (title & Ht & Htne).
  apply valid_string in Hd as (description & Hd & Hdne).
  apply valid_string in Hs as (startNodeId & Hs & Hsne).
  exists nodes, title, description, startNodeId.
  rewrite Hs in Hstart. cbn [JS.value_to_string JS.to_string JS.truthy] in Hstart.
  repeat (split; [assumption || reflexivity|]).
  split.
  { destruct (JS.truthy (JS.get nodes startNodeId)); [reflexivity|].
    destruct (String.eqb_spec startNodeId ""); [congruence|discriminate]. }
  split; [exact Hsome|].
  intros nodeId Hin.
  destruct (validateNodes_clean _ _ _ Hall nodeId Hin) as (node & Hget & Hnode).
  apply validateStoryNode_clean in Hnode as [Hnid Hchoices].
  exists node. split; [exact Hget|]. split; [exact Hnid|].
  intros choices i choice Hch Hi.
  eapply validateChoices_clean; eauto.
Qed.


Lemma validateStoryJson_accepts_only_well_formed_witness :
  exists nodes title description startNodeId,
    JS.get demoStoryJson "nodes" = Some nodes
    /\ JS.get demoStoryJson "title" = Some (JS.JStr title) /\ title <> ""
    /\ JS.get demoStoryJson "description" = Some (JS.JStr description)
    /\ description <> ""
    /\ JS.get demoStoryJson "startNodeId" = Some (JS.JStr startNodeId)
    /\ startNodeId <> ""
    /\ JS.truthy (JS.get nodes startNodeId) = true
    /\ JS.entries (Some nodes) <> []
    /\ forall nodeId,
         In nodeId (map fst (JS.entries (Some nodes))) ->
         exists node,
           JS.get nodes nodeId = Some node
           /\ JS.get node "id" = Some (JS.JStr nodeId)
           /\ forall choices i choice,
                JS.get node "choices" = Some (JS.JArr choices) ->
                choices !! i = Some choice ->
                exists next,
                  JS.get choice "nextNodeId" = Some (JS.JStr next)
                  /\ In next (map fst (JS.entries (Some nodes))).
Proof.
  apply (validateStoryJson_accepts_only_well_formed demoStoryJson
           (StoryValidationResult.mk true [] [] (Some demoStoryJson)));
    vm_compute; reflexivity.
Defined.
